(** * Path reconciliation of the COMPSs RO-Crate generator

    A shallow embedding of the path-reconciliation core of
    [generate_COMPSs_RO-Crate.py]: the classifier of the access log
    ([process_accessed_files]), the path normaliser ([fix_dir_url]), the
    common-path resolver ([get_common_paths]), the dataset reconciler
    ([add_manual_datasets]) and the cross-role fix-up
    ([fix_in_files_at_out_dirs]), followed by the properties the
    specification states about them.

    Conventions of the embedding.
    - A Python [str] is a [string]; a character is an [ascii], read as the
      code point of the same number, so the model covers the strings whose
      code points are below 256.
    - A Python [set] of strings is a [gset string]; a Python [list] is a
      [list]; [list.sort()] is stdpp's [merge_sort] on the code-point order,
      which is total and antisymmetric, so every sorting algorithm agrees
      with it.
    - A Python exception is a [Raise] in the error monad [res].
    - A [for] loop over a list that the loop body itself mutates is a
      function on the iterator's index and the current list. *)

From Stdlib Require Import Ascii String.
From stdpp Require Import base option list sorting gmap strings.

#[local] Set Warnings "-clear-no-such-hyp".

(** ** Exceptions *)

(** The Python exceptions the modelled code can raise.  [LoopBound] is not a
    Python exception: it marks the exhaustion of the iteration bound of the
    two index loops below, and the lemmas [fix_dir_refs_loop_bound] and
    [end_slash_loop_bound] show that it never happens. *)
Inductive exn : Set :=
  | ValueError
  | IndexError
  | FileNotFoundError
  | LoopBound.

Inductive res (A : Type) : Type :=
  | Ok (a : A)
  | Raise (e : exn).
Arguments Ok {A} a.
Arguments Raise {A} e.

#[global] Instance res_ret : MRet res := @Ok.
#[global] Instance res_bind : MBind res := fun A B f m =>
  match m with
  | Ok a => f a
  | Raise e => Raise e
  end.

#[global] Instance exn_eq_dec : EqDecision exn.
Proof. solve_decision. Defined.

(** ** Python string operations *)

(** [str.isspace] on the code points below 256: the characters that
    [str.rstrip()] without argument removes. *)
Definition py_isspace (c : ascii) : bool :=
  let n := nat_of_ascii c in
  bool_decide (9 ≤ n ≤ 13) || bool_decide (28 ≤ n ≤ 32)
  || bool_decide (n = 133) || bool_decide (n = 160).

(** [s.rstrip()] *)
Fixpoint rstrip (s : string) : string :=
  match s with
  | EmptyString => EmptyString
  | String c s' =>
      let r := rstrip s' in
      if py_isspace c && bool_decide (r = EmptyString) then EmptyString
      else String c r
  end.

(** [s.split(sep)] for a separator of one character: the fields between the
    occurrences of [sep], empty fields included; never the empty list. *)
Fixpoint split (sep : ascii) (s : string) : list string :=
  match s with
  | EmptyString => [EmptyString]
  | String c s' =>
      if decide (c = sep) then EmptyString :: split sep s'
      else match split sep s' with
           | x :: xs => String c x :: xs
           | [] => [String c EmptyString]
           end
  end.

(** [a.startswith(b)] *)
Definition startswith (a b : string) : bool := String.prefix b a.

(** [s[-1]], which raises [IndexError] on the empty string. *)
Fixpoint last_char (s : string) : res ascii :=
  match s with
  | EmptyString => Raise IndexError
  | String c EmptyString => Ok c
  | String _ s' => last_char s'
  end.

(** The part of [s] before the first character satisfying [p], and the rest
    of [s] from that character on (empty when there is none): [s[:i]] and
    [s[i:]] for the first such index [i], or for [i = len(s)]. *)
Fixpoint break_at (p : ascii → bool) (s : string) : string * string :=
  match s with
  | EmptyString => (EmptyString, EmptyString)
  | String c s' =>
      if p c then (EmptyString, s)
      else let '(a, b) := break_at p s' in (String c a, b)
  end.

(** [c in s] for a character. *)
Fixpoint contains (c : ascii) (s : string) : bool :=
  match s with
  | EmptyString => false
  | String d s' => bool_decide (d = c) || contains c s'
  end.

(** [s.split(c, 1)] as used by [urlsplit] under the guard [c in s]: the text
    before the first [c] and the text after it; [(s, "")] when [c] does not
    occur. *)
Definition cut_at (c : ascii) (s : string) : string * string :=
  let '(a, b) := break_at (λ d, bool_decide (d = c)) s in
  match b with
  | EmptyString => (a, EmptyString)
  | String _ b' => (a, b')
  end.

Fixpoint string_forallb (p : ascii → bool) (s : string) : bool :=
  match s with
  | EmptyString => true
  | String c s' => p c && string_forallb p s'
  end.

Fixpoint string_filter (p : ascii → bool) (s : string) : string :=
  match s with
  | EmptyString => EmptyString
  | String c s' => if p c then String c (string_filter p s') else string_filter p s'
  end.

Fixpoint string_map (f : ascii → ascii) (s : string) : string :=
  match s with
  | EmptyString => EmptyString
  | String c s' => String (f c) (string_map f s')
  end.

Definition is_upper (c : ascii) : bool :=
  let n := nat_of_ascii c in bool_decide (65 ≤ n ≤ 90).
Definition is_lower (c : ascii) : bool :=
  let n := nat_of_ascii c in bool_decide (97 ≤ n ≤ 122).
Definition is_digit (c : ascii) : bool :=
  let n := nat_of_ascii c in bool_decide (48 ≤ n ≤ 57).

(** [c.lower()] on the ASCII letters. *)
Definition lower_char (c : ascii) : ascii :=
  if is_upper c then ascii_of_nat (nat_of_ascii c + 32) else c.

(** [list.remove(x)]: the list without the first occurrence of [x];
    [ValueError] when [x] does not occur. *)
Fixpoint list_remove (x : string) (l : list string) : res (list string) :=
  match l with
  | [] => Raise ValueError
  | y :: l' =>
      if decide (y = x) then Ok l'
      else l'' ← list_remove x l'; Ok (y :: l'')
  end.

(** [l.append(x)] guarded by [x not in l]. *)
Definition append_new (x : string) (l : list string) : list string :=
  if decide (x ∈ l) then l else l ++ [x].

(** [l.sort()] on strings. *)
Definition py_sort (l : list string) : list string := merge_sort String.le l.

(** ** [urllib.parse.urlsplit] *)

(** The model follows CPython 3.10: the characters tab, carriage return and
    line feed are removed; a scheme is the text before the first colon when
    that text is not empty and made of scheme characters only; an authority
    is present when the rest begins with two slashes and it ends at the
    first of '/', '?' and '#'; an authority with an opening square bracket
    and no closing one, or the reverse, raises [ValueError]; the fragment
    is cut at the first '#' and then the query at the first '?'.

    CPython also raises [ValueError] on an authority whose NFKC normal form
    holds one of '/', '?', '#', '@' and ':' that comes from the
    normalisation ([_checknetloc]).  No character with a code point below
    256 normalises to a text with one of these, so on the strings of this
    model the check never raises, and it is left out: what is proved of
    [urlsplit] here is proved of the strings with code points below 256. *)
Record SplitResult : Set := mkSplit {
  scheme : string;
  netloc : string;
  path : string;
  query : string;
  fragment : string
}.

Definition is_unsafe_byte (c : ascii) : bool :=
  let n := nat_of_ascii c in
  bool_decide (n = 9) || bool_decide (n = 10) || bool_decide (n = 13).

Definition is_scheme_char (c : ascii) : bool :=
  is_lower c || is_upper c || is_digit c
  || bool_decide (c = "+"%char) || bool_decide (c = "-"%char)
  || bool_decide (c = "."%char).

Definition is_colon (c : ascii) : bool := bool_decide (c = ":"%char).

Definition is_netloc_delim (c : ascii) : bool :=
  bool_decide (c = "/"%char) || bool_decide (c = "?"%char)
  || bool_decide (c = "#"%char).

(** The scheme and the rest of the URL. *)
Definition split_scheme (url : string) : string * string :=
  match break_at is_colon url with
  | (_, EmptyString) => (EmptyString, url)
  | (EmptyString, _) => (EmptyString, url)
  | (pre, String _ rest) =>
      if string_forallb is_scheme_char pre
      then (string_map lower_char pre, rest)
      else (EmptyString, url)
  end.

Definition bad_brackets (nl : string) : bool :=
  xorb (contains "["%char nl) (contains "]"%char nl).

Definition split_netloc (url : string) : res (string * string) :=
  match url with
  | String c1 (String c2 rest) =>
      if decide (c1 = "/"%char ∧ c2 = "/"%char) then
        let '(nl, rest') := break_at is_netloc_delim rest in
        if bad_brackets nl then Raise ValueError else Ok (nl, rest')
      else Ok (EmptyString, url)
  | _ => Ok (EmptyString, url)
  end.

Definition urlsplit (url : string) : res SplitResult :=
  let url := string_filter (λ c, negb (is_unsafe_byte c)) url in
  let '(sch, url) := split_scheme url in
  '(nl, url) ← split_netloc url;
  let '(url, frag) := cut_at "#"%char url in
  let '(url, qry) := cut_at "?"%char url in
  Ok (mkSplit sch nl url qry frag).

(** ** [pathlib.PurePosixPath] and [os.path.commonpath] *)

(** The components of a path: the fields between slashes, without the empty
    ones and without the "." ones.  Both [pathlib] and [commonpath] drop
    exactly these. *)
Definition is_component (c : string) : bool :=
  negb (bool_decide (c = EmptyString)) && negb (bool_decide (c = ".")).

Definition components (p : string) : list string :=
  List.filter is_component (split "/"%char p).

(** The root [pathlib] gives a POSIX path: "//" for exactly two leading
    slashes, "/" for one or for three and more, none for a relative path. *)
Fixpoint leading_slashes (p : string) : nat :=
  match p with
  | EmptyString => 0
  | String c p' => if decide (c = "/"%char) then S (leading_slashes p') else 0
  end.

Definition path_root (p : string) : string :=
  match leading_slashes p with
  | 0 => EmptyString
  | 2 => "//"
  | _ => "/"
  end.

(** [str] of the path with root [root] and components [cs]. *)
Definition format_path (root : string) (cs : list string) : string :=
  match root, cs with
  | EmptyString, [] => "."
  | _, _ => root +:+ String.concat "/" cs
  end.

(** [str(Path(p).parents[0])]: [IndexError] when [p] has no component. *)
Definition parent_dir (p : string) : res string :=
  match components p with
  | [] => Raise IndexError
  | cs => Ok (format_path (path_root p) (removelast cs))
  end.

Fixpoint common_prefix (l1 l2 : list string) : list string :=
  match l1, l2 with
  | x :: l1', y :: l2' => if decide (x = y) then x :: common_prefix l1' l2' else []
  | _, _ => []
  end.

Definition is_abs (p : string) : bool := startswith p "/".

(** [os.path.commonpath([p1, p2])]: [ValueError] when one path is absolute
    and the other is not.  CPython takes the common prefix of the smallest
    and the largest of the component lists; for two lists that is their
    common prefix. *)
Definition commonpath (p1 p2 : string) : res string :=
  if negb (eqb (is_abs p1) (is_abs p2)) then Raise ValueError
  else Ok ((if is_abs p1 then "/" else EmptyString)
           +:+ String.concat "/" (common_prefix (components p1) (components p2))).

(** ** [fix_dir_url] *)

Definition fix_dir_url (in_url : string) : res string :=
  runtime_url ← urlsplit in_url;
  if decide (scheme runtime_url = "dir") then
    let new_url := "file://" +:+ netloc runtime_url +:+ path runtime_url in
    c ← last_char new_url;
    if decide (c ≠ "/"%char) then Ok (new_url +:+ "/") else Ok new_url
  else Ok in_url.

(** ** [process_accessed_files] *)

(** The two sets the classifier builds, [inputs] first. *)
Definition access_sets : Type := gset string * gset string.

(** The body of the loop over the lines of the log. *)
Definition classify_line (st : access_sets) (line : string) : access_sets :=
  let '(inputs, outputs) := st in
  match split " "%char (rstrip line) with
  | [uri; token] =>
      if decide (token = "IN" ∨ token = "IN_DELETE") then
        if decide (uri ∉ outputs) then ({[uri]} ∪ inputs, outputs)
        else (inputs, outputs)
      else if decide (token = "OUT") then (inputs, {[uri]} ∪ outputs)
      else
        let inputs' := if decide (uri ∉ outputs) then {[uri]} ∪ inputs else inputs in
        (inputs', {[uri]} ∪ outputs)
  | _ => st
  end.

(** The loop: the sets after all the lines of the log. *)
Definition classify (dp_log : list string) : access_sets :=
  foldl classify_line (∅, ∅) dp_log.

(** The loop [for item in data_list] that appends to [data_list] and removes
    from it: the iterator is at index [k] of the current list, and stops
    when [k] is past its end.  The list keeps its length, so the body runs
    at most [length data_list] times; [bound] counts the turns left. *)
Fixpoint fix_dir_refs_loop (hostname : string) (bound k : nat)
    (data_list : list string) : res (list string) :=
  match data_list !! k with
  | None => Ok data_list
  | Some item =>
      match bound with
      | 0 => Raise LoopBound
      | S bound' =>
          url_parts ← urlsplit item;
          if decide (scheme url_parts = "dir") then
            let appended :=
              data_list ++ ["dir://" +:+ hostname +:+ path url_parts +:+ "/"] in
            removed ← list_remove item appended;
            fix_dir_refs_loop hostname bound' (S k) removed
          else Ok data_list
      end
  end.

(** One turn of the loop over [[l_ins, l_outs]]. *)
Definition fix_dir_refs (hostname : string) (data_list : list string)
    : res (list string) :=
  fixed ← fix_dir_refs_loop hostname (length data_list) 0 data_list;
  Ok (py_sort fixed).

Definition process_accessed_files (hostname : string) (dp_log : list string)
    : res (list string * list string) :=
  let '(inputs, outputs) := classify dp_log in
  let l_ins := py_sort (elements inputs) in
  let l_outs := py_sort (elements outputs) in
  l_ins' ← fix_dir_refs hostname l_ins;
  l_outs' ← fix_dir_refs hostname l_outs;
  Ok (l_ins', l_outs').

(** ** [get_common_paths] *)

(** The first loop: the paths of the leading directory entries, and the part
    of [url_list] that begins at the first other entry ([url_list[i:]], empty
    when [file_found] stays false). *)
Fixpoint leading_dirs (url_list list_common_paths : list string)
    : res (list string * list string) :=
  match url_list with
  | [] => Ok (list_common_paths, [])
  | item :: rest =>
      url_parts ← urlsplit item;
      if decide (scheme url_parts = "dir") then
        leading_dirs rest (append_new (path url_parts) list_common_paths)
      else Ok (list_common_paths, url_list)
  end.

(** The loop over [url_files_list]. *)
Fixpoint common_paths_loop (url_files_list : list string) (common_path : string)
    (list_common_paths : list string) : res (string * list string) :=
  match url_files_list with
  | [] => Ok (common_path, list_common_paths)
  | item :: rest =>
      url_parts ← urlsplit item;
      tmp ← commonpath (path url_parts) common_path;
      if decide (tmp ≠ "/") then common_paths_loop rest tmp list_common_paths
      else
        let list_common_paths' := append_new common_path list_common_paths in
        common_path' ← parent_dir (path url_parts);
        common_paths_loop rest common_path' list_common_paths'
  end.

(** The last loop, [for item in list_common_paths], which appends to the
    list and removes from it while it iterates: as [fix_dir_refs_loop]. *)
Fixpoint end_slash_loop (bound k : nat) (list_common_paths : list string)
    : res (list string) :=
  match list_common_paths !! k with
  | None => Ok list_common_paths
  | Some item =>
      match bound with
      | 0 => Raise LoopBound
      | S bound' =>
          c ← last_char item;
          if decide (c ≠ "/"%char) then
            removed ← list_remove item (list_common_paths ++ [item +:+ "/"]);
            end_slash_loop bound' (S k) removed
          else end_slash_loop bound' (S k) list_common_paths
      end
  end.

Definition get_common_paths (url_list : list string) : res (list string) :=
  match url_list with
  | [] => Ok []
  | _ =>
      '(list_common_paths, from_file) ← leading_dirs url_list [];
      match from_file with
      | [] => Ok list_common_paths
      | first_file :: url_files_list =>
          url_parts ← urlsplit first_file;
          common_path ← parent_dir (path url_parts);
          '(common_path, list_common_paths) ←
            common_paths_loop url_files_list common_path list_common_paths;
          let list_common_paths := append_new common_path list_common_paths in
          end_slash_loop (length list_common_paths) 0 list_common_paths
      end
  end.

(** ** [add_manual_datasets] *)

(** What the function asks the file system, on a path as the user declared
    it: [Path(item).expanduser().exists()], then
    [str(Path(item).expanduser().resolve())], and on the resolved path
    [os.path.isfile] and [os.path.isdir]. *)
Record filesystem : Type := mkFs {
  fs_exists : string → bool;
  fs_resolve : string → string;
  fs_isfile : string → bool;
  fs_isdir : string → bool
}.

(** The loop over [data_entities_list], the entities the user declared under
    [yaml_term]. *)
Fixpoint add_declared (fs : filesystem) (hostname : string)
    (data_entities_list data_list : list string) : res (list string) :=
  match data_entities_list with
  | [] => Ok data_list
  | item :: rest =>
      if negb (fs_exists fs item) then add_declared fs hostname rest data_list
      else
        let resolved_data_entity := fs_resolve fs item in
        new_data_entity ←
          (if fs_isfile fs resolved_data_entity then
             Ok ("file://" +:+ hostname +:+ resolved_data_entity)
           else if fs_isdir fs resolved_data_entity then
             Ok ("dir://" +:+ hostname +:+ resolved_data_entity +:+ "/")
           else Raise FileNotFoundError);
        add_declared fs hostname rest (append_new new_data_entity data_list)
  end.

(** [any(p.startswith(dir_item) for dir_item in directories_list)] *)
Definition under_any (p : string) (directories_list : list string) : bool :=
  existsb (startswith p) directories_list.

(** [any(p != dir_path and p.startswith(dir_path) for dir_path in directories_list)] *)
Definition strictly_under_any (p : string) (directories_list : list string) : bool :=
  existsb (λ dir_path, bool_decide (p ≠ dir_path) && startswith p dir_path)
          directories_list.

(** The loop that collects [directories_list] from the leading directory
    entries; the boolean is [file_found]. *)
Fixpoint topmost_dirs (data_list directories_list : list string)
    : res (list string * bool) :=
  match data_list with
  | [] => Ok (directories_list, false)
  | item :: rest =>
      url_parts ← urlsplit item;
      if decide (scheme url_parts = "dir") then
        let p := path url_parts in
        if bool_decide (p ∉ directories_list) && negb (under_any p directories_list)
        then topmost_dirs rest (directories_list ++ [p])
        else topmost_dirs rest directories_list
      else Ok (directories_list, true)
  end.

(** The loop over [data_list_copy], which removes from [data_list]. *)
Fixpoint erase_nested (data_list_copy directories_list data_list : list string)
    : res (list string) :=
  match data_list_copy with
  | [] => Ok data_list
  | item :: rest =>
      url_parts ← urlsplit item;
      if strictly_under_any (path url_parts) directories_list then
        data_list' ← list_remove item data_list;
        erase_nested rest directories_list data_list'
      else erase_nested rest directories_list data_list
  end.

(** The second half of the function, from the sorted list on. *)
Definition erase_files_in_dirs (data_list : list string) : res (list string) :=
  '(directories_list, file_found) ← topmost_dirs data_list [];
  if (file_found : bool) then erase_nested data_list directories_list data_list
  else Ok data_list.

Definition add_manual_datasets (fs : filesystem) (hostname : string)
    (data_entities_list data_list : list string) : res (list string) :=
  merged ← add_declared fs hostname data_entities_list data_list;
  erase_files_in_dirs (py_sort merged).

(** ** [fix_in_files_at_out_dirs] *)

(** The first loop: the paths of the leading directory entries of
    [outputs_list]. *)
Fixpoint output_dirs (outputs_list directories_list : list string)
    : res (list string) :=
  match outputs_list with
  | [] => Ok directories_list
  | item :: rest =>
      url_parts ← urlsplit item;
      if decide (scheme url_parts = "dir") then
        output_dirs rest (append_new (path url_parts) directories_list)
      else Ok directories_list
  end.

(** The second loop: [inputs_list[i:]] for the index [i] of the first entry
    that is not a directory, and the empty list when [file_found] stays
    false. *)
Fixpoint input_files (inputs_list : list string) : res (list string) :=
  match inputs_list with
  | [] => Ok []
  | item :: rest =>
      url_parts ← urlsplit item;
      if decide (scheme url_parts = "dir") then input_files rest
      else Ok inputs_list
  end.

(** The loop over [url_files_list], which removes from [inputs_list]. *)
Fixpoint remove_under (url_files_list directories_list inputs_list : list string)
    : res (list string) :=
  match url_files_list with
  | [] => Ok inputs_list
  | item :: rest =>
      url_parts ← urlsplit item;
      if under_any (path url_parts) directories_list then
        inputs_list' ← list_remove item inputs_list;
        remove_under rest directories_list inputs_list'
      else remove_under rest directories_list inputs_list
  end.

(** The content of [inputs_list] when the function returns. *)
Definition fixed_inputs (inputs_list outputs_list : list string)
    : res (list string) :=
  directories_list ← output_dirs outputs_list [];
  url_files_list ← input_files inputs_list;
  match url_files_list with
  | [] => Ok inputs_list
  | _ => remove_under url_files_list directories_list inputs_list
  end.

(** The function on list values: the pair it returns. *)
Definition fix_in_files_at_out_dirs (inputs_list outputs_list : list string)
    : res (list string * list string) :=
  inputs_list' ← fixed_inputs inputs_list outputs_list;
  Ok (inputs_list', outputs_list).

(** The function on list objects.  The two arguments are references into a
    store of lists; [inputs_list.remove] writes the store at the first
    reference, and the function returns the two references it was given. *)
Definition ref : Set := nat.

Definition fix_in_files_at_out_dirs_ref (inputs_list outputs_list : ref)
    (store : gmap ref (list string)) : res (gmap ref (list string) * (ref * ref)) :=
  inputs_list' ← fixed_inputs (store !!! inputs_list) (store !!! outputs_list);
  Ok (<[inputs_list := inputs_list']> store, (inputs_list, outputs_list)).

(** ** The paths of the files in the crate *)

(** [s[n:]] *)
Fixpoint string_drop (n : nat) (s : string) : string :=
  match n, s with
  | 0, _ => s
  | S n', String _ s' => string_drop n' s'
  | S _, EmptyString => EmptyString
  end.

(** [Path(p).parts]: the root, when the path has one, and the components. *)
Definition path_parts (p : string) : list string :=
  match path_root p with
  | EmptyString => components p
  | root => root :: components p
  end.

(** [Path(p).parts[-1]], which raises [IndexError] when the path has no
    part, as the empty path and "." do. *)
Definition last_part (p : string) : res string :=
  match last (path_parts p) with
  | Some part => Ok part
  | None => Raise IndexError
  end.

(** [Path(p).name]: the last component, and the empty string when the path
    has none. *)
Definition path_name (p : string) : string :=
  default EmptyString (last (components p)).

(** The value of [crate_path] in [add_dataset_file_to_crate], for a [file]
    URL with the path [path] added to the crate ([persist] is true): the
    loop [for i, item in enumerate(common_paths)] stops at the first common
    path the path of the file begins with; [crate_path] stays empty when
    there is none.  [cwd] is what [os.getcwd()] returns. *)
Fixpoint crate_path (cwd path : string) (common_paths : list string)
    : res string :=
  match common_paths with
  | [] => Ok EmptyString
  | item :: rest =>
      if startswith path item then
        let cwd_endslash := cwd +:+ "/" in
        if decide (cwd_endslash = item) then
          Ok ("dataset/" +:+ string_drop (String.length item) path)
        else
          part ← last_part item;
          Ok ("dataset/" +:+ part +:+ "/" +:+ string_drop (String.length item) path)
      else crate_path cwd path rest
  end.

(** The value of [path_in_crate] in [add_file_to_crate]: the place of the
    source file [file_name] under [application_sources/].  [in_sources_dir]
    is the declared directory the file was found in, or the empty string
    for a file declared by itself. *)
Definition path_in_crate (file_name in_sources_dir : string) : res string :=
  if decide (in_sources_dir ≠ EmptyString) then
    new_root ← parent_dir in_sources_dir;
    let final_name := string_drop (String.length new_root + 1) file_name in
    Ok ("application_sources/" +:+ final_name)
  else Ok ("application_sources/" +:+ path_name file_name).

(** ** [root_entity] *)

(** A mapping of the YAML file whose values are strings, as the sections
    [COMPSs Workflow Information] and the entries of [Authors] are in a file
    that is filled in.  A YAML value can also be empty ([None] in Python), a
    number or a list, and an entry of [Authors] a scalar: on such a file the
    concatenation of [mailto:] with the e-mail address, and the lookup of
    [orcid] in the author, raise [TypeError].  These files are not values
    of this type, so the model says nothing about them. *)
Definition yaml_map : Type := gmap string string.

(** The section [Authors]: a list of authors, or one author. *)
Inductive yaml_authors : Type :=
  | AuthorsList (authors : list yaml_map)
  | AuthorsOne (author : yaml_map).

(** The content of the YAML file, as far as [root_entity] reads it: the
    section [COMPSs Workflow Information] and the section [Authors], each
    of them when the file has it. *)
Record yaml_content : Type := mkYaml {
  yaml_workflow : option yaml_map;
  yaml_authors_section : option yaml_authors
}.

(** [KeyError], with the key that was not found. *)
Inductive key_res (A : Type) : Type :=
  | Found (a : A)
  | KeyError (key : string).
Arguments Found {A} a.
Arguments KeyError {A} key.

#[global] Instance key_res_ret : MRet key_res := @Found.
#[global] Instance key_res_bind : MBind key_res := fun A B f m =>
  match m with
  | Found a => f a
  | KeyError key => KeyError key
  end.

(** [d[key]] *)
Definition get_key (d : yaml_map) (key : string) : key_res string :=
  match d !! key with
  | Some v => Found v
  | None => KeyError key
  end.

(** The contextual entities the function adds to the crate, each with its
    identifier first: an organisation with its name; a contact point with
    the e-mail address and the ORCID of the author; a person with the name
    and, when the author has them, the identifiers of the affiliation and
    of the contact point. *)
Inductive entity : Type :=
  | Organization (id name : string)
  | ContactPoint (id email url : string)
  | Person (id name : string) (affiliation contactPoint : option string).

(** The crate, as far as the function writes it: the properties of the
    root data set it sets, unset at first, and the entities it adds, in the
    order of the calls of [compss_crate.add].  A reference [{"@id": x}] is
    the identifier [x]. *)
Record crate : Type := mkCrate {
  crate_name : option string;
  crate_description : option string;
  crate_license : option string;
  crate_creator : option (list string);
  crate_publisher : option (list string);
  crate_added : list entity
}.

Definition crate_add (e : entity) (compss_crate : crate) : crate :=
  mkCrate (crate_name compss_crate) (crate_description compss_crate)
          (crate_license compss_crate) (crate_creator compss_crate)
          (crate_publisher compss_crate) (crate_added compss_crate ++ [e]).

(** One turn of the loop over [authors_info]: the state is the crate with
    [author_list] and [org_list]. *)
Definition add_author (st : crate * list string * list string) (author : yaml_map)
    : key_res (crate * list string * list string) :=
  let '(compss_crate, author_list, org_list) := st in
  orcid ← get_key author "orcid";
  let author_list := append_new orcid author_list in
  name ← get_key author "name";
  '(compss_crate, org_list, affiliation) ←
    match author !! "ror" with
    | Some ror =>
        let org_list := append_new ror org_list in
        organisation_name ← get_key author "organisation_name";
        Found (crate_add (Organization ror organisation_name) compss_crate,
               org_list, Some ror)
    | None => Found (compss_crate, org_list, None)
    end;
  let '(compss_crate, contactPoint) :=
    match author !! "e-mail" with
    | Some email =>
        (crate_add (ContactPoint ("mailto:" +:+ email) email orcid) compss_crate,
         Some ("mailto:" +:+ email))
    | None => (compss_crate, None)
    end in
  Found (crate_add (Person orcid name affiliation contactPoint) compss_crate,
         author_list, org_list).

(** The loop over [authors_info]. *)
Fixpoint add_authors (authors_info : list yaml_map)
    (st : crate * list string * list string)
    : key_res (crate * list string * list string) :=
  match authors_info with
  | [] => Found st
  | author :: rest => st' ← add_author st author; add_authors rest st'
  end.

(** The function: the crate when it returns, and the pair it returns. *)
Definition root_entity (compss_crate : crate) (yaml : yaml_content)
    : key_res (crate * (yaml_map * list string)) :=
  compss_wf_info ←
    match yaml_workflow yaml with
    | Some section => Found section
    | None => KeyError "COMPSs Workflow Information"
    end;
  let authors_info :=
    match yaml_authors_section yaml with
    | Some (AuthorsList authors) => authors
    | Some (AuthorsOne author) => [author]
    | None => []
    end in
  name ← get_key compss_wf_info "name";
  let compss_crate :=
    mkCrate (Some name)
      (match compss_wf_info !! "description" with
       | Some description => Some description
       | None => crate_description compss_crate
       end)
      (match compss_wf_info !! "license" with
       | Some license => Some license
       | None => crate_license compss_crate
       end)
      (crate_creator compss_crate) (crate_publisher compss_crate)
      (crate_added compss_crate) in
  '(compss_crate, author_list, org_list) ←
    add_authors authors_info (compss_crate, [], []);
  let crate_author_list := author_list in
  let creator :=
    match crate_author_list with
    | [] => crate_creator compss_crate
    | _ => Some crate_author_list
    end in
  let crate_org_list := org_list in
  let publisher :=
    match crate_org_list with
    | [] => match crate_author_list with
            | [] => crate_publisher compss_crate
            | _ => Some crate_author_list
            end
    | _ => Some crate_org_list
    end in
  Found (mkCrate (crate_name compss_crate) (crate_description compss_crate)
           (crate_license compss_crate) creator publisher
           (crate_added compss_crate),
         (compss_wf_info, crate_author_list)).
(** * Specification vocabulary *)

(** The direction tokens the classifier tells apart. *)
Definition in_token (token : string) : Prop := token = "IN" ∨ token = "IN_DELETE".
Definition inout_token (token : string) : Prop := ¬ in_token token ∧ token ≠ "OUT".

(** The record a line of the log holds, when it holds one. *)
Definition record_of (line : string) : option (string * string) :=
  match split " "%char (rstrip line) with
  | [uri; token] => Some (uri, token)
  | _ => None
  end.

Definition not_space (c : ascii) : bool := negb (py_isspace c).

(** The record on line [i] of the log. *)
Definition record_at (dp_log : list string) (i : nat) : option (string * string) :=
  dp_log !! i ≫= record_of.

(** The end of a line. *)
Definition newline : string := String (ascii_of_nat 10) EmptyString.

(** What [urlsplit] says of a URL: whether it parses, whether its scheme is
    [dir], and its path. *)
Definition parses (url : string) : bool :=
  match urlsplit url with Ok _ => true | Raise _ => false end.

Definition is_dir_url (url : string) : bool :=
  match urlsplit url with
  | Ok url_parts => bool_decide (scheme url_parts = "dir")
  | Raise _ => false
  end.

Definition url_path (url : string) : string :=
  match urlsplit url with
  | Ok url_parts => path url_parts
  | Raise _ => EmptyString
  end.

(** [s] ends with a slash. *)
Definition ends_with_slash (s : string) : bool :=
  match last_char s with
  | Ok c => bool_decide (c = "/"%char)
  | Raise _ => false
  end.

(** A file or directory name: not empty, not ".", without a slash. *)
Definition is_name (c : string) : bool :=
  is_component c && negb (contains "/"%char c).

(** The absolute path with the components [cs], as [pathlib] prints it:
    "/" for no component, "/a/b" for [a; b]. *)
Definition abs_path (cs : list string) : string := "/" +:+ String.concat "/" cs.

(** The same directory with its final slash: "/" and "/a/b/". *)
Fixpoint dir_prefix (cs : list string) : string :=
  match cs with
  | [] => "/"
  | c :: cs' => "/" +:+ c +:+ dir_prefix cs'
  end.

(** [url] is a file of the directory with the components [cs]: it is not a
    [dir] URL and its path is the directory followed by a name. *)
Definition file_in_dir (cs : list string) (url : string) : Prop :=
  ∃ url_parts name,
    urlsplit url = Ok url_parts ∧ scheme url_parts ≠ "dir"
    ∧ is_name name = true ∧ path url_parts = dir_prefix cs +:+ name.

(** The list from its first entry that is not a [dir] URL on. *)
Fixpoint after_dirs (l : list string) : list string :=
  match l with
  | [] => []
  | url :: l' => if is_dir_url url then after_dirs l' else l
  end.

(** The leading directories of the list: its [dir] URLs that come before
    its first entry that is not one. *)
Fixpoint leading_dir_urls (l : list string) : list string :=
  match l with
  | [] => []
  | url :: l' => if is_dir_url url then url :: leading_dir_urls l' else []
  end.

(** The [dir] URLs of the list come before all its other entries. *)
Definition dirs_first (l : list string) : bool :=
  forallb (λ url, negb (is_dir_url url)) (after_dirs l).

(** The path of [url] begins with the path of a [dir] URL of
    [outputs_list]. *)
Definition under_output_dir (url : string) (outputs_list : list string) : Prop :=
  ∃ out, out ∈ outputs_list ∧ is_dir_url out = true
         ∧ startswith (url_path url) (url_path out) = true.

(** The shape the loops of [add_manual_datasets] and of
    [fix_in_files_at_out_dirs] share: for every item of [items] whose path
    satisfies [P], one removal of the item from the list. *)
Fixpoint remove_matching (P : string → bool) (items l : list string)
    : res (list string) :=
  match items with
  | [] => Ok l
  | item :: rest =>
      url_parts ← urlsplit item;
      if P (path url_parts) then
        l' ← list_remove item l;
        remove_matching P rest l'
      else remove_matching P rest l
  end.

(** A file system on which no declared path exists. *)
Definition empty_fs : filesystem :=
  mkFs (λ _, false) (λ p, p) (λ _, false) (λ _, false).

(** A file system with the one directory [/data]. *)
Definition data_fs : filesystem :=
  mkFs (λ p, bool_decide (p = "/data")) (λ p, p) (λ _, false)
       (λ p, bool_decide (p = "/data")).

(** The entries of the reconciler's list that stay: those whose path is not
    a strict extension of a collected directory. *)
Definition not_nested (directories_list : list string) (url : string) : bool :=
  negb (strictly_under_any (url_path url) directories_list).

(** The path of [url] satisfies [P]. *)
Definition path_matches (P : string → bool) (url : string) : bool := P (url_path url).

(** * Further vocabulary *)

(** [url] is a file with a normal absolute path: it is not a [dir] URL, and
    its path is a slash followed by one name or more, joined by slashes. *)
Definition normal_file (url : string) : Prop :=
  ∃ url_parts cs,
    urlsplit url = Ok url_parts ∧ scheme url_parts ≠ "dir"
    ∧ cs ≠ [] ∧ Forall (λ c, is_name c = true) cs
    ∧ path url_parts = abs_path cs.

(** The path of [url] is [p] or lies below it: the components of [p] begin
    the components of the path. *)
Definition lies_under (url p : string) : Prop :=
  components p `prefix_of` components (url_path url).

(** The components of the directory of the file [url]. *)
Definition dir_of (url : string) : list string :=
  removelast (components (url_path url)).

(** [p] with a slash added at its end, unless it ends with one. *)
Definition with_end_slash (p : string) : string :=
  if ends_with_slash p then p else p +:+ "/".

(** The URL the reconciler builds for the declared path [item]: a [file]
    URL when the path resolves to a file, and otherwise, for a directory,
    a [dir] URL with a final slash. *)
Definition declared_url (fs : filesystem) (hostname item : string) : string :=
  let resolved_data_entity := fs_resolve fs item in
  if fs_isfile fs resolved_data_entity
  then "file://" +:+ hostname +:+ resolved_data_entity
  else "dir://" +:+ hostname +:+ resolved_data_entity +:+ "/".

(** The declared path resolves to a file or to a directory. *)
Definition file_or_dir (fs : filesystem) (item : string) : bool :=
  fs_isfile fs (fs_resolve fs item) || fs_isdir fs (fs_resolve fs item).

(** A file system with the directory [/data], the file [/data/x] and the
    link [/x] to that file. *)
Definition link_fs : filesystem :=
  mkFs (λ p, bool_decide (p = "/data") || bool_decide (p = "/data/x")
             || bool_decide (p = "/x"))
       (λ p, if bool_decide (p = "/x") then "/data/x" else p)
       (λ p, bool_decide (p = "/data/x"))
       (λ p, bool_decide (p = "/data")).

(** A URL as the runtime writes them: it parses and begins with [dir://]
    or with [file://]. *)
Definition runtime_url (url : string) : Prop :=
  parses url = true
  ∧ (startswith url "dir://" = true ∨ startswith url "file://" = true).

(** The path of [url] begins with the path of a [dir] URL of
    [outputs_list], as a boolean. *)
Definition in_output_dir (outputs_list : list string) (url : string) : bool :=
  existsb (λ out, is_dir_url out && startswith (url_path url) (url_path out))
          outputs_list.

(** The entries of the inputs the fix-up keeps: the directories, and the
    entries whose path begins with the path of no directory of the
    outputs. *)
Definition kept_input (outputs_list : list string) (url : string) : bool :=
  is_dir_url url || negb (in_output_dir outputs_list url).

(** The folder of the crate, under [dataset/], for the files of the common
    directory with the components [d]: none for the working directory, and
    otherwise a folder with the name of the directory. *)
Definition crate_folder (cwd : string) (d : list string) : string :=
  if decide (cwd +:+ "/" = dir_prefix d) then EmptyString
  else default EmptyString (last d) +:+ "/".

(** A host name without square brackets. *)
Definition plain_hostname (hostname : string) : Prop :=
  contains "["%char hostname = false ∧ contains "]"%char hostname = false.

(** The authors the function goes through. *)
Definition authors_of (yaml : yaml_content) : list yaml_map :=
  match yaml_authors_section yaml with
  | Some (AuthorsList authors) => authors
  | Some (AuthorsOne author) => [author]
  | None => []
  end.

(** An author with the keys the function needs: [orcid] and [name], and
    [organisation_name] when the author has [ror]. *)
Definition complete_author (author : yaml_map) : Prop :=
  is_Some (author !! "orcid") ∧ is_Some (author !! "name")
  ∧ (is_Some (author !! "ror") → is_Some (author !! "organisation_name")).

(** A YAML file with the keys the function needs. *)
Definition complete_yaml (yaml : yaml_content) : Prop :=
  (∃ compss_wf_info,
     yaml_workflow yaml = Some compss_wf_info ∧ is_Some (compss_wf_info !! "name"))
  ∧ Forall complete_author (authors_of yaml).

(** The properties of the root data set. *)
Definition root_properties (compss_crate : crate) :=
  (crate_name compss_crate, crate_description compss_crate,
   crate_license compss_crate, crate_creator compss_crate,
   crate_publisher compss_crate).

(** The crate before the function runs. *)
Definition new_crate : crate := mkCrate None None None None None [].

(** A YAML file with two authors, the first with an organisation and an
    e-mail address, listed a second time at the end. *)
Definition ann : yaml_map :=
  {[ "name" := "Ann"; "orcid" := "https://orcid.org/1"; "e-mail" := "ann@bsc.es";
     "ror" := "https://ror.org/1"; "organisation_name" := "BSC" ]}.
Definition bob : yaml_map := {[ "name" := "Bob"; "orcid" := "https://orcid.org/2" ]}.
Definition app_info : yaml_map := {[ "name" := "App"; "license" := "Apache-2.0" ]}.
Definition app_yaml : yaml_content :=
  mkYaml (Some app_info) (Some (AuthorsList [ann; bob; ann])).

(** The crate [root_entity] makes of that file. *)
Definition app_crate : crate :=
  mkCrate (Some "App") None (Some "Apache-2.0")
    (Some ["https://orcid.org/1"; "https://orcid.org/2"])
    (Some ["https://ror.org/1"])
    [Organization "https://ror.org/1" "BSC";
     ContactPoint "mailto:ann@bsc.es" "ann@bsc.es" "https://orcid.org/1";
     Person "https://orcid.org/1" "Ann" (Some "https://ror.org/1")
            (Some "mailto:ann@bsc.es");
     Person "https://orcid.org/2" "Bob" None None;
     Organization "https://ror.org/1" "BSC";
     ContactPoint "mailto:ann@bsc.es" "ann@bsc.es" "https://orcid.org/1";
     Person "https://orcid.org/1" "Ann" (Some "https://ror.org/1")
            (Some "mailto:ann@bsc.es")].
(** * Strings *)

Section strings.
Implicit Types (s t : string) (c : ascii).

Lemma app_nil_l s : "" +:+ s = s.
Proof. reflexivity. Qed.

Lemma app_cons c s t : String c s +:+ t = String c (s +:+ t).
Proof. reflexivity. Qed.

Lemma app_nil_r s : s +:+ "" = s.
Proof. induction s as [|c s IH]; [done|]. by rewrite app_cons, IH. Qed.

Lemma app_assoc s t u : (s +:+ t) +:+ u = s +:+ t +:+ u.
Proof. induction s as [|c s IH]; [done|]. by rewrite !app_cons, IH. Qed.

Lemma app_eq_nil s t : s +:+ t = "" → s = "" ∧ t = "".
Proof. destruct s; [done|]. by rewrite app_cons. Qed.

Lemma rstrip_spaces s : string_forallb py_isspace s = true → rstrip s = "".
Proof.
  induction s as [|c s IH]; [done|]. simpl. intros [Hc Hs]%andb_true_iff.
  rewrite (IH Hs), Hc. done.
Qed.

Lemma rstrip_no_space t : string_forallb not_space t = true → rstrip t = t.
Proof.
  induction t as [|c t IH]; [done|]. simpl. intros [Hc Ht]%andb_true_iff.
  rewrite (IH Ht). unfold not_space in Hc. apply negb_true_iff in Hc.
  by rewrite Hc.
Qed.

Lemma rstrip_app_spaces s ws :
  string_forallb py_isspace ws = true → rstrip (s +:+ ws) = rstrip s.
Proof.
  intros Hws. induction s as [|c s IH]; [by apply rstrip_spaces|].
  rewrite app_cons. simpl. by rewrite IH.
Qed.

Lemma rstrip_app_no_space s t :
  t ≠ "" → string_forallb not_space t = true → rstrip (s +:+ t) = s +:+ t.
Proof.
  intros Ht Hns. induction s as [|c s IH]; [by apply rstrip_no_space|].
  rewrite app_cons. simpl. rewrite IH.
  rewrite bool_decide_eq_false_2, andb_false_r; [done|].
  intros [_ ?]%app_eq_nil. done.
Qed.

Lemma split_no_sep sep s : contains sep s = false → split sep s = [s].
Proof.
  induction s as [|c s IH]; [done|]. simpl.
  intros [Hc Hs]%orb_false_iff. apply bool_decide_eq_false in Hc.
  rewrite decide_False by done. by rewrite (IH Hs).
Qed.

Lemma split_app_sep sep s t :
  contains sep s = false → split sep (s +:+ String sep t) = s :: split sep t.
Proof.
  induction s as [|c s IH]; simpl.
  - intros _. by rewrite decide_True.
  - intros [Hc Hs]%orb_false_iff. apply bool_decide_eq_false in Hc.
    rewrite decide_False by done. by rewrite (IH Hs).
Qed.

Lemma no_space_contains t :
  string_forallb not_space t = true → contains " "%char t = false.
Proof.
  induction t as [|c t IH]; [done|]. simpl. intros [Hc Ht]%andb_true_iff.
  rewrite (IH Ht), orb_false_r. apply bool_decide_eq_false. intros ->. discriminate Hc.
Qed.

(** A line [<uri> <token>] followed by white space, such as the end of the
    line, has the two fields [uri] and [token]. *)
Lemma split_record uri token ws :
  contains " "%char uri = false →
  token ≠ "" → string_forallb not_space token = true →
  string_forallb py_isspace ws = true →
  split " "%char (rstrip (uri +:+ " " +:+ token +:+ ws)) = [uri; token].
Proof.
  intros Huri Hne Htok Hws.
  rewrite <- !app_assoc. rewrite rstrip_app_spaces by done.
  rewrite rstrip_app_no_space by done. rewrite app_assoc.
  change (" " +:+ token) with (String " "%char token).
  rewrite split_app_sep by done.
  by rewrite split_no_sep by by apply no_space_contains.
Qed.

Lemma last_char_cons c s : s ≠ "" → last_char (String c s) = last_char s.
Proof. by destruct s. Qed.

Lemma last_char_Raise s e : last_char s = Raise e → e = IndexError ∧ s = "".
Proof.
  induction s as [|c s IH]; [by intros [= <-]|].
  destruct s as [|d s]; [done|].
  rewrite last_char_cons by discriminate. intros [_ ?]%IH. done.
Qed.

Lemma last_char_app s c : last_char (s +:+ String c "") = Ok c.
Proof.
  induction s as [|d s IH]; [done|].
  rewrite app_cons, last_char_cons; [done|]. by destruct s.
Qed.

Lemma last_char_app_r s t : t ≠ "" → last_char (s +:+ t) = last_char t.
Proof.
  intros Ht. induction s as [|d s IH]; [done|].
  rewrite app_cons, last_char_cons; [done|]. intros [_ ?]%app_eq_nil. done.
Qed.
(** [startswith] is the order of prefixes. *)
Lemma prefix_inv (p x : string) : String.prefix p x = true → ∃ s, x = p +:+ s.
Proof.
  revert x. induction p as [|a p IH]; intros x.
  { exists x. by rewrite app_nil_l. }
  destruct x as [|b x]; [done|].
  change (String.prefix (String a p) (String b x))
    with (if Ascii.ascii_dec a b then String.prefix p x else false).
  destruct (Ascii.ascii_dec a b) as [<-|]; [|done].
  intros (s & ->)%IH. exists s. by rewrite app_cons.
Qed.

Lemma startswith_app s t : startswith (s +:+ t) s = true.
Proof.
  unfold startswith. induction s as [|a s IH].
  { rewrite app_nil_l. by destruct t. }
  rewrite app_cons.
  change (String.prefix (String a s) (String a (s +:+ t)))
    with (if Ascii.ascii_dec a a then String.prefix s (s +:+ t) else false).
  by destruct (Ascii.ascii_dec a a).
Qed.




End strings.

(** * The error monad and the list operations *)

Section res.
Context {A B : Type}.
Implicit Types (m : res A) (f : A → res B).

Lemma bind_Ok a f : Ok a ≫= f = f a.
Proof. reflexivity. Qed.

Lemma bind_Raise e f : Raise e ≫= f = Raise e.
Proof. reflexivity. Qed.

Lemma bind_Ok_inv m f b :
  m ≫= f = Ok b → ∃ a, m = Ok a ∧ f a = Ok b.
Proof. destruct m as [a|e]; [|done]. intros Hf. by exists a. Qed.

Lemma bind_Raise_inv m f e :
  m ≫= f = Raise e → m = Raise e ∨ ∃ a, m = Ok a ∧ f a = Raise e.
Proof.
  destruct m as [a|e']; simpl; [|intros [= ->]; by left].
  intros Hf. right. by exists a.
Qed.
End res.

(** Case analysis on the first computation of a sequence. *)
Ltac res_step :=
  match goal with
  | |- context [ ?m ≫= _ ] =>
      let E := fresh "E" in destruct m eqn:E; rewrite ?bind_Ok, ?bind_Raise
  end.

Section list_ops.
Implicit Types (x y : string) (l : list string).

Lemma list_remove_elem x l : x ∈ l → ∃ l', list_remove x l = Ok l'.
Proof.
  induction l as [|y l IH]; [by intros ?%elem_of_nil|].
  intros Hx. simpl. case_decide; [by eauto|].
  apply elem_of_cons in Hx as [->|Hx]; [done|].
  destruct (IH Hx) as [l' ->]. by eauto.
Qed.

Lemma list_remove_Ok x l l' :
  list_remove x l = Ok l' →
  ∃ l1 l2, l = l1 ++ x :: l2 ∧ l' = l1 ++ l2 ∧ x ∉ l1.
Proof.
  revert l'. induction l as [|y l IH]; [done|]. intros l'. simpl.
  case_decide as Hy.
  - intros [= <-]. subst y. exists [], l. split_and!; [done..|].
    apply not_elem_of_nil.
  - intros (l'' & Hl'' & [= <-])%bind_Ok_inv.
    destruct (IH _ Hl'') as (l1 & l2 & -> & -> & Hx).
    exists (y :: l1), l2. split_and!; [done..|].
    rewrite elem_of_cons. naive_solver.
Qed.

Lemma list_remove_Raise x l e : list_remove x l = Raise e → e = ValueError ∧ x ∉ l.
Proof.
  induction l as [|y l IH]; simpl.
  - intros [= <-]. split; [done|]. apply not_elem_of_nil.
  - case_decide; [done|].
    intros [Hl|(l' & _ & ?)]%bind_Raise_inv; [|done].
    destruct (IH Hl) as [-> Hx]. split; [done|].
    rewrite elem_of_cons. naive_solver.
Qed.

Lemma list_remove_length x l l' : list_remove x l = Ok l' → length l = S (length l').
Proof.
  intros (l1 & l2 & -> & -> & _)%list_remove_Ok.
  rewrite !length_app. simpl. lia.
Qed.

Lemma list_remove_head x l : list_remove x (x :: l) = Ok l.
Proof. simpl. by rewrite decide_True. Qed.

Lemma list_remove_app_notin x l1 l2 :
  x ∉ l1 → list_remove x (l1 ++ l2) = (l2' ← list_remove x l2; Ok (l1 ++ l2')).
Proof.
  induction l1 as [|y l1 IH]; simpl.
  - intros _. by destruct (list_remove x l2).
  - intros [Hy Hx]%not_elem_of_cons. rewrite decide_False by done.
    rewrite (IH Hx). by destruct (list_remove x l2).
Qed.

Lemma list_remove_sublist x l l' : list_remove x l = Ok l' → l' `sublist_of` l.
Proof.
  intros (l1 & l2 & -> & -> & _)%list_remove_Ok.
  apply sublist_app; [done|]. by apply sublist_cons.
Qed.

Lemma append_new_elem x y l : y ∈ append_new x l ↔ y = x ∨ y ∈ l.
Proof.
  unfold append_new. case_decide; [set_solver|].
  rewrite elem_of_app, list_elem_of_singleton. naive_solver.
Qed.

Lemma py_sort_perm l : py_sort l ≡ₚ l.
Proof. apply merge_sort_Permutation. Qed.

Lemma py_sort_sorted l : Sorted String.le (py_sort l).
Proof. apply (Sorted_merge_sort String.le). Qed.

Lemma py_sort_elem x l : x ∈ py_sort l ↔ x ∈ l.
Proof. by rewrite py_sort_perm. Qed.
End list_ops.

(** * The classifier *)

Section classifier.
Implicit Types (inputs outputs : gset string) (uri token line : string).

Lemma classify_line_record inputs outputs line uri token :
  record_of line = Some (uri, token) →
  classify_line (inputs, outputs) line =
    if decide (in_token token) then
      (if decide (uri ∉ outputs) then {[uri]} ∪ inputs else inputs, outputs)
    else if decide (token = "OUT") then (inputs, {[uri]} ∪ outputs)
    else (if decide (uri ∉ outputs) then {[uri]} ∪ inputs else inputs,
          {[uri]} ∪ outputs).
Proof.
  unfold record_of, classify_line, in_token.
  destruct (split _ _) as [|a [|b [|??]]]; try done.
  intros [= -> ->]. repeat case_decide; done.
Qed.

Lemma classify_line_no_record st line :
  record_of line = None → classify_line st line = st.
Proof.
  unfold record_of, classify_line. destruct st as [inputs outputs].
  by destruct (split _ _) as [|a [|b [|??]]].
Qed.

Lemma classify_snoc dp_log line :
  classify (dp_log ++ [line]) = classify_line (classify dp_log) line.
Proof. unfold classify. by rewrite foldl_app. Qed.

Lemma record_at_app_l dp_log line i r :
  record_at dp_log i = Some r → record_at (dp_log ++ [line]) i = Some r.
Proof.
  unfold record_at. destruct (dp_log !! i) as [l|] eqn:Hi; [|done].
  intros Hr. by rewrite (lookup_app_l_Some _ _ _ _ Hi).
Qed.

Lemma record_at_length dp_log line :
  record_at (dp_log ++ [line]) (length dp_log) = record_of line.
Proof. unfold record_at. by rewrite list_lookup_middle. Qed.

Lemma record_at_lt dp_log i r : record_at dp_log i = Some r → i < length dp_log.
Proof.
  unfold record_at. destruct (dp_log !! i) eqn:Hi; [|done].
  intros _. by eapply lookup_lt_Some.
Qed.

(** A URI enters [inputs] only through a record whose token is not OUT. *)
Lemma classify_inputs_record dp_log uri :
  uri ∈ (classify dp_log).1 →
  ∃ i token, record_at dp_log i = Some (uri, token) ∧ token ≠ "OUT".
Proof.
  induction dp_log as [|line dp_log IH] using rev_ind.
  { unfold classify. simpl. set_solver. }
  rewrite classify_snoc. destruct (classify dp_log) as [inputs outputs].
  simpl in IH. intros Hin.
  assert (uri ∈ inputs ∨ ∃ token, record_of line = Some (uri, token) ∧ token ≠ "OUT")
    as [Hold|(token & Hr & Hne)].
  { destruct (record_of line) as [[u t]|] eqn:Hr.
    - rewrite (classify_line_record _ _ _ _ _ Hr) in Hin. unfold in_token in *.
      clear IH. repeat case_decide; simpl in Hin; set_solver.
    - rewrite (classify_line_no_record _ _ Hr) in Hin. by left. }
  - destruct (IH Hold) as (i & token & Hr & Hne).
    exists i, token. split; [|done]. by apply record_at_app_l.
  - exists (length dp_log), token. split; [|done].
    by rewrite record_at_length.
Qed.
End classifier.

(** One turn of the loop on a line that holds a record, from any pair of
    sets. *)
Lemma classify_line_step (inputs outputs : gset string) (line uri token : string) :
  split " "%char (rstrip line) = [uri; token] →
  let st := classify_line (inputs, outputs) line in
  (in_token token →
     (∀ x, x ∈ st.1 ↔ x ∈ inputs ∨ (x = uri ∧ uri ∉ outputs)) ∧ st.2 = outputs) ∧
  (token = "OUT" →
     st.1 = inputs ∧ (∀ x, x ∈ st.2 ↔ x ∈ outputs ∨ x = uri)) ∧
  (inout_token token →
     (∀ x, x ∈ st.1 ↔ x ∈ inputs ∨ (x = uri ∧ uri ∉ outputs)) ∧
     (∀ x, x ∈ st.2 ↔ x ∈ outputs ∨ x = uri)).
Proof.
  intros Hsplit st.
  assert (record_of line = Some (uri, token)) as Hr.
  { unfold record_of. by rewrite Hsplit. }
  subst st. rewrite (classify_line_record _ _ _ _ _ Hr).
  unfold inout_token. split_and!.
  - intros Hin. rewrite decide_True by done.
    case_decide; simpl; set_solver.
  - intros ->. rewrite decide_False by (unfold in_token; intros [|]; done).
    rewrite decide_True by done. simpl. set_solver.
  - intros [Hnin Hnout]. rewrite !decide_False by done.
    case_decide; simpl; set_solver.
Qed.

(** C1.  The classifier starts from two empty sets, and a line that comes
    after the lines [dp_log] and holds a record, that is, whose fields are
    exactly a URI and a token ([split_record] shows that the lines of the form
    [<uri> <token>], with white space such as the end of the line after
    them, are such lines), changes the sets the classifier has built from
    [dp_log] by its token: on IN and IN_DELETE the URI is added to [inputs]
    unless it is in [outputs], and [outputs] stays as it is; on OUT the URI
    is added to [outputs] and [inputs] stays as it is; on every other token
    the URI is added to [inputs] unless it is in [outputs], and it is added
    to [outputs] in any case. *)
Theorem classify_line_policy (dp_log : list string) (line uri token : string) :
  split " "%char (rstrip line) = [uri; token] →
  let before := classify dp_log in
  let after := classify (dp_log ++ [line]) in
  classify [] = (∅, ∅) ∧
  (in_token token →
     (∀ x, x ∈ after.1 ↔ x ∈ before.1 ∨ (x = uri ∧ uri ∉ before.2)) ∧
     after.2 = before.2) ∧
  (token = "OUT" →
     after.1 = before.1 ∧ (∀ x, x ∈ after.2 ↔ x ∈ before.2 ∨ x = uri)) ∧
  (inout_token token →
     (∀ x, x ∈ after.1 ↔ x ∈ before.1 ∨ (x = uri ∧ uri ∉ before.2)) ∧
     (∀ x, x ∈ after.2 ↔ x ∈ before.2 ∨ x = uri)).
Proof.
  intros Hsplit before after. split; [done|].
  subst before after. rewrite classify_snoc.
  destruct (classify dp_log) as [inputs outputs].
  exact (classify_line_step inputs outputs line uri token Hsplit).
Qed.

(** The line [file://host/a IN] after the line [file://host/b OUT]: the URI
    is added to [inputs]. *)
Lemma classify_line_policy_witness :
  let before := classify ["file://host/b OUT" +:+ newline] in
  let after :=
    classify (["file://host/b OUT" +:+ newline] ++ ["file://host/a IN" +:+ newline]) in
  before = (∅, {["file://host/b"]}) ∧
  (∀ x, x ∈ after.1 ↔ x ∈ before.1 ∨ (x = "file://host/a" ∧ "file://host/a" ∉ before.2)) ∧
  after.2 = before.2 ∧
  "file://host/a" ∈ after.1.
Proof.
  intros before after.
  destruct (classify_line_policy ["file://host/b OUT" +:+ newline]
              ("file://host/a IN" +:+ newline) "file://host/a" "IN" eq_refl)
    as (_ & Hin & _).
  destruct (Hin (or_introl eq_refl)) as [Hins Houts].
  assert (before = (∅, {["file://host/b"]})) as Hbefore by (by vm_compute).
  split_and!; [done|done|done|].
  apply Hins. right. split; [done|].
  fold before. rewrite Hbefore. simpl. set_solver.
Defined.

(** The two scenarios of the specification. *)
Example classify_out_then_in :
  classify ["A.txt OUT" +:+ newline; "A.txt IN" +:+ newline] = (∅, {["A.txt"]}).
Proof. by vm_compute. Qed.

Example classify_in_out_in :
  classify ["A.txt IN" +:+ newline; "B.txt OUT" +:+ newline; "A.txt IN" +:+ newline]
  = ({["A.txt"]}, {["B.txt"]}).
Proof. by vm_compute. Qed.

(** C3, as the specification states it, fails: a URI that is read and then
    written is in both sets, and no record of it has an INOUT-like token. *)
Lemma classify_not_exclusive :
  ¬ (∀ (dp_log : list string) (uri : string),
       uri ∈ (classify dp_log).1 → uri ∈ (classify dp_log).2 →
       ∃ i token, record_at dp_log i = Some (uri, token) ∧ inout_token token).
Proof.
  intros H.
  destruct (H ["A IN"; "A OUT"] "A") as (i & token & Hr & Hio).
  - by vm_compute.
  - by vm_compute.
  - destruct Hio as [Hnin Hnout].
    destruct i as [|[|i]]; vm_compute in Hr; [| |done].
    + injection Hr as <-. apply Hnin. by left.
    + injection Hr as <-. by apply Hnout.
Qed.

(** C3, amended.  A URI that is in both sets after the classification has a
    record with an INOUT-like token, or a record with IN or IN_DELETE that
    comes before a record with OUT. *)
Theorem classify_both_roles (dp_log : list string) (uri : string) :
  uri ∈ (classify dp_log).1 → uri ∈ (classify dp_log).2 →
  (∃ i token, record_at dp_log i = Some (uri, token) ∧ inout_token token) ∨
  (∃ i j token, i < j ∧ record_at dp_log i = Some (uri, token) ∧ in_token token
                ∧ record_at dp_log j = Some (uri, "OUT")).
Proof.
  induction dp_log as [|line dp_log IH] using rev_ind.
  { unfold classify. simpl. set_solver. }
  pose proof (classify_inputs_record dp_log uri) as Hinputs.
  rewrite classify_snoc. destruct (classify dp_log) as [inputs outputs].
  simpl in IH, Hinputs. intros Hin Hout.
  assert (lift : (∃ i token, record_at dp_log i = Some (uri, token) ∧ inout_token token) ∨
           (∃ i j token, i < j ∧ record_at dp_log i = Some (uri, token) ∧ in_token token
                ∧ record_at dp_log j = Some (uri, "OUT")) →
          (∃ i token, record_at (dp_log ++ [line]) i = Some (uri, token) ∧ inout_token token) ∨
           (∃ i j token, i < j ∧ record_at (dp_log ++ [line]) i = Some (uri, token)
                ∧ in_token token ∧ record_at (dp_log ++ [line]) j = Some (uri, "OUT"))).
  { intros [(i & token & Hr & Hio)|(i & j & token & Hlt & Hi & Htok & Hj)].
    - left. exists i, token. eauto using record_at_app_l.
    - right. exists i, j, token. eauto 6 using record_at_app_l. }
  destruct (record_of line) as [[u t]|] eqn:Hr.
  2:{ rewrite (classify_line_no_record _ _ Hr) in Hin, Hout. auto. }
  rewrite (classify_line_record _ _ _ _ _ Hr) in Hin, Hout.
  destruct (decide (u = uri)) as [->|Hne].
  2:{ apply lift, IH; clear IH Hinputs lift;
        repeat case_decide; simpl in *; set_solver. }
  destruct (decide (in_token t)) as [Hint|Hnint].
  { simpl in Hout. apply lift, IH; [|done].
    clear IH Hinputs lift. rewrite decide_False in Hin by set_solver. done. }
  destruct (decide (t = "OUT")) as [->|Hnout].
  2:{ left. exists (length dp_log), t. rewrite record_at_length. done. }
  simpl in Hin. destruct (decide (uri ∈ outputs)) as [Hold|Hnew]; [by auto|].
  destruct (Hinputs Hin) as (i & token & Hi & Htok).
  destruct (decide (in_token token)) as [Hint|Hnint'].
  - right. exists i, (length dp_log), token.
    split_and!; [by eapply record_at_lt|by apply record_at_app_l|done|].
    by rewrite record_at_length.
  - left. exists i, token. split; [by apply record_at_app_l|done].
Qed.

Lemma classify_both_roles_witness :
  (∃ i token, record_at ["A IN"; "A OUT"] i = Some ("A", token) ∧ inout_token token) ∨
  (∃ i j token, i < j ∧ record_at ["A IN"; "A OUT"] i = Some ("A", token) ∧ in_token token
                ∧ record_at ["A IN"; "A OUT"] j = Some ("A", "OUT")).
Proof.
  apply (classify_both_roles ["A IN"; "A OUT"] "A"); by vm_compute.
Defined.

(** * [urlsplit] *)

Section urlsplit.
Implicit Types (url : string).

(** [urlsplit] raises nothing but [ValueError]. *)
Lemma urlsplit_exn url e : urlsplit url = Raise e → e = ValueError.
Proof.
  unfold urlsplit. destruct (split_scheme _) as [sch rest].
  destruct (split_netloc rest) as [[nl rest']|e'] eqn:Hnl; simpl.
  - by repeat destruct (cut_at _ _).
  - intros [= <-]. unfold split_netloc in Hnl.
    destruct rest as [|c1 [|c2 rest]]; [done..|].
    case_decide; [|done].
    destruct (break_at is_netloc_delim rest) as [nl rest'].
    destruct (bad_brackets nl); congruence.
Qed.

Lemma urlsplit_parses url :
  parses url = true → ∃ url_parts, urlsplit url = Ok url_parts.
Proof. unfold parses. destruct (urlsplit url); [by eauto|done]. Qed.

Lemma is_dir_url_true url :
  is_dir_url url = true →
  ∃ url_parts, urlsplit url = Ok url_parts ∧ scheme url_parts = "dir"
               ∧ path url_parts = url_path url.
Proof.
  unfold is_dir_url, url_path. destruct (urlsplit url) as [r|]; [|done].
  intros Hd%bool_decide_eq_true. by exists r.
Qed.

Lemma is_dir_url_false url :
  parses url = true → is_dir_url url = false →
  ∃ url_parts, urlsplit url = Ok url_parts ∧ scheme url_parts ≠ "dir"
               ∧ path url_parts = url_path url.
Proof.
  unfold parses, is_dir_url, url_path. destruct (urlsplit url) as [r|]; [|done].
  intros _ Hd%bool_decide_eq_false. by exists r.
Qed.
End urlsplit.

(** * The loops that change the list they iterate on *)

Section index_loops.
Implicit Types (l : list string) (k bound : nat).

(** The loop of [process_accessed_files] keeps the length of the list, so
    it ends within [length l] turns: the bound is never exhausted. *)
Lemma fix_dir_refs_loop_bound hostname bound k l :
  length l ≤ bound + k → fix_dir_refs_loop hostname bound k l ≠ Raise LoopBound.
Proof.
  revert k l. induction bound as [|bound IH]; intros k l Hlen.
  - simpl. destruct (l !! k) eqn:Hk; [|done].
    apply lookup_lt_Some in Hk. lia.
  - simpl. destruct (l !! k) as [item|] eqn:Hk; [|done].
    res_step; [|intros [= ->]; by apply urlsplit_exn in E].
    case_decide; [|done].
    res_step.
    + apply IH. apply list_remove_length in E0.
      rewrite length_app in E0. simpl in E0. lia.
    + intros [= ->]. by apply list_remove_Raise in E0 as [? _].
Qed.

Lemma fix_dir_refs_no_bound hostname l :
  fix_dir_refs hostname l ≠ Raise LoopBound.
Proof.
  unfold fix_dir_refs. res_step; [done|].
  intros [= ->]. revert E. apply fix_dir_refs_loop_bound. lia.
Qed.

Lemma end_slash_loop_end bound k l :
  l !! k = None → end_slash_loop bound k l = Ok l.
Proof. intros Hk. destruct bound; simpl; by rewrite Hk. Qed.

Lemma end_slash_loop_turn bound k l item :
  l !! k = Some item →
  end_slash_loop (S bound) k l =
    c ← last_char item;
    if decide (c ≠ "/"%char) then
      removed ← list_remove item (l ++ [item +:+ "/"]);
      end_slash_loop bound (S k) removed
    else end_slash_loop bound (S k) l.
Proof. intros Hk. simpl. by rewrite Hk. Qed.

(** The same for the last loop of [get_common_paths]. *)
Lemma end_slash_loop_bound bound k l :
  length l ≤ bound + k → end_slash_loop bound k l ≠ Raise LoopBound.
Proof.
  revert k l. induction bound as [|bound IH]; intros k l Hlen.
  - simpl. destruct (l !! k) eqn:Hk; [|done].
    apply lookup_lt_Some in Hk. lia.
  - simpl. destruct (l !! k) as [item|] eqn:Hk; [|done].
    res_step.
    2:{ intros [= ->]. by apply last_char_Raise in E as [? _]. }
    case_decide; [|apply IH; lia].
    res_step.
    + apply IH. apply list_remove_length in E0.
      rewrite length_app in E0. simpl in E0. lia.
    + intros [= ->]. by apply list_remove_Raise in E0 as [? _].
Qed.
End index_loops.

(** * [process_accessed_files] *)

(** The two lists the function returns are sorted. *)
Lemma process_accessed_files_sorted hostname dp_log l_ins l_outs :
  process_accessed_files hostname dp_log = Ok (l_ins, l_outs) →
  Sorted String.le l_ins ∧ Sorted String.le l_outs.
Proof.
  unfold process_accessed_files, fix_dir_refs.
  destruct (classify dp_log) as [inputs outputs].
  intros (ins & (? & _ & [= <-])%bind_Ok_inv & Hf)%bind_Ok_inv.
  apply bind_Ok_inv in Hf as (outs & (? & _ & [= <-])%bind_Ok_inv & [= <- <-]).
  split; apply py_sort_sorted.
Qed.

(** The function raises nothing but what [urlsplit] raises: the bound of its
    loop is never exhausted. *)
Lemma process_accessed_files_no_bound hostname dp_log :
  process_accessed_files hostname dp_log ≠ Raise LoopBound.
Proof.
  unfold process_accessed_files. destruct (classify dp_log) as [inputs outputs].
  destruct (fix_dir_refs hostname (py_sort (elements inputs))) as [l_ins|e] eqn:Hins.
  2:{ intros [= ->]. by apply fix_dir_refs_no_bound in Hins. }
  rewrite bind_Ok.
  destruct (fix_dir_refs hostname (py_sort (elements outputs))) as [l_outs|e] eqn:Houts.
  2:{ intros [= ->]. by apply fix_dir_refs_no_bound in Houts. }
  done.
Qed.

(** C5.  With two directories in the log the second one is not rewritten:
    the scheme fix-up loop appends to the list and removes from it while it
    iterates on it, so the iterator steps over the entry that has moved to
    the index it has just left.  The entry [dir://host/b] is returned
    without the final slash (and the first one is rewritten twice). *)
Theorem process_accessed_files_skips_dir :
  process_accessed_files "host" ["dir://host/a IN" +:+ newline; "dir://host/b IN" +:+ newline]
  = Ok (["dir://host/a//"; "dir://host/b"], [])
  ∧ is_dir_url "dir://host/b" = true
  ∧ ends_with_slash "dir://host/b" = false.
Proof. by vm_compute. Qed.

(** * Paths *)

Section paths.
Implicit Types (c name s : string) (cs : list string).

Lemma is_name_inv c :
  is_name c = true → c ≠ "" ∧ is_component c = true ∧ contains "/"%char c = false.
Proof.
  unfold is_name. intros [Hc Hs%negb_true_iff]%andb_true_iff.
  split_and!; [|done..]. intros ->. done.
Qed.

Lemma concat_cons c cs :
  cs ≠ [] → String.concat "/" (c :: cs) = c +:+ "/" +:+ String.concat "/" cs.
Proof. by destruct cs. Qed.

(** The fields of a joined list of names are the names. *)
Lemma split_concat cs :
  cs ≠ [] → Forall (λ c, is_name c = true) cs →
  split "/"%char (String.concat "/" cs) = cs.
Proof.
  induction cs as [|c cs IH]; [done|]. intros _ Hcs.
  apply Forall_cons in Hcs as [(_ & _ & Hc)%is_name_inv Hcs].
  destruct cs as [|d cs]; [by apply split_no_sep|].
  rewrite concat_cons by done.
  change ("/" +:+ ?s) with (String "/"%char s).
  rewrite split_app_sep by done. by rewrite IH.
Qed.

Lemma filter_names cs :
  Forall (λ c, is_name c = true) cs → List.filter is_component cs = cs.
Proof.
  induction 1 as [|c cs (_ & Hc & _)%is_name_inv _ IH]; [done|].
  simpl. by rewrite Hc, IH.
Qed.

Lemma components_abs_path cs :
  Forall (λ c, is_name c = true) cs → components (abs_path cs) = cs.
Proof.
  intros Hcs. unfold components, abs_path.
  change ("/" +:+ ?s) with (String "/"%char s). simpl.
  destruct cs as [|c cs]; [done|].
  rewrite split_concat by done. by apply filter_names.
Qed.

Lemma leading_slashes_name c s :
  is_name c = true → leading_slashes (c +:+ s) = 0.
Proof.
  intros (Hne & _ & Hs)%is_name_inv. destruct c as [|a c]; [done|].
  simpl in *. apply orb_false_iff in Hs as [Ha%bool_decide_eq_false _].
  by rewrite decide_False.
Qed.

Lemma path_root_abs_path cs :
  Forall (λ c, is_name c = true) cs → path_root (abs_path cs) = "/".
Proof.
  intros Hcs. unfold path_root, abs_path.
  change ("/" +:+ ?s) with (String "/"%char s). simpl.
  destruct cs as [|c cs]; [done|].
  apply Forall_cons in Hcs as [Hc _].
  destruct cs as [|d cs].
  - simpl. rewrite <- (app_nil_r c). by rewrite leading_slashes_name.
  - rewrite concat_cons by done. by rewrite leading_slashes_name.
Qed.

(** [str(Path(p).parents[0])] of a normal absolute path drops the last
    component. *)
Lemma parent_dir_abs_path cs name :
  Forall (λ c, is_name c = true) cs → is_name name = true →
  parent_dir (abs_path (cs ++ [name])) = Ok (abs_path cs).
Proof.
  intros Hcs Hname. unfold parent_dir.
  assert (Forall (λ c, is_name c = true) (cs ++ [name])) as Hall.
  { apply Forall_app. split; [done|]. by apply Forall_singleton. }
  rewrite components_abs_path, path_root_abs_path by done.
  destruct (cs ++ [name]) as [|x rest] eqn:Heq; [by destruct cs|].
  rewrite <- Heq, removelast_last. done.
Qed.

Lemma common_prefix_app (l l' : list string) : common_prefix (l ++ l') l = l.
Proof.
  induction l as [|x l IH]; simpl; [by destruct l'|].
  by rewrite decide_True, IH.
Qed.

Lemma is_abs_abs_path cs : is_abs (abs_path cs) = true.
Proof.
  unfold is_abs, startswith, abs_path. simpl. by destruct (String.concat _ _).
Qed.

(** The common path of a file of a directory and of that directory. *)
Lemma commonpath_abs_path cs name :
  Forall (λ c, is_name c = true) cs → is_name name = true →
  commonpath (abs_path (cs ++ [name])) (abs_path cs) = Ok (abs_path cs).
Proof.
  intros Hcs Hname. unfold commonpath.
  assert (Forall (λ c, is_name c = true) (cs ++ [name])) as Hall.
  { apply Forall_app. split; [done|]. by apply Forall_singleton. }
  rewrite !components_abs_path by done.
  by rewrite common_prefix_app, !is_abs_abs_path.
Qed.

Lemma dir_prefix_cons c cs : dir_prefix (c :: cs) = "/" +:+ c +:+ dir_prefix cs.
Proof. reflexivity. Qed.

Lemma dir_prefix_name cs name : dir_prefix cs +:+ name = abs_path (cs ++ [name]).
Proof.
  unfold abs_path. induction cs as [|c cs IH]; [done|].
  rewrite dir_prefix_cons, <- app_comm_cons.
  rewrite concat_cons by (by destruct cs).
  rewrite !app_assoc. by rewrite IH.
Qed.

Lemma dir_prefix_snoc cs c : dir_prefix (cs ++ [c]) = dir_prefix cs +:+ c +:+ "/".
Proof.
  induction cs as [|d cs IH]; [done|].
  rewrite <- app_comm_cons, !dir_prefix_cons, IH. by rewrite !app_assoc.
Qed.

Lemma dir_prefix_abs_path cs : cs ≠ [] → dir_prefix cs = abs_path cs +:+ "/".
Proof.
  intros Hcs. destruct cs as [|c cs _] using rev_ind; [done|].
  by rewrite dir_prefix_snoc, <- dir_prefix_name, app_assoc.
Qed.

Lemma abs_path_not_root cs :
  cs ≠ [] → Forall (λ c, is_name c = true) cs → abs_path cs ≠ "/".
Proof.
  intros Hne Hcs. destruct cs as [|c cs]; [done|].
  apply Forall_cons in Hcs as [(Hc & _)%is_name_inv _].
  unfold abs_path. destruct c as [|a c]; [done|]. by destruct cs.
Qed.

Lemma last_char_name c :
  is_name c = true → ∃ a, last_char c = Ok a ∧ a ≠ "/"%char.
Proof.
  intros (Hne & _ & Hs)%is_name_inv.
  induction c as [|a c IH]; [done|].
  simpl in Hs. apply orb_false_iff in Hs as [Ha%bool_decide_eq_false Hs].
  destruct c as [|b c]; [by exists a|].
  rewrite last_char_cons by discriminate. by apply IH.
Qed.

Lemma last_char_abs_path cs :
  cs ≠ [] → Forall (λ c, is_name c = true) cs →
  ∃ a, last_char (abs_path cs) = Ok a ∧ a ≠ "/"%char.
Proof.
  intros Hne Hcs. destruct cs as [|c cs _] using rev_ind; [done|].
  apply Forall_app in Hcs as [_ [Hc _]%Forall_cons].
  destruct (last_char_name c Hc) as (a & Ha & Hslash).
  exists a. split; [|done]. rewrite <- dir_prefix_name.
  rewrite last_char_app_r; [done|]. by apply is_name_inv in Hc as [? _].
Qed.
End paths.

(** * [get_common_paths] *)

Section same_directory.
Variable cs : list string.
Hypothesis cs_names : Forall (λ c, is_name c = true) cs.

Implicit Types (url : string) (url_list : list string).

Lemma file_in_dir_inv url :
  file_in_dir cs url →
  ∃ url_parts name,
    urlsplit url = Ok url_parts ∧ scheme url_parts ≠ "dir"
    ∧ is_name name = true ∧ path url_parts = abs_path (cs ++ [name]).
Proof.
  intros (url_parts & name & Hu & Hs & Hn & Hp).
  exists url_parts, name. by rewrite <- dir_prefix_name.
Qed.

(** The loop over the files of one directory keeps that directory as the
    common path; when the directory is the root, the loop stores the root
    and takes it again. *)
Lemma common_paths_loop_same_dir url_list list_common_paths :
  Forall (file_in_dir cs) url_list →
  list_common_paths = [] ∨ (cs = [] ∧ list_common_paths = ["/"]) →
  ∃ list_common_paths',
    common_paths_loop url_list (abs_path cs) list_common_paths
      = Ok (abs_path cs, list_common_paths')
    ∧ (list_common_paths' = [] ∨ (cs = [] ∧ list_common_paths' = ["/"])).
Proof.
  intros Hall. revert list_common_paths.
  induction Hall as [|url url_list Hurl _ IH]; intros lcp Hlcp.
  { exists lcp. by split. }
  destruct (file_in_dir_inv _ Hurl) as (url_parts & name & Hu & _ & Hname & Hp).
  simpl. rewrite Hu, bind_Ok, Hp, commonpath_abs_path, bind_Ok by done.
  destruct (decide (cs = [])) as [Hroot|Hdeep].
  - rewrite decide_False by (rewrite Hroot; intros Hne; by apply Hne).
    rewrite parent_dir_abs_path, bind_Ok by done.
    apply IH. right. split; [done|].
    destruct Hlcp as [->|[_ ->]]; by rewrite Hroot.
  - rewrite decide_True by by apply abs_path_not_root.
    by apply IH.
Qed.

(** The last loop on the one path the resolver has found. *)
Lemma end_slash_loop_same_dir :
  end_slash_loop 1 0 [abs_path cs] = Ok [dir_prefix cs].
Proof.
  destruct (decide (cs = [])) as [->|Hdeep]; [done|].
  destruct (last_char_abs_path cs Hdeep cs_names) as (a & Ha & Hslash).
  rewrite (end_slash_loop_turn _ _ _ (abs_path cs)) by done.
  rewrite Ha, bind_Ok, decide_True by done.
  change ([abs_path cs] ++ ?l) with (abs_path cs :: l).
  rewrite list_remove_head, bind_Ok.
  rewrite end_slash_loop_end by done.
  by rewrite dir_prefix_abs_path.
Qed.

Lemma get_common_paths_files url_list :
  url_list ≠ [] → Forall (file_in_dir cs) url_list →
  get_common_paths url_list = Ok [dir_prefix cs].
Proof.
  intros Hne Hall. destruct url_list as [|first_file url_files_list]; [done|].
  apply Forall_cons in Hall as [Hfirst Hall].
  destruct (file_in_dir_inv _ Hfirst) as (url_parts & name & Hu & Hs & Hname & Hp).
  unfold get_common_paths, leading_dirs.
  rewrite Hu, bind_Ok, decide_False, bind_Ok by done.
  rewrite Hu, bind_Ok, Hp, parent_dir_abs_path, bind_Ok by done.
  destruct (common_paths_loop_same_dir url_files_list [] Hall)
    as (lcp & -> & Hlcp); [by left|].
  rewrite bind_Ok.
  assert (append_new (abs_path cs) lcp = [abs_path cs]) as ->.
  { destruct Hlcp as [->|[-> ->]]; [done|]. unfold append_new.
    rewrite decide_True; [done|]. by apply list_elem_of_singleton. }
  apply end_slash_loop_same_dir.
Qed.
End same_directory.

(** The exceptions of the resolver are those of Python: the bound of its
    last loop is never exhausted. *)
Section resolver_exceptions.
Implicit Types (url_list l : list string) (e : exn).

Lemma parent_dir_exn p e : parent_dir p = Raise e → e = IndexError.
Proof. unfold parent_dir. destruct (components p); [by intros [= <-]|done]. Qed.

Lemma commonpath_exn p1 p2 e : commonpath p1 p2 = Raise e → e = ValueError.
Proof. unfold commonpath. destruct (negb _); [by intros [= <-]|done]. Qed.

Lemma leading_dirs_exn url_list l e :
  leading_dirs url_list l = Raise e → e = ValueError.
Proof.
  revert l. induction url_list as [|item rest IH]; intros l; [done|]. simpl.
  intros [Hu|(url_parts & _ & Hrest)]%bind_Raise_inv; [by eapply urlsplit_exn|].
  case_decide; [by eapply IH|done].
Qed.

Lemma common_paths_loop_exn url_list common_path l e :
  common_paths_loop url_list common_path l = Raise e → e ≠ LoopBound.
Proof.
  revert common_path l. induction url_list as [|item rest IH]; intros cp l; [done|].
  simpl. intros [Hu|(url_parts & _ & Hrest)]%bind_Raise_inv.
  { by apply urlsplit_exn in Hu as ->. }
  apply bind_Raise_inv in Hrest as [Hc|(tmp & _ & Hrest)].
  { by apply commonpath_exn in Hc as ->. }
  case_decide; [by eapply IH|].
  apply bind_Raise_inv in Hrest as [Hp|(cp' & _ & Hrest)]; [|by eapply IH].
  by apply parent_dir_exn in Hp as ->.
Qed.

Lemma get_common_paths_no_bound url_list :
  get_common_paths url_list ≠ Raise LoopBound.
Proof.
  unfold get_common_paths. destruct url_list as [|first rest]; [done|].
  destruct (leading_dirs _ _) as [[l from_file]|e] eqn:Hdirs.
  2:{ intros [= ->]. by apply leading_dirs_exn in Hdirs. }
  rewrite bind_Ok. destruct from_file as [|first_file url_files_list]; [done|].
  destruct (urlsplit first_file) as [url_parts|e] eqn:Hu.
  2:{ intros [= ->]. by apply urlsplit_exn in Hu. }
  rewrite bind_Ok. destruct (parent_dir _) as [common_path|e] eqn:Hp.
  2:{ intros [= ->]. by apply parent_dir_exn in Hp. }
  rewrite bind_Ok. destruct (common_paths_loop _ _ _) as [[common_path' l']|e] eqn:Hloop.
  2:{ intros [= ->]. by apply common_paths_loop_exn in Hloop. }
  rewrite bind_Ok. apply end_slash_loop_bound. lia.
Qed.
End resolver_exceptions.

(** C2, as the specification states it, fails: the resolver does not return
    the two sibling directories. *)
Lemma get_common_paths_siblings_not_two :
  get_common_paths ["/data/x/f1"; "/data/y/f2"] ≠ Ok ["/data/x/"; "/data/y/"].
Proof. by vm_compute. Qed.

(** C2, amended.  For the two files [/data/x/f1] and [/data/y/f2] the
    resolver returns one prefix, their shared ancestor [/data/]: the common
    path of the second file and of the directory of the first one is
    [/data], which is not the root, so it replaces the current prefix.  The
    same holds of the two files written as [file://] URLs. *)
Theorem get_common_paths_siblings :
  get_common_paths ["/data/x/f1"; "/data/y/f2"] = Ok ["/data/"]
  ∧ get_common_paths ["file://host/data/x/f1"; "file://host/data/y/f2"] = Ok ["/data/"].
Proof. by vm_compute. Qed.

(** C4.  Two files in two directories right under the root give the two
    paths [/a] and [/b]; the loop that adds the final slash appends to the
    list and removes from it while it iterates on it, so after [/a] it steps
    over [/b], which is returned without the slash. *)
Theorem get_common_paths_misses_slash :
  Sorted String.le ["file://host/a/f1"; "file://host/b/f2"]
  ∧ get_common_paths ["file://host/a/f1"; "file://host/b/f2"] = Ok ["/b"; "/a/"]
  ∧ ends_with_slash "/b" = false.
Proof. split; [|by vm_compute]. repeat constructor; by vm_compute. Qed.

(** The guard on the empty list: without any URL the resolver returns no
    prefix. *)
Example get_common_paths_empty : get_common_paths [] = Ok [].
Proof. done. Qed.

(** C6.  For every list of files that are all in one and the same directory
    the resolver returns exactly one prefix: that directory with its final
    slash.  The list holds at least one file, which is what makes it the
    list of the files of one directory.  A file is a URL whose scheme is not
    [dir] and whose path is the directory followed by a name; the directory
    is given by the names on its path, and it may be the root.  The list
    need not be sorted for this. *)
Theorem get_common_paths_same_dir (cs url_list : list string) :
  Forall (λ c, is_name c = true) cs →
  url_list ≠ [] → Forall (file_in_dir cs) url_list →
  get_common_paths url_list = Ok [dir_prefix cs].
Proof. intros Hcs Hne Hall. by apply get_common_paths_files. Qed.

Lemma get_common_paths_same_dir_witness :
  get_common_paths ["file://host/data/run/a.txt"; "file://host/data/run/b.txt";
                    "file://host/data/run/c.txt"]
  = Ok [dir_prefix ["data"; "run"]].
Proof.
  apply (get_common_paths_same_dir ["data"; "run"]).
  - repeat constructor.
  - discriminate.
  - repeat constructor.
    + by exists (mkSplit "file" "host" "/data/run/a.txt" "" ""), "a.txt".
    + by exists (mkSplit "file" "host" "/data/run/b.txt" "" ""), "b.txt".
    + by exists (mkSplit "file" "host" "/data/run/c.txt" "" ""), "c.txt".
Defined.

(** * [fix_dir_url] *)

Section urlsplit_parts.
Implicit Types (s t url : string) (c : ascii) (p q : ascii → bool).

Lemma contains_app c s t : contains c (s +:+ t) = contains c s || contains c t.
Proof.
  induction s as [|d s IH]; [done|]. rewrite app_cons. simpl.
  by rewrite IH, orb_assoc.
Qed.

Lemma contains_filter c q s :
  q c = true → contains c (string_filter q s) = contains c s.
Proof.
  intros Hq. induction s as [|d s IH]; [done|]. simpl.
  destruct (q d) eqn:Hd; simpl; rewrite IH; [done|].
  rewrite bool_decide_eq_false_2; [done|]. intros ->. congruence.
Qed.

Lemma string_filter_app q s t :
  string_filter q (s +:+ t) = string_filter q s +:+ string_filter q t.
Proof.
  induction s as [|d s IH]; [done|]. rewrite app_cons. simpl.
  destruct (q d); by rewrite ?app_cons, IH.
Qed.


(** [break_at] goes through a text without a character it looks for. *)
Lemma break_at_app p s t :
  string_forallb (λ c, negb (p c)) s = true →
  break_at p (s +:+ t) = (s +:+ (break_at p t).1, (break_at p t).2).
Proof.
  induction s as [|d s IH].
  - intros _. rewrite !app_nil_l. by destruct (break_at p t).
  - intros H. simpl in H. apply andb_true_iff in H as [Hd%negb_true_iff Hs].
    rewrite !app_cons. simpl. by rewrite Hd, (IH Hs).
Qed.

Lemma break_at_fst_forallb p s :
  string_forallb (λ c, negb (p c)) (break_at p s).1 = true.
Proof.
  induction s as [|d s IH]; [done|]. simpl.
  destruct (p d) eqn:Hd; [done|]. destruct (break_at p s) as [a b].
  simpl in *. by rewrite Hd, IH.
Qed.

Lemma contains_break_at_fst c p s :
  contains c s = false → contains c (break_at p s).1 = false.
Proof.
  induction s as [|d s IH]; [done|]. simpl.
  intros [Hd Hs]%orb_false_iff. destruct (p d); [done|].
  destruct (break_at p s) as [a b]. simpl in *. by rewrite Hd, IH.
Qed.

(** The authority [urlsplit] returns has passed the test of the square
    brackets, and holds none of the characters that end an authority. *)
Lemma urlsplit_netloc url url_parts :
  urlsplit url = Ok url_parts →
  bad_brackets (netloc url_parts) = false
  ∧ string_forallb (λ c, negb (is_netloc_delim c)) (netloc url_parts) = true.
Proof.
  unfold urlsplit. destruct (split_scheme _) as [sch rest].
  intros ([nl rest'] & Hnl & Hparts)%bind_Ok_inv.
  assert (netloc url_parts = nl) as ->.
  { repeat destruct (cut_at _ _). by injection Hparts as <-. }
  clear Hparts. unfold split_netloc in Hnl.
  assert (Ok (EmptyString, rest) = Ok (nl, rest') →
          bad_brackets nl = false
          ∧ string_forallb (λ c, negb (is_netloc_delim c)) nl = true) as Hnone.
  { by intros [= <- _]. }
  destruct rest as [|c1 [|c2 rest]]; [by auto..|].
  case_decide; [|by auto].
  pose proof (break_at_fst_forallb is_netloc_delim rest) as Hdelim.
  destruct (break_at is_netloc_delim rest) as [nl0 rest0]. simpl in Hdelim.
  destruct (bad_brackets nl0) eqn:Hbr; [done|].
  by injection Hnl as <- _.
Qed.

End urlsplit_parts.

(** * The loops that remove from a list *)

Section removal.
Variable P : string → bool.
Implicit Types (x item : string) (items l : list string).

#[local] Abbreviation matching := (path_matches P).

Lemma count_occ_list_remove x y l l' :
  list_remove x l = Ok l' →
  count_occ string_dec l' y
  = if decide (x = y) then pred (count_occ string_dec l y)
    else count_occ string_dec l y.
Proof.
  intros (l1 & l2 & -> & -> & _)%list_remove_Ok.
  rewrite !count_occ_app. case_decide as Hxy.
  - rewrite count_occ_cons_eq by done. lia.
  - by rewrite count_occ_cons_neq.
Qed.

Lemma count_occ_elem x l : 0 < count_occ string_dec l x ↔ x ∈ l.
Proof. rewrite list_elem_of_In. symmetry. apply count_occ_In. Qed.

Lemma remove_matching_cons item rest l url_parts :
  urlsplit item = Ok url_parts →
  remove_matching P (item :: rest) l
  = if P (path url_parts) then
      l' ← list_remove item l; remove_matching P rest l'
    else remove_matching P rest l.
Proof. intros Hu. simpl. by rewrite Hu. Qed.

(** The loop removes one occurrence for each matching item, as long as the
    list holds that many, and nothing else. *)
Lemma remove_matching_count items l :
  forallb parses items = true →
  (∀ x, matching x = true → count_occ string_dec items x ≤ count_occ string_dec l x) →
  ∃ l', remove_matching P items l = Ok l' ∧ l' `sublist_of` l ∧
    ∀ x, count_occ string_dec l' x
         = if matching x then count_occ string_dec l x - count_occ string_dec items x
           else count_occ string_dec l x.
Proof.
  revert l. induction items as [|item rest IH]; intros l Hparse Hcount.
  { exists l. split_and!; [done..|]. intros x. simpl. destruct (matching x); lia. }
  simpl in Hparse. apply andb_true_iff in Hparse as [Hitem Hrest].
  destruct (urlsplit_parses _ Hitem) as [url_parts Hu].
  assert (matching item = P (path url_parts)) as Hm.
  { unfold path_matches, url_path. by rewrite Hu. }
  rewrite (remove_matching_cons _ _ _ _ Hu). destruct (P (path url_parts)) eqn:HP.
  - destruct (list_remove_elem item l) as [l1 Hl1].
    { apply count_occ_elem. specialize (Hcount item Hm).
      rewrite count_occ_cons_eq in Hcount by done. lia. }
    rewrite Hl1, bind_Ok.
    destruct (IH l1 Hrest) as (l' & -> & Hsub & Hl').
    { intros x Hx. rewrite (count_occ_list_remove _ _ _ _ Hl1).
      specialize (Hcount x Hx). case_decide as Hxy.
      - rewrite count_occ_cons_eq in Hcount by done. lia.
      - by rewrite count_occ_cons_neq in Hcount. }
    exists l'. split_and!; [done| |].
    + etrans; [done|]. by eapply list_remove_sublist.
    + intros x. rewrite Hl', (count_occ_list_remove _ _ _ _ Hl1).
      destruct (matching x) eqn:Hx; case_decide as Hxy.
      * rewrite count_occ_cons_eq by done. lia.
      * by rewrite count_occ_cons_neq.
      * congruence.
      * done.
  - destruct (IH l Hrest) as (l' & -> & Hsub & Hl').
    { intros x Hx. specialize (Hcount x Hx).
      rewrite count_occ_cons_neq in Hcount; [done|]. congruence. }
    exists l'. split_and!; [done..|].
    intros x. rewrite Hl'. destruct (matching x) eqn:Hx; [|done].
    rewrite count_occ_cons_neq; [done|]. congruence.
Qed.

(** On the list it iterates on, the loop is a filter. *)
Lemma remove_matching_filter kept items :
  forallb parses items = true →
  (∀ x, x ∈ items → matching x = true → x ∉ kept) →
  remove_matching P items (kept ++ items)
  = Ok (kept ++ List.filter (λ x, negb (matching x)) items).
Proof.
  revert kept. induction items as [|item rest IH]; intros kept Hparse Hkept; [done|].
  simpl in Hparse. apply andb_true_iff in Hparse as [Hitem Hrest].
  destruct (urlsplit_parses _ Hitem) as [url_parts Hu].
  assert (matching item = P (path url_parts)) as Hm.
  { unfold path_matches, url_path. by rewrite Hu. }
  rewrite (remove_matching_cons _ _ _ _ Hu). simpl List.filter. rewrite Hm.
  destruct (P (path url_parts)) eqn:HP; simpl negb; cbv iota.
  - rewrite list_remove_app_notin, list_remove_head, !bind_Ok.
    + apply IH; [done|]. intros x Hx. apply Hkept. by apply elem_of_cons; right.
    + apply Hkept; [by apply elem_of_cons; left|done].
  - rewrite (cons_middle item kept rest), (assoc_L (++)).
    rewrite IH; [by rewrite <- (assoc_L (++))|done|].
    intros x Hx Hmx. rewrite elem_of_app, list_elem_of_singleton.
    intros [Hk| ->]; [|congruence].
    revert Hk. apply Hkept; [by apply elem_of_cons; right|done].
Qed.

Lemma remove_matching_none items l :
  (∀ p, P p = false) → forallb parses items = true →
  remove_matching P items l = Ok l.
Proof.
  intros Hnone. induction items as [|item rest IH]; [done|].
  intros Hparse. simpl in Hparse. apply andb_true_iff in Hparse as [Hitem Hrest].
  destruct (urlsplit_parses _ Hitem) as [url_parts Hu].
  rewrite (remove_matching_cons _ _ _ _ Hu), Hnone. by apply IH.
Qed.

Lemma remove_matching_sublist items l l' :
  remove_matching P items l = Ok l' → l' `sublist_of` l.
Proof.
  revert l. induction items as [|item rest IH]; intros l; simpl.
  { by intros [= <-]. }
  intros (url_parts & _ & Hl)%bind_Ok_inv. destruct (P (path url_parts)).
  - apply bind_Ok_inv in Hl as (l1 & Hl1 & Hl).
    etrans; [by apply IH|]. by eapply list_remove_sublist.
  - by apply IH.
Qed.
End removal.

Lemma remove_under_matching url_files_list directories_list inputs_list :
  remove_under url_files_list directories_list inputs_list
  = remove_matching (λ p, under_any p directories_list) url_files_list inputs_list.
Proof.
  revert inputs_list. induction url_files_list as [|item rest IH]; intros l; [done|].
  simpl. destruct (urlsplit item) as [url_parts|]; [|done].
  rewrite !bind_Ok. destruct (under_any _ _); [|done].
  destruct (list_remove item l); [|done]. by rewrite !bind_Ok.
Qed.

Lemma erase_nested_matching data_list_copy directories_list data_list :
  erase_nested data_list_copy directories_list data_list
  = remove_matching (λ p, strictly_under_any p directories_list) data_list_copy data_list.
Proof.
  revert data_list. induction data_list_copy as [|item rest IH]; intros l; [done|].
  simpl. destruct (urlsplit item) as [url_parts|]; [|done].
  rewrite !bind_Ok. destruct (strictly_under_any _ _); [|done].
  destruct (list_remove item l); [|done]. by rewrite !bind_Ok.
Qed.

(** * [fix_in_files_at_out_dirs] *)

Section cross_role.
Implicit Types (x url : string) (l inputs_list outputs_list : list string).

Lemma under_any_true p directories_list :
  under_any p directories_list = true
  ↔ ∃ d, d ∈ directories_list ∧ startswith p d = true.
Proof.
  unfold under_any. rewrite existsb_exists.
  by setoid_rewrite list_elem_of_In.
Qed.

Lemma after_dirs_cons url l :
  after_dirs (url :: l) = if is_dir_url url then after_dirs l else url :: l.
Proof. reflexivity. Qed.

Lemma count_occ_after_dirs_le x l :
  count_occ string_dec (after_dirs l) x ≤ count_occ string_dec l x.
Proof.
  induction l as [|url l IH]; [done|]. rewrite after_dirs_cons.
  destruct (is_dir_url url); [|done].
  destruct (decide (url = x)) as [->|Hne].
  - rewrite count_occ_cons_eq by done. lia.
  - by rewrite count_occ_cons_neq.
Qed.

(** Every entry that is not a directory is in the part of the list the
    third loop iterates on. *)
Lemma count_occ_after_dirs_file x l :
  is_dir_url x = false →
  count_occ string_dec (after_dirs l) x = count_occ string_dec l x.
Proof.
  intros Hx. induction l as [|url l IH]; [done|]. rewrite after_dirs_cons.
  destruct (is_dir_url url) eqn:Hurl; [|done].
  rewrite count_occ_cons_neq; [done|]. congruence.
Qed.

Lemma after_dirs_nil l : (∀ x, x ∈ l → is_dir_url x = true) → after_dirs l = [].
Proof.
  induction l as [|url l IH]; [done|]. intros Hall. rewrite after_dirs_cons.
  rewrite Hall by (by apply elem_of_cons; left).
  apply IH. intros x Hx. apply Hall. by apply elem_of_cons; right.
Qed.

Lemma after_dirs_parses l :
  forallb parses l = true → forallb parses (after_dirs l) = true.
Proof.
  induction l as [|url l IH]; [done|]. intros Hl. rewrite after_dirs_cons.
  destruct (is_dir_url url); [|done].
  simpl in Hl. apply andb_true_iff in Hl as [_ Hl]. by apply IH.
Qed.

(** The second loop returns the list from its first entry that is not a
    directory on. *)
Lemma input_files_after_dirs inputs_list :
  forallb parses inputs_list = true →
  input_files inputs_list = Ok (after_dirs inputs_list).
Proof.
  induction inputs_list as [|item rest IH]; [done|]. intros Hl.
  simpl in Hl. apply andb_true_iff in Hl as [Hitem Hrest].
  destruct (urlsplit_parses _ Hitem) as [url_parts Hu].
  rewrite after_dirs_cons. unfold is_dir_url. simpl. rewrite Hu, bind_Ok.
  case_decide.
  - rewrite bool_decide_eq_true_2 by done. by apply IH.
  - by rewrite bool_decide_eq_false_2.
Qed.

(** The first loop collects the paths of the directories of the outputs,
    when these come first. *)
Lemma output_dirs_elem outputs_list directories_list :
  forallb parses outputs_list = true → dirs_first outputs_list = true →
  ∃ directories_list',
    output_dirs outputs_list directories_list = Ok directories_list'
    ∧ ∀ d, d ∈ directories_list'
           ↔ d ∈ directories_list
             ∨ ∃ out, out ∈ outputs_list ∧ is_dir_url out = true ∧ url_path out = d.
Proof.
  revert directories_list.
  induction outputs_list as [|item rest IH]; intros acc Hl Hfirst.
  { exists acc. split; [done|]. intros d. split; [by left|].
    intros [?|(out & ?%elem_of_nil & _)]; done. }
  simpl in Hl. apply andb_true_iff in Hl as [Hitem Hrest].
  destruct (urlsplit_parses _ Hitem) as [url_parts Hu].
  unfold dirs_first in Hfirst. rewrite after_dirs_cons in Hfirst.
  assert (url_path item = path url_parts) as Hpath.
  { unfold url_path. by rewrite Hu. }
  simpl. rewrite Hu, bind_Ok. case_decide as Hdir.
  - assert (is_dir_url item = true) as Hitemdir.
    { unfold is_dir_url. rewrite Hu. by apply bool_decide_eq_true. }
    rewrite Hitemdir in Hfirst.
    destruct (IH (append_new (path url_parts) acc) Hrest Hfirst) as (dirs & -> & Hdirs).
    exists dirs. split; [done|]. intros d. rewrite Hdirs, append_new_elem.
    split.
    + intros [[->|?]|(out & Hout & Hd & Hp)]; [|by left|].
      * right. exists item. split_and!; [by apply elem_of_cons; left|done..].
      * right. exists out. split_and!; [by apply elem_of_cons; right|done..].
    + intros [?|(out & [->|Hout]%elem_of_cons & Hd & Hp)]; [by left; right| |].
      * left; left. congruence.
      * right. by exists out.
  - assert (is_dir_url item = false) as Hitemdir.
    { unfold is_dir_url. rewrite Hu. by apply bool_decide_eq_false. }
    rewrite Hitemdir in Hfirst. exists acc. split; [done|].
    intros d. split; [by left|]. intros [?|(out & Hout & Hd & _)]; [done|].
    rewrite forallb_forall in Hfirst. apply list_elem_of_In, Hfirst in Hout.
    rewrite Hd in Hout. done.
Qed.

(** The first loop raises nothing when the outputs parse. *)
Lemma output_dirs_Ok outputs_list directories_list :
  forallb parses outputs_list = true →
  ∃ directories_list',
    output_dirs outputs_list directories_list = Ok directories_list'
    ∧ ((∀ out, out ∈ outputs_list → is_dir_url out = false) →
       directories_list' = directories_list).
Proof.
  revert directories_list.
  induction outputs_list as [|item rest IH]; intros acc Hl; [by exists acc|].
  simpl in Hl. apply andb_true_iff in Hl as [Hitem Hrest].
  destruct (urlsplit_parses _ Hitem) as [url_parts Hu].
  simpl. rewrite Hu, bind_Ok. case_decide as Hdir; [|by exists acc].
  destruct (IH (append_new (path url_parts) acc) Hrest) as (dirs & -> & _).
  exists dirs. split; [done|]. intros Hnone.
  specialize (Hnone item (list_elem_of_here _ _)).
  unfold is_dir_url in Hnone. rewrite Hu in Hnone.
  by apply bool_decide_eq_false in Hnone.
Qed.

Lemma fixed_inputs_remove inputs_list outputs_list directories_list :
  forallb parses inputs_list = true →
  output_dirs outputs_list [] = Ok directories_list →
  fixed_inputs inputs_list outputs_list
  = remove_matching (λ p, under_any p directories_list)
      (after_dirs inputs_list) inputs_list.
Proof.
  intros Hin Hdirs. unfold fixed_inputs.
  rewrite Hdirs, bind_Ok, input_files_after_dirs, bind_Ok by done.
  rewrite remove_under_matching. by destruct (after_dirs inputs_list).
Qed.

Lemma fixed_inputs_sublist inputs_list outputs_list inputs_list' :
  fixed_inputs inputs_list outputs_list = Ok inputs_list' →
  inputs_list' `sublist_of` inputs_list.
Proof.
  unfold fixed_inputs.
  intros (dirs & _ & (files & _ & Hrem)%bind_Ok_inv)%bind_Ok_inv.
  destruct files as [|file files]; [by injection Hrem as <-|].
  rewrite remove_under_matching in Hrem. by eapply remove_matching_sublist.
Qed.
End cross_role.

(** The first loop of the fix-up stops at the first output that is not a
    directory, so a directory that comes after it is not collected, and an
    input file under it stays.  The outputs list here is sorted. *)
Lemma fix_in_files_at_out_dirs_late_dir :
  Sorted String.le ["/out.log"; "dir:///out/"]
  ∧ fix_in_files_at_out_dirs ["/out/sub/file.txt"] ["/out.log"; "dir:///out/"]
    = Ok (["/out/sub/file.txt"], ["/out.log"; "dir:///out/"])
  ∧ is_dir_url "/out/sub/file.txt" = false
  ∧ under_output_dir "/out/sub/file.txt" ["/out.log"; "dir:///out/"].
Proof.
  split_and!; [repeat constructor; by vm_compute|by vm_compute..|].
  exists "dir:///out/". split_and!; [|by vm_compute..].
  apply elem_of_cons; right. by apply elem_of_cons; left.
Qed.

(** What the test of the fix-up, [startswith] on the two paths as texts,
    removes.  For every pair of lists of URLs that parse, in which the
    directories of the outputs come before its other entries, the fix-up
    returns, with the outputs as they are; an entry that is not a directory
    is in the inputs it returns exactly when it is in the inputs it was
    given and its path does not begin with the path of a directory of the
    outputs; and when the outputs hold no directory, or the inputs hold
    directories only, the inputs are returned as they are. *)
Lemma fix_in_files_at_out_dirs_removes (inputs_list outputs_list : list string) :
  forallb parses inputs_list = true → forallb parses outputs_list = true →
  dirs_first outputs_list = true →
  ∃ inputs_list',
    fix_in_files_at_out_dirs inputs_list outputs_list = Ok (inputs_list', outputs_list)
    ∧ (∀ x, is_dir_url x = false →
         (x ∈ inputs_list' ↔ x ∈ inputs_list ∧ ¬ under_output_dir x outputs_list))
    ∧ ((∀ out, out ∈ outputs_list → is_dir_url out = false)
       ∨ (∀ x, x ∈ inputs_list → is_dir_url x = true) →
       inputs_list' = inputs_list).
Proof.
  intros Hin Hout Hfirst.
  destruct (output_dirs_elem outputs_list [] Hout Hfirst) as (dirs & Hdirs & Helem).
  pose proof (fixed_inputs_remove _ _ _ Hin Hdirs) as Hfixed.
  destruct (remove_matching_count (λ p, under_any p dirs) (after_dirs inputs_list)
              inputs_list) as (inputs_list' & Hrem & _ & Hcount).
  { by apply after_dirs_parses. }
  { intros x _. apply count_occ_after_dirs_le. }
  unfold path_matches in Hcount.
  exists inputs_list'. unfold fix_in_files_at_out_dirs.
  rewrite Hfixed, Hrem, bind_Ok. split_and!; [done| |].
  - intros x Hx. rewrite <- !count_occ_elem, Hcount.
    rewrite count_occ_after_dirs_file by done.
    assert (under_any (url_path x) dirs = true ↔ under_output_dir x outputs_list)
      as Hunder.
    { rewrite under_any_true. unfold under_output_dir. split.
      - intros (d & [?%elem_of_nil|(out & ? & ? & <-)]%Helem & ?); [done|].
        by exists out.
      - intros (out & ? & ? & ?). exists (url_path out). split; [|done].
        apply Helem. right. by exists out. }
    destruct (under_any (url_path x) dirs) eqn:Hu.
    + split; [lia|]. intros [_ Hn]. exfalso. by apply Hn, Hunder.
    + split; [|by intros [? _]]. intros ?. split; [done|].
      intros ?%Hunder. done.
  - intros [Hnodir|Hnofile].
    + destruct (output_dirs_Ok outputs_list [] Hout) as (dirs' & Hdirs' & Hnil).
      rewrite Hdirs in Hdirs'. injection Hdirs' as <-. rewrite (Hnil Hnodir) in Hrem.
      rewrite remove_matching_none in Hrem; [by injection Hrem as <-|done|].
      by apply after_dirs_parses.
    + rewrite (after_dirs_nil _ Hnofile) in Hrem. by injection Hrem as <-.
Qed.

Lemma fix_in_files_at_out_dirs_removes_witness :
  ∃ inputs_list',
    fix_in_files_at_out_dirs ["dir://host/in/"; "file://host/data/a"; "file://host/out/sub/file.txt"]
                             ["dir://host/out/"; "file://host/res"]
    = Ok (inputs_list', ["dir://host/out/"; "file://host/res"])
    ∧ (∀ x, is_dir_url x = false →
         (x ∈ inputs_list'
          ↔ x ∈ ["dir://host/in/"; "file://host/data/a"; "file://host/out/sub/file.txt"]
            ∧ ¬ under_output_dir x ["dir://host/out/"; "file://host/res"]))
    ∧ ((∀ out, out ∈ ["dir://host/out/"; "file://host/res"] → is_dir_url out = false)
       ∨ (∀ x, x ∈ ["dir://host/in/"; "file://host/data/a"; "file://host/out/sub/file.txt"]
               → is_dir_url x = true) →
       inputs_list' = ["dir://host/in/"; "file://host/data/a"; "file://host/out/sub/file.txt"]).
Proof.
  apply (fix_in_files_at_out_dirs_removes
           ["dir://host/in/"; "file://host/data/a"; "file://host/out/sub/file.txt"]
           ["dir://host/out/"; "file://host/res"]); reflexivity.
Defined.

(** The scenario of the specification. *)
Example fix_in_files_at_out_dirs_scenario :
  fix_in_files_at_out_dirs ["/out/sub/file.txt"] ["dir:///out/"] = Ok ([], ["dir:///out/"]).
Proof. by vm_compute. Qed.

(** C7.  The fix-up keeps an input file that lies in a directory of the
    outputs.  The log records the directory [/out] and the file [/res] as
    written and the file [/out/f] as read; [process_accessed_files] returns
    the directory as [dir://host/out//], with two slashes at its end, since
    its loop rewrites the one directory twice.  On these two lists the
    fix-up returns the inputs as they are: the path [/out/f] does not begin
    with the text [/out//], although [/out/f] is a file of the directory
    [/out//], which is the directory [/out]. *)
Theorem fix_in_files_at_out_dirs_keeps_file_in_dir :
  process_accessed_files "host"
    ["dir://host/out OUT" +:+ newline; "file://host/res OUT" +:+ newline;
     "file://host/out/f IN" +:+ newline]
  = Ok (["file://host/out/f"], ["dir://host/out//"; "file://host/res"])
  ∧ fix_in_files_at_out_dirs ["file://host/out/f"] ["dir://host/out//"; "file://host/res"]
    = Ok (["file://host/out/f"], ["dir://host/out//"; "file://host/res"])
  ∧ is_dir_url "file://host/out/f" = false
  ∧ is_dir_url "dir://host/out//" = true
  ∧ lies_under "file://host/out/f" (url_path "dir://host/out//").
Proof.
  split_and!; [by vm_compute..|]. exists ["f"]. by vm_compute.
Qed.

(** C10.  The fix-up on list objects returns the two references it was
    given and writes the store at the reference of the inputs only: every
    other list of the store, the outputs list among them when it is another
    object than the inputs list, is as before, and the inputs list has lost
    entries at most. *)
Theorem fix_in_files_at_out_dirs_frame (inputs_list outputs_list : ref)
    (store store' : gmap ref (list string)) (refs : ref * ref) :
  fix_in_files_at_out_dirs_ref inputs_list outputs_list store = Ok (store', refs) →
  refs = (inputs_list, outputs_list)
  ∧ (∀ other, other ≠ inputs_list → store' !! other = store !! other)
  ∧ (outputs_list ≠ inputs_list → store' !!! outputs_list = store !!! outputs_list)
  ∧ store' !!! inputs_list `sublist_of` store !!! inputs_list.
Proof.
  unfold fix_in_files_at_out_dirs_ref.
  intros (inputs_list' & Hfixed & [= <- <-])%bind_Ok_inv.
  split_and!; [done| | |].
  - intros other Hne. by rewrite lookup_insert_ne.
  - intros Hne. by rewrite lookup_total_insert_ne.
  - rewrite lookup_total_insert_eq. by eapply fixed_inputs_sublist.
Qed.

Lemma fix_in_files_at_out_dirs_frame_witness :
  (0, 1) = (0, 1)
  ∧ (∀ other, other ≠ 0 →
       (<[0 := ["file://host/data/a"]]>
          ({[0 := ["file://host/data/a"; "file://host/out/f"]; 1 := ["dir://host/out/"]]}
             : gmap ref (list string))) !! other
       = ({[0 := ["file://host/data/a"; "file://host/out/f"]; 1 := ["dir://host/out/"]]}
            : gmap ref (list string)) !! other)
  ∧ (1 ≠ 0 →
       (<[0 := ["file://host/data/a"]]>
          ({[0 := ["file://host/data/a"; "file://host/out/f"]; 1 := ["dir://host/out/"]]}
             : gmap ref (list string))) !!! 1
       = ({[0 := ["file://host/data/a"; "file://host/out/f"]; 1 := ["dir://host/out/"]]}
            : gmap ref (list string)) !!! 1)
  ∧ (<[0 := ["file://host/data/a"]]>
       ({[0 := ["file://host/data/a"; "file://host/out/f"]; 1 := ["dir://host/out/"]]}
          : gmap ref (list string))) !!! 0
    `sublist_of`
    ({[0 := ["file://host/data/a"; "file://host/out/f"]; 1 := ["dir://host/out/"]]}
       : gmap ref (list string)) !!! 0.
Proof.
  apply (fix_in_files_at_out_dirs_frame 0 1
           {[0 := ["file://host/data/a"; "file://host/out/f"]; 1 := ["dir://host/out/"]]}).
  reflexivity.
Defined.

(** The value the function returns as its second component is the outputs
    list it was given. *)
Lemma fix_in_files_at_out_dirs_outputs inputs_list outputs_list inputs_list' outputs_list' :
  fix_in_files_at_out_dirs inputs_list outputs_list = Ok (inputs_list', outputs_list') →
  outputs_list' = outputs_list ∧ inputs_list' `sublist_of` inputs_list.
Proof.
  unfold fix_in_files_at_out_dirs. intros (l & Hl & [= <- <-])%bind_Ok_inv.
  split; [done|]. by eapply fixed_inputs_sublist.
Qed.

(** With one list object given for both arguments, the outputs the function
    returns have lost the file under the directory. *)
Example fix_in_files_at_out_dirs_alias :
  ∃ store',
    fix_in_files_at_out_dirs_ref 0 0 {[0 := ["dir://host/out/"; "file://host/out/f"]]}
    = Ok (store', (0, 0))
    ∧ store' !!! 0 = ["dir://host/out/"].
Proof. eexists. split; [reflexivity|]. by vm_compute. Qed.

(** * [add_manual_datasets] *)

Section reconciler.
Implicit Types (x url : string) (l data_list directories_list : list string).





End reconciler.




(** The entries the run of the witness keeps and removes: of the three
    entries, the file under the declared directory is removed. *)
Example add_manual_datasets_leading_dirs :
  leading_dir_urls (py_sort ["file://host/c"; "file://host/data/x"; "dir://host/data/"])
  = ["dir://host/data/"]
  ∧ List.filter (not_nested ["/data/"])
      (py_sort ["file://host/c"; "file://host/data/x"; "dir://host/data/"])
    = ["dir://host/data/"; "file://host/c"].
Proof. by vm_compute. Qed.

(** The run of the witness: the declared directory is added, and the file
    in it is removed. *)
Example add_manual_datasets_declared_dir :
  add_manual_datasets data_fs "host" ["/data"] ["file://host/c"; "file://host/data/x"]
  = Ok ["dir://host/data/"; "file://host/c"].
Proof. by vm_compute. Qed.

(** A directory that seeded the prefix set is removed all the same when a
    prefix collected after it is a strict prefix of its path, as with two
    hosts in a sorted list. *)
Example add_manual_datasets_seed_removed :
  Sorted String.le ["dir://h1/a/b/"; "dir://h2/a/"; "file://h2/c"]
  ∧ topmost_dirs ["dir://h1/a/b/"; "dir://h2/a/"; "file://h2/c"] [] = Ok (["/a/b/"; "/a/"], true)
  ∧ add_manual_datasets empty_fs "host" [] ["dir://h1/a/b/"; "dir://h2/a/"; "file://h2/c"]
    = Ok ["dir://h2/a/"; "file://h2/c"].
Proof. split; [repeat constructor; by vm_compute|by vm_compute]. Qed.

(** * More on the classifier *)

Section classifier_records.
Implicit Types (dp_log : list string) (uri token line : string) (i j : nat).

Lemma record_at_snoc dp_log line i r :
  record_at (dp_log ++ [line]) i = Some r →
  record_at dp_log i = Some r ∨ (i = length dp_log ∧ record_of line = Some r).
Proof.
  destruct (decide (i < length dp_log)) as [Hlt|Hge].
  - unfold record_at. rewrite lookup_app_l by done. by left.
  - destruct (decide (i = length dp_log)) as [->|Hne].
    + rewrite record_at_length. by right.
    + unfold record_at. rewrite lookup_ge_None_2; [done|].
      rewrite length_app. simpl. lia.
Qed.

(** What one line does to the membership of a URI in the two sets. *)
Lemma classify_line_outputs inputs outputs line uri :
  uri ∈ (classify_line (inputs, outputs) line).2
  ↔ uri ∈ outputs ∨ ∃ token, record_of line = Some (uri, token) ∧ ¬ in_token token.
Proof.
  destruct (record_of line) as [[u t]|] eqn:Hr.
  - rewrite (classify_line_record _ _ _ _ _ Hr).
    repeat case_decide; simpl; set_unfold; naive_solver.
  - rewrite (classify_line_no_record _ _ Hr). naive_solver.
Qed.

Lemma classify_line_inputs inputs outputs line uri :
  uri ∈ (classify_line (inputs, outputs) line).1
  ↔ uri ∈ inputs
    ∨ ∃ token, record_of line = Some (uri, token) ∧ token ≠ "OUT" ∧ uri ∉ outputs.
Proof.
  destruct (record_of line) as [[u t]|] eqn:Hr.
  - rewrite (classify_line_record _ _ _ _ _ Hr). unfold in_token.
    repeat case_decide; simpl; set_unfold; naive_solver.
  - rewrite (classify_line_no_record _ _ Hr). naive_solver.
Qed.
End classifier_records.

(** The records that make a URI an output. *)
Lemma classify_outputs_records (dp_log : list string) (uri : string) :
  uri ∈ (classify dp_log).2
  ↔ ∃ i token, record_at dp_log i = Some (uri, token) ∧ ¬ in_token token.
Proof.
  induction dp_log as [|line dp_log IH] using rev_ind.
  { unfold classify. simpl. split; [set_solver|]. by intros ([|?] & ? & ? & _). }
  rewrite classify_snoc. destruct (classify dp_log) as [inputs outputs].
  simpl in IH. rewrite classify_line_outputs, IH. split.
  - intros [(i & token & Hr & Ht)|(token & Hr & Ht)].
    + exists i, token. split; [by apply record_at_app_l|done].
    + exists (length dp_log), token. by rewrite record_at_length.
  - intros (i & token & [Hr|[-> Hr]]%record_at_snoc & Ht).
    + left. by exists i, token.
    + right. by exists token.
Qed.

(** X1.  After the classification a URI is in [outputs] exactly when the
    log holds a record of it whose token is neither IN nor IN_DELETE. *)
Theorem classify_outputs_iff (dp_log : list string) (uri : string) :
  uri ∈ (classify dp_log).2
  ↔ ∃ i token, record_at dp_log i = Some (uri, token) ∧ ¬ in_token token.
Proof. apply classify_outputs_records. Qed.

(** X2.  After the classification a URI is in [inputs] exactly when the log
    holds a record of it whose token is not OUT and before which every
    record of it has IN or IN_DELETE: the first record of the URI that is
    more than a read decides, and a URI first met as OUT is never an input. *)
Theorem classify_inputs_iff (dp_log : list string) (uri : string) :
  uri ∈ (classify dp_log).1
  ↔ ∃ i token,
      record_at dp_log i = Some (uri, token) ∧ token ≠ "OUT"
      ∧ ∀ j token', j < i → record_at dp_log j = Some (uri, token') → in_token token'.
Proof.
  induction dp_log as [|line dp_log IH] using rev_ind.
  { unfold classify. simpl. split; [set_solver|]. by intros ([|?] & ? & ? & _). }
  pose proof (classify_outputs_records dp_log uri) as Hout.
  rewrite classify_snoc. destruct (classify dp_log) as [inputs outputs].
  simpl in IH, Hout. rewrite classify_line_inputs, IH. split.
  - intros [(i & token & Hr & Ht & Hbefore)|(token & Hr & Ht & Hnew)].
    + exists i, token. split_and!; [by apply record_at_app_l|done|].
      intros j token' Hj [Hrj|[-> _]]%record_at_snoc; [by eapply Hbefore|].
      apply record_at_lt in Hr. lia.
    + exists (length dp_log), token. rewrite record_at_length.
      split_and!; [done..|].
      intros j token' Hj [Hrj|[-> _]]%record_at_snoc; [|lia].
      destruct (decide (in_token token')) as [|Hnin]; [done|].
      exfalso. apply Hnew, Hout. by exists j, token'.
  - intros (i & token & [Hr|[-> Hr]]%record_at_snoc & Ht & Hbefore).
    + left. exists i, token. split_and!; [done..|].
      intros j token' Hj Hrj. apply (Hbefore j); [done|by apply record_at_app_l].
    + right. exists token. split_and!; [done..|].
      intros (j & token' & Hrj & Hnin)%Hout. apply Hnin.
      apply (Hbefore j); [by eapply record_at_lt|by apply record_at_app_l].
Qed.

(** X3.  The lines that do not hold exactly two fields, such as an empty
    line, a line of one field and a line of three fields, have no effect:
    the classification of a log is that of its lines that hold a record.
    The loop has no other test on a line: a line of the header of the log
    that holds exactly two fields is a record too
    ([classify_two_field_header]). *)
Theorem classify_ignores_other_lines (dp_log : list string) :
  classify dp_log = classify (filter (λ line, is_Some (record_of line)) dp_log).
Proof.
  unfold classify. generalize (∅ : gset string, ∅ : gset string).
  induction dp_log as [|line dp_log IH]; intros st; [done|].
  destruct (record_of line) as [r|] eqn:Hr.
  - rewrite filter_cons_True by (rewrite Hr; by eexists). simpl. apply IH.
  - rewrite filter_cons_False by (rewrite Hr; by intros [? ?]).
    simpl. rewrite (classify_line_no_record _ _ Hr). apply IH.
Qed.

(** A header line of two fields is classified as a record, with its second
    field as the token; the lines around it have no effect. *)
Example classify_two_field_header :
  classify ["3.3" +:+ newline; "my app.py" +:+ newline; newline;
            "a b c" +:+ newline; "file://host/a IN" +:+ newline]
  = ({["my"; "file://host/a"]}, {["my"]}).
Proof. by vm_compute. Qed.
(** * More on [process_accessed_files] *)

Section fix_dir_refs_invariants.
Implicit Types (l : list string) (x url hostname : string) (k bound : nat).

(** A URL that begins with [dir://] has the scheme [dir], when it parses. *)
Lemma urlsplit_dir_prefix s url_parts :
  urlsplit ("dir://" +:+ s) = Ok url_parts → scheme url_parts = "dir".
Proof.
  unfold urlsplit. rewrite string_filter_app.
  change (string_filter _ "dir://") with "dir://".
  change (split_scheme ("dir://" +:+ ?t)) with ("dir", "//" +:+ t).
  cbv beta iota. intros ([nl rest] & _ & Hparts)%bind_Ok_inv.
  repeat destruct (cut_at _ _). by injection Hparts as <-.
Qed.

Lemma count_occ_snoc l x y :
  count_occ string_dec (l ++ [y]) x
  = count_occ string_dec l x + (if decide (y = x) then 1 else 0).
Proof.
  rewrite count_occ_app. simpl. destruct (string_dec y x); by case_decide.
Qed.

(** The loop keeps the length of the list and every entry that parses and is
    not a directory; what it adds is a [dir] URL on this host that ends with
    a slash. *)
Lemma fix_dir_refs_loop_invariant hostname bound k l l' :
  fix_dir_refs_loop hostname bound k l = Ok l' →
  length l' = length l
  ∧ (∀ x, parses x = true → is_dir_url x = false →
          count_occ string_dec l' x = count_occ string_dec l x)
  ∧ (∀ x, x ∈ l' → x ∈ l ∨ ∃ p, x = "dir://" +:+ hostname +:+ p +:+ "/").
Proof.
  revert k l. induction bound as [|bound IH]; intros k l; simpl.
  { destruct (l !! k); [done|]. intros [= <-]. by auto. }
  destruct (l !! k) as [item|] eqn:Hk; [|intros [= <-]; by auto].
  intros (url_parts & Hu & Hloop)%bind_Ok_inv.
  case_decide as Hdir; [|injection Hloop as <-; by auto].
  apply bind_Ok_inv in Hloop as (removed & Hrem & Hloop).
  destruct (IH _ _ Hloop) as (Hlen & Hcount & Helem).
  pose proof (list_remove_length _ _ _ Hrem) as Hlen'.
  rewrite length_app in Hlen'. simpl in Hlen'.
  split_and!; [lia| |].
  - intros x Hparse Hfile. rewrite (Hcount x Hparse Hfile).
    rewrite (count_occ_list_remove _ _ _ _ Hrem), count_occ_snoc.
    assert (item ≠ x) as Hitem.
    { intros ->. unfold is_dir_url in Hfile. rewrite Hu in Hfile.
      by apply bool_decide_eq_false in Hfile. }
    assert ("dir://" +:+ hostname +:+ path url_parts +:+ "/" ≠ x) as Hnew.
    { intros <-. unfold parses, is_dir_url in Hparse, Hfile.
      destruct (urlsplit ("dir://" +:+ _)) as [r|] eqn:Hnew; [|done].
      apply urlsplit_dir_prefix in Hnew. by apply bool_decide_eq_false in Hfile. }
    rewrite (decide_False (P := item = x)) by done.
    rewrite (decide_False (P := _ = x)) by done. lia.
  - intros x [Hx|Hx]%Helem; [|by right].
    apply list_remove_sublist in Hrem. apply (λ H, elem_of_sublist _ _ _ H Hrem) in Hx.
    apply elem_of_app in Hx as [?|Hx]; [by left|].
    apply list_elem_of_singleton in Hx as ->.
    right. by exists (path url_parts).
Qed.

Lemma fix_dir_refs_invariant hostname l l' :
  fix_dir_refs hostname l = Ok l' →
  Sorted String.le l' ∧ length l' = length l
  ∧ (∀ x, parses x = true → is_dir_url x = false → (x ∈ l' ↔ x ∈ l))
  ∧ (∀ x, x ∈ l' → x ∈ l ∨ ∃ p, x = "dir://" +:+ hostname +:+ p +:+ "/").
Proof.
  unfold fix_dir_refs. intros (fixed & Hloop & [= <-])%bind_Ok_inv.
  destruct (fix_dir_refs_loop_invariant _ _ _ _ _ Hloop) as (Hlen & Hcount & Helem).
  split_and!.
  - apply py_sort_sorted.
  - by rewrite (Permutation_length (py_sort_perm fixed)).
  - intros x Hparse Hfile. rewrite py_sort_elem, <- !count_occ_elem.
    by rewrite (Hcount x Hparse Hfile).
  - intros x Hx. apply Helem. by apply (proj1 (py_sort_elem _ _)).
Qed.

(** A list that does not begin with a directory is only sorted again. *)
Lemma fix_dir_refs_no_dir hostname l :
  (∀ x, x ∈ l → parses x = true ∧ is_dir_url x = false) →
  fix_dir_refs hostname l = Ok (py_sort l).
Proof.
  intros Hl. unfold fix_dir_refs.
  assert (fix_dir_refs_loop hostname (length l) 0 l = Ok l) as ->; [|done].
  destruct l as [|item l]; [done|].
  destruct (Hl item (list_elem_of_here _ _)) as [Hparse Hfile].
  unfold parses, is_dir_url in *. simpl.
  destruct (urlsplit item) as [r|]; [|done]. rewrite bind_Ok.
  apply bool_decide_eq_false in Hfile. by rewrite decide_False.
Qed.
End fix_dir_refs_invariants.

(** X4.  When the function returns, its two lists are sorted, each has as
    many entries as the set it comes from has URIs, a URI that parses and is
    not a [dir] URL is in a list exactly when it is in the set, and every
    entry that is not in the set is a [dir] URL on this host that ends with
    a slash: the scheme fix-up neither drops nor alters a file. *)
Theorem process_accessed_files_keeps_files (hostname : string) (dp_log : list string)
    (l_ins l_outs : list string) :
  process_accessed_files hostname dp_log = Ok (l_ins, l_outs) →
  Sorted String.le l_ins ∧ Sorted String.le l_outs
  ∧ length l_ins = size (classify dp_log).1 ∧ length l_outs = size (classify dp_log).2
  ∧ (∀ x, parses x = true → is_dir_url x = false →
       (x ∈ l_ins ↔ x ∈ (classify dp_log).1) ∧ (x ∈ l_outs ↔ x ∈ (classify dp_log).2))
  ∧ (∀ x, x ∈ l_ins ++ l_outs →
       x ∈ (classify dp_log).1 ∪ (classify dp_log).2
       ∨ ∃ p, x = "dir://" +:+ hostname +:+ p +:+ "/").
Proof.
  unfold process_accessed_files. destruct (classify dp_log) as [inputs outputs].
  intros (ins & Hins & Hrest)%bind_Ok_inv.
  apply bind_Ok_inv in Hrest as (outs & Houts & [= <- <-]).
  destruct (fix_dir_refs_invariant _ _ _ Hins) as (Hs1 & Hl1 & He1 & Hn1).
  destruct (fix_dir_refs_invariant _ _ _ Houts) as (Hs2 & Hl2 & He2 & Hn2).
  simpl. split_and!; [done..| | | |].
  - by rewrite Hl1, (Permutation_length (py_sort_perm _)).
  - by rewrite Hl2, (Permutation_length (py_sort_perm _)).
  - intros x Hparse Hfile.
    rewrite (He1 x Hparse Hfile), (He2 x Hparse Hfile), !py_sort_elem.
    by rewrite !elem_of_elements.
  - intros x [Hx|Hx]%elem_of_app.
    + destruct (Hn1 x Hx) as [Hin|?]; [|by right]. left.
      apply (proj1 (py_sort_elem _ _)), elem_of_elements in Hin. set_solver.
    + destruct (Hn2 x Hx) as [Hin|?]; [|by right]. left.
      apply (proj1 (py_sort_elem _ _)), elem_of_elements in Hin. set_solver.
Qed.

Lemma process_accessed_files_keeps_files_witness :
  Sorted String.le ["dir://host/d/"; "file://host/a"; "file://host/b"]
  ∧ Sorted String.le ["file://host/c"]
  ∧ length ["dir://host/d/"; "file://host/a"; "file://host/b"]
    = size (classify ["file://host/b IN"; "dir://host/d IN"; "file://host/a IN";
                      "file://host/c OUT"]).1
  ∧ length ["file://host/c"]
    = size (classify ["file://host/b IN"; "dir://host/d IN"; "file://host/a IN";
                      "file://host/c OUT"]).2
  ∧ (∀ x, parses x = true → is_dir_url x = false →
       (x ∈ ["dir://host/d/"; "file://host/a"; "file://host/b"]
        ↔ x ∈ (classify ["file://host/b IN"; "dir://host/d IN"; "file://host/a IN";
                         "file://host/c OUT"]).1)
       ∧ (x ∈ ["file://host/c"]
          ↔ x ∈ (classify ["file://host/b IN"; "dir://host/d IN"; "file://host/a IN";
                           "file://host/c OUT"]).2))
  ∧ (∀ x, x ∈ ["dir://host/d/"; "file://host/a"; "file://host/b"] ++ ["file://host/c"] →
       x ∈ (classify ["file://host/b IN"; "dir://host/d IN"; "file://host/a IN";
                      "file://host/c OUT"]).1
           ∪ (classify ["file://host/b IN"; "dir://host/d IN"; "file://host/a IN";
                        "file://host/c OUT"]).2
       ∨ ∃ p, x = "dir://" +:+ "host" +:+ p +:+ "/").
Proof.
  apply (process_accessed_files_keeps_files "host"
           ["file://host/b IN"; "dir://host/d IN"; "file://host/a IN"; "file://host/c OUT"]).
  by vm_compute.
Defined.

(** X5.  When every URI of the log parses and none is a [dir] URL, the
    function returns the two sets as sorted lists without duplicates. *)
Theorem process_accessed_files_no_dir (hostname : string) (dp_log : list string) :
  (∀ x, x ∈ (classify dp_log).1 ∪ (classify dp_log).2 →
        parses x = true ∧ is_dir_url x = false) →
  ∃ l_ins l_outs,
    process_accessed_files hostname dp_log = Ok (l_ins, l_outs)
    ∧ Sorted String.le l_ins ∧ NoDup l_ins ∧ (∀ x, x ∈ l_ins ↔ x ∈ (classify dp_log).1)
    ∧ Sorted String.le l_outs ∧ NoDup l_outs ∧ (∀ x, x ∈ l_outs ↔ x ∈ (classify dp_log).2).
Proof.
  unfold process_accessed_files. destruct (classify dp_log) as [inputs outputs].
  simpl. intros Hall.
  rewrite !fix_dir_refs_no_dir.
  - eexists _, _. split; [reflexivity|].
    split_and!; try apply py_sort_sorted.
    + rewrite !py_sort_perm. apply NoDup_elements.
    + intros x. by rewrite !py_sort_elem, elem_of_elements.
    + rewrite !py_sort_perm. apply NoDup_elements.
    + intros x. by rewrite !py_sort_elem, elem_of_elements.
  - intros x Hx%py_sort_elem%elem_of_elements. apply Hall. set_solver.
  - intros x Hx%py_sort_elem%elem_of_elements. apply Hall. set_solver.
Qed.

Lemma process_accessed_files_no_dir_witness :
  ∃ l_ins l_outs,
    process_accessed_files "host" ["file://host/b IN"; "file://host/a IN"; "file://host/c OUT"]
    = Ok (l_ins, l_outs)
    ∧ Sorted String.le l_ins ∧ NoDup l_ins
    ∧ (∀ x, x ∈ l_ins
            ↔ x ∈ (classify ["file://host/b IN"; "file://host/a IN"; "file://host/c OUT"]).1)
    ∧ Sorted String.le l_outs ∧ NoDup l_outs
    ∧ (∀ x, x ∈ l_outs
            ↔ x ∈ (classify ["file://host/b IN"; "file://host/a IN"; "file://host/c OUT"]).2).
Proof.
  apply (process_accessed_files_no_dir "host"
           ["file://host/b IN"; "file://host/a IN"; "file://host/c OUT"]).
  intros x Hx%elem_of_elements.
  remember (elements _) as l eqn:Hl in Hx. vm_compute in Hl. subst l.
  repeat (apply elem_of_cons in Hx as [->|Hx]; [by vm_compute|]).
  by apply elem_of_nil in Hx.
Defined.
(** * More on [get_common_paths] *)

Section leading_directories.
Implicit Types (url p : string) (dirs rest acc : list string).

Lemma append_new_NoDup p acc : NoDup acc → NoDup (append_new p acc).
Proof.
  intros Hacc. unfold append_new. case_decide as Hp; [done|].
  apply NoDup_app. split_and!; [done| |apply NoDup_singleton].
  by intros q Hq ->%list_elem_of_singleton.
Qed.

(** The first loop goes through the leading directories and collects their
    paths, each one once. *)
Lemma leading_dirs_dirs dirs rest acc :
  (∀ url, url ∈ dirs → is_dir_url url = true) →
  ∃ acc',
    leading_dirs (dirs ++ rest) acc = leading_dirs rest acc'
    ∧ (NoDup acc → NoDup acc')
    ∧ ∀ p, p ∈ acc' ↔ p ∈ acc ∨ ∃ url, url ∈ dirs ∧ url_path url = p.
Proof.
  revert acc. induction dirs as [|item dirs IH]; intros acc Hdirs.
  { exists acc. split_and!; [done..|]. intros p. split; [by left|].
    intros [?|(url & []%elem_of_nil & _)]. done. }
  destruct (is_dir_url_true item) as (url_parts & Hu & Hs & Hp).
  { apply Hdirs. by left. }
  destruct (IH (append_new (path url_parts) acc)) as (acc' & Heq & Hnodup & Helem).
  { intros url Hurl. apply Hdirs. by right. }
  exists acc'. split_and!.
  - simpl. by rewrite Hu, bind_Ok, decide_True.
  - intros Hacc. by apply Hnodup, append_new_NoDup.
  - intros p. rewrite Helem, append_new_elem. split.
    + intros [[->|?]|(url & Hurl & Hpath)]; [|by left|].
      * right. exists item. split; [by left|done].
      * right. exists url. split; [by right|done].
    + intros [?|(url & [->|Hurl]%elem_of_cons & Hpath)]; [by auto| |].
      * left. left. by rewrite <- Hpath.
      * right. by exists url.
Qed.

Lemma leading_dirs_file item rest acc :
  parses item = true → is_dir_url item = false →
  leading_dirs (item :: rest) acc = Ok (acc, item :: rest).
Proof.
  intros Hparse Hfile.
  destruct (is_dir_url_false item Hparse Hfile) as (url_parts & Hu & Hs & _).
  simpl. by rewrite Hu, bind_Ok, decide_False.
Qed.

Lemma get_common_paths_unfold url_list :
  get_common_paths url_list =
    '(list_common_paths, from_file) ← leading_dirs url_list [];
    match from_file with
    | [] => Ok list_common_paths
    | first_file :: url_files_list =>
        url_parts ← urlsplit first_file;
        common_path ← parent_dir (path url_parts);
        '(common_path, list_common_paths) ←
          common_paths_loop url_files_list common_path list_common_paths;
        let list_common_paths := append_new common_path list_common_paths in
        end_slash_loop (length list_common_paths) 0 list_common_paths
    end.
Proof. by destruct url_list. Qed.
End leading_directories.

(** X6.  On a list of directories only, the resolver returns the paths of
    the directories as they are, each one once: the loop that adds the
    final slashes is not reached. *)
Theorem get_common_paths_all_dirs (url_list : list string) :
  (∀ url, url ∈ url_list → is_dir_url url = true) →
  ∃ paths,
    get_common_paths url_list = Ok paths ∧ NoDup paths
    ∧ ∀ p, p ∈ paths ↔ ∃ url, url ∈ url_list ∧ url_path url = p.
Proof.
  intros Hdirs.
  destruct (leading_dirs_dirs url_list [] [] Hdirs) as (paths & Heq & Hnodup & Helem).
  rewrite List.app_nil_r in Heq. exists paths. split_and!.
  - by rewrite get_common_paths_unfold, Heq.
  - apply Hnodup. constructor.
  - intros p. rewrite Helem. split; [|by auto].
    by intros [[]%elem_of_nil|?].
Qed.

Lemma get_common_paths_all_dirs_witness :
  ∃ paths,
    get_common_paths ["dir://host/a/"; "dir://host/b"; "dir://other/a/"] = Ok paths
    ∧ NoDup paths
    ∧ ∀ p, p ∈ paths ↔
        ∃ url, url ∈ ["dir://host/a/"; "dir://host/b"; "dir://other/a/"]
               ∧ url_path url = p.
Proof.
  apply get_common_paths_all_dirs.
  intros url Hurl. repeat (apply elem_of_cons in Hurl as [->|Hurl]; [by vm_compute|]).
  by apply elem_of_nil in Hurl.
Defined.

(** X7.  When the first entry that is not a directory is a URL whose path
    has no component, as [file://host] and [file://host/], the resolver
    raises [IndexError]: the path has no parent. *)
Theorem get_common_paths_no_parent (dirs rest : list string) (url : string) :
  (∀ dir, dir ∈ dirs → is_dir_url dir = true) →
  parses url = true → is_dir_url url = false →
  components (url_path url) = [] →
  get_common_paths (dirs ++ url :: rest) = Raise IndexError.
Proof.
  intros Hdirs Hparse Hfile Hnone.
  destruct (leading_dirs_dirs dirs (url :: rest) [] Hdirs) as (acc & Heq & _).
  rewrite get_common_paths_unfold, Heq, leading_dirs_file, bind_Ok by done.
  destruct (is_dir_url_false url Hparse Hfile) as (url_parts & Hu & _ & Hp).
  rewrite Hu, bind_Ok. unfold parent_dir. by rewrite Hp, Hnone.
Qed.

Lemma get_common_paths_no_parent_witness :
  get_common_paths (["dir://host/a/"] ++ "file://host/" :: ["file://host/b/c"])
  = Raise IndexError.
Proof.
  apply get_common_paths_no_parent; [|by vm_compute..].
  intros dir ->%list_elem_of_singleton. by vm_compute.
Defined.
(** * The paths of [get_common_paths] cover the files *)

Section covering.
Implicit Types (url p q : string) (cs d e : list string)
  (files seen lcp : list string).

#[local] Abbreviation names := (Forall (λ c, is_name c = true)).

Lemma common_prefix_l (l1 l2 : list string) : common_prefix l1 l2 `prefix_of` l1.
Proof.
  revert l2. induction l1 as [|x l1 IH]; intros [|y l2]; simpl;
    try apply prefix_nil.
  case_decide; [|apply prefix_nil]. by apply prefix_cons.
Qed.

Lemma common_prefix_r (l1 l2 : list string) : common_prefix l1 l2 `prefix_of` l2.
Proof.
  revert l2. induction l1 as [|x l1 IH]; intros [|y l2]; simpl;
    try apply prefix_nil.
  case_decide as Hxy; [|apply prefix_nil]. subst y. by apply prefix_cons.
Qed.

Lemma common_prefix_glb e (l1 l2 : list string) :
  e `prefix_of` l1 → e `prefix_of` l2 → e `prefix_of` common_prefix l1 l2.
Proof.
  revert l1 l2. induction e as [|x e IH]; intros l1 l2; [intros; apply prefix_nil|].
  intros [k1 ->] [k2 ->]. simpl. rewrite decide_True by done.
  apply prefix_cons, IH; by eexists.
Qed.

Lemma names_prefix e cs : names cs → e `prefix_of` cs → names e.
Proof. intros Hcs [k ->]. by apply Forall_app in Hcs as [? _]. Qed.

Lemma removelast_prefix cs : removelast cs `prefix_of` cs.
Proof.
  destruct cs as [|c cs _] using rev_ind; [done|].
  rewrite removelast_last. by eexists.
Qed.

Lemma commonpath_names cs d :
  names cs → names d →
  commonpath (abs_path cs) (abs_path d) = Ok (abs_path (common_prefix cs d)).
Proof.
  intros Hcs Hd. unfold commonpath.
  by rewrite !components_abs_path, !is_abs_abs_path.
Qed.

Lemma parent_dir_names cs :
  cs ≠ [] → names cs → parent_dir (abs_path cs) = Ok (abs_path (removelast cs)).
Proof.
  intros Hne Hcs. destruct cs as [|name cs _] using rev_ind; [done|].
  apply Forall_app in Hcs as [Hcs [Hname _]%Forall_cons].
  by rewrite removelast_last, parent_dir_abs_path.
Qed.

Lemma abs_path_nonempty cs : abs_path cs ≠ "".
Proof. done. Qed.

Lemma normal_file_inv url :
  normal_file url →
  ∃ url_parts cs,
    urlsplit url = Ok url_parts ∧ cs ≠ [] ∧ names cs
    ∧ path url_parts = abs_path cs ∧ components (url_path url) = cs
    ∧ parses url = true ∧ is_dir_url url = false.
Proof.
  intros (url_parts & cs & Hu & Hs & Hne & Hcs & Hp).
  exists url_parts, cs. unfold url_path, parses, is_dir_url. rewrite Hu, Hp.
  split_and!; [done..|by apply components_abs_path|done|].
  by apply bool_decide_eq_false.
Qed.

(** The loop over the files keeps a common path that is a normal absolute
    path; every file it has seen lies under the common path or under a
    path it has stored; and it stores nothing but common paths it had,
    each of them at or above the directory of a file. *)
Lemma common_paths_loop_covers files seen d lcp :
  Forall normal_file files → names d →
  (∀ url, url ∈ seen → ∃ p, p ∈ abs_path d :: lcp ∧ lies_under url p) →
  ∃ d' lcp',
    common_paths_loop files (abs_path d) lcp = Ok (abs_path d', lcp')
    ∧ names d'
    ∧ (∀ url, url ∈ seen ++ files →
              ∃ p, p ∈ abs_path d' :: lcp' ∧ lies_under url p)
    ∧ (∀ p, p ∈ abs_path d' :: lcp' →
            p ∈ lcp
            ∨ ∃ e, p = abs_path e ∧ names e
                   ∧ (e `prefix_of` d
                      ∨ ∃ url, url ∈ files ∧ e `prefix_of` dir_of url)).
Proof.
  intros Hfiles. revert seen d lcp.
  induction Hfiles as [|item rest Hitem _ IH]; intros seen d lcp Hd Hseen.
  { exists d, lcp. split_and!; [done..| |].
    - intros url. rewrite List.app_nil_r. apply Hseen.
    - intros p [->|Hp]%elem_of_cons; [|by left].
      right. exists d. by auto. }
  destruct (normal_file_inv _ Hitem)
    as (url_parts & cs & Hu & Hne & Hcs & Hp & Hcomp & _).
  assert (∀ e, names e → e `prefix_of` cs → lies_under item (abs_path e)) as Hunder.
  { intros e He Hpre. unfold lies_under. by rewrite Hcomp, components_abs_path. }
  simpl. rewrite Hu, bind_Ok, Hp, commonpath_names, bind_Ok by done.
  pose proof (common_prefix_l cs d) as Hl.
  pose proof (common_prefix_r cs d) as Hr.
  pose proof (names_prefix _ _ Hd Hr) as Hcp.
  destruct (decide (common_prefix cs d = [])) as [Hnil|Hcons].
  - rewrite Hnil. rewrite decide_False by (intros Hneq; by apply Hneq).
    rewrite parent_dir_names, bind_Ok by done.
    pose proof (removelast_prefix cs) as Hparent.
    pose proof (names_prefix _ _ Hcs Hparent) as Hparent_names.
    destruct (IH (seen ++ [item]) (removelast cs) (append_new (abs_path d) lcp))
      as (d' & lcp' & -> & Hd' & Hcover & Hsound); [done| |].
    { intros url [Hurl|Hurl]%elem_of_app;
        [|apply list_elem_of_singleton in Hurl as ->].
      - destruct (Hseen url Hurl) as (p & Hin & Hup). exists p. split; [|done].
        right. apply append_new_elem. by apply elem_of_cons in Hin as [->|?]; auto.
      - exists (abs_path (removelast cs)). split; [by left|by apply Hunder]. }
    exists d', lcp'. split_and!; [done..| |].
    + intros url Hurl. apply Hcover. by rewrite <- List.app_assoc.
    + intros p Hin. destruct (Hsound p Hin) as [Hold|(e & -> & He & Hfrom)].
      * apply append_new_elem in Hold as [->|?]; [|by left].
        right. exists d. by auto.
      * right. exists e. split_and!; [done..|]. right.
        destruct Hfrom as [Hpre|(url & Hurl & Hup)].
        -- exists item. split; [by left|]. unfold dir_of. by rewrite Hcomp.
        -- exists url. split; [by right|done].
  - rewrite decide_True by by apply abs_path_not_root.
    destruct (IH (seen ++ [item]) (common_prefix cs d) lcp)
      as (d' & lcp' & -> & Hd' & Hcover & Hsound); [done| |].
    { intros url [Hurl|Hurl]%elem_of_app;
        [|apply list_elem_of_singleton in Hurl as ->].
      - destruct (Hseen url Hurl) as (p & [->|Hin]%elem_of_cons & Hup).
        + exists (abs_path (common_prefix cs d)). split; [by left|].
          unfold lies_under in *. rewrite components_abs_path in * by done.
          by etrans.
        + exists p. split; [by right|done].
      - exists (abs_path (common_prefix cs d)). split; [by left|by apply Hunder]. }
    exists d', lcp'. split_and!; [done..| |].
    + intros url Hurl. apply Hcover. by rewrite <- List.app_assoc.
    + intros p Hin. destruct (Hsound p Hin) as [Hold|(e & -> & He & Hfrom)].
      * by left.
      * right. exists e. split_and!; [done..|].
        destruct Hfrom as [Hpre|(url & Hurl & Hup)].
        -- left. by etrans.
        -- right. exists url. split; [by right|done].
Qed.

Lemma split_not_nil (sep : ascii) (s : string) : split sep s ≠ [].
Proof.
  destruct s as [|c s]; [done|]. simpl.
  destruct (decide (c = sep)); [done|]. by destruct (split sep s).
Qed.

Lemma split_snoc_sep (sep : ascii) (s : string) :
  split sep (s +:+ String sep "") = split sep s ++ [""].
Proof.
  induction s as [|c s IH].
  { rewrite app_nil_l. simpl. by rewrite decide_True. }
  rewrite app_cons. simpl. rewrite IH.
  destruct (decide (c = sep)); [done|].
  pose proof (split_not_nil sep s). by destruct (split sep s).
Qed.

(** A final slash adds no component. *)
Lemma components_end_slash p : components (p +:+ "/") = components p.
Proof.
  unfold components. rewrite split_snoc_sep, List.filter_app. simpl.
  by rewrite List.app_nil_r.
Qed.

(** The last loop, on paths none of which is empty, ends without an
    exception; it keeps the paths that end with a slash, and keeps each of
    the others or replaces it by the path with a slash added. *)
Lemma end_slash_loop_elems bound k lcp :
  (∀ p, p ∈ lcp → p ≠ "") → length lcp ≤ bound + k →
  ∃ lcp',
    end_slash_loop bound k lcp = Ok lcp'
    ∧ (∀ p, p ∈ lcp → ends_with_slash p = true → p ∈ lcp')
    ∧ (∀ p, p ∈ lcp → p ∈ lcp' ∨ p +:+ "/" ∈ lcp')
    ∧ (∀ q, q ∈ lcp' →
            q ∈ lcp ∨ ∃ p, p ∈ lcp ∧ ends_with_slash p = false ∧ q = p +:+ "/").
Proof.
  revert k lcp. induction bound as [|bound IH]; intros k lcp Hne Hlen.
  { rewrite end_slash_loop_end by (apply lookup_ge_None; lia).
    exists lcp. by auto. }
  destruct (lcp !! k) as [item|] eqn:Hk.
  2:{ rewrite end_slash_loop_end by done. exists lcp. by auto. }
  rewrite (end_slash_loop_turn _ _ _ item) by done.
  pose proof (list_elem_of_lookup_2 _ _ _ Hk) as Hitem.
  destruct (last_char item) as [c|e] eqn:Hc.
  2:{ apply last_char_Raise in Hc as [_ ->]. by destruct (Hne "" Hitem). }
  rewrite bind_Ok. case_decide as Hslash; [|apply IH; [done|lia]].
  assert (ends_with_slash item = false) as Hopen.
  { unfold ends_with_slash. rewrite Hc. by apply bool_decide_eq_false. }
  assert (ends_with_slash (item +:+ "/") = true) as Hclosed.
  { unfold ends_with_slash. by rewrite last_char_app. }
  destruct (list_remove_elem item (lcp ++ [item +:+ "/"])) as [removed Hrem].
  { apply elem_of_app. by left. }
  rewrite Hrem, bind_Ok.
  pose proof (list_remove_length _ _ _ Hrem) as Hlen'.
  rewrite length_app in Hlen'. simpl in Hlen'.
  assert (∀ p, p ∈ removed → p ∈ lcp ∨ p = item +:+ "/") as Hfrom.
  { intros p Hp. apply list_remove_sublist in Hrem.
    apply (λ H, elem_of_sublist _ _ _ H Hrem) in Hp.
    apply elem_of_app in Hp as [?|Hp]; [by left|].
    apply list_elem_of_singleton in Hp as ->. by right. }
  assert (∀ p, p ∈ lcp ++ [item +:+ "/"] → p ≠ item → p ∈ removed) as Hto.
  { intros p Hp Hdiff. apply count_occ_elem.
    rewrite (count_occ_list_remove _ _ _ _ Hrem), decide_False by done.
    by apply count_occ_elem. }
  assert (item +:+ "/" ∈ removed) as Hnew.
  { apply Hto; [|congruence].
    apply elem_of_app. right. by apply list_elem_of_singleton. }
  destruct (IH (S k) removed) as (lcp' & -> & Hkeep & Hturn & Hnothing); [|lia|].
  { intros p [Hp|Hp]%Hfrom; [by apply Hne|]. subst p. by destruct item. }
  exists lcp'. split_and!; [done| | |].
  - intros p Hp Hend. apply Hkeep; [|done]. apply Hto; [|congruence].
    apply elem_of_app. by left.
  - intros p Hp. destruct (decide (p = item)) as [->|Hdiff].
    + right. by apply Hkeep.
    + apply Hturn, Hto; [|done]. apply elem_of_app. by left.
  - intros q [Hq|(p & Hp & Hend & ->)]%Hnothing.
    + apply Hfrom in Hq as [?| ->]; [by left|]. right. by exists item.
    + right. exists p. split_and!; [|done..].
      apply Hfrom in Hp as [?| ->]; [done|congruence].
Qed.
End covering.

Lemma lies_under_path url : lies_under url (url_path url).
Proof. by unfold lies_under. Qed.

(** X8.  On a list of directories with a path, followed by files with
    normal absolute paths, the resolver returns without an exception; every
    entry of the list lies at or under one of the returned paths, and every
    returned path lies at or above an entry of the list. *)
Theorem get_common_paths_covers (dirs files : list string) :
  (∀ dir, dir ∈ dirs → is_dir_url dir = true ∧ url_path dir ≠ "") →
  Forall normal_file files →
  ∃ paths,
    get_common_paths (dirs ++ files) = Ok paths
    ∧ (∀ url, url ∈ dirs ++ files → ∃ p, p ∈ paths ∧ lies_under url p)
    ∧ (∀ p, p ∈ paths → ∃ url, url ∈ dirs ++ files ∧ lies_under url p).
Proof.
  intros Hdirs Hfiles.
  destruct (leading_dirs_dirs dirs files []) as (acc & Heq & _ & Hacc).
  { intros dir Hdir. by apply Hdirs. }
  assert (∀ p, p ∈ acc ↔ ∃ dir, dir ∈ dirs ∧ url_path dir = p) as Hacc'.
  { intros p. rewrite Hacc. split; [|by auto]. by intros [[]%elem_of_nil|?]. }
  clear Hacc. rewrite get_common_paths_unfold, Heq. clear Heq.
  destruct files as [|first rest].
  { exists acc. rewrite List.app_nil_r. split_and!; [done| |].
    - intros dir Hdir. exists (url_path dir). split; [|apply lies_under_path].
      apply Hacc'. by exists dir.
    - intros p (dir & Hdir & <-)%Hacc'. exists dir.
      split; [done|apply lies_under_path]. }
  apply Forall_cons in Hfiles as [Hfirst Hrest].
  destruct (normal_file_inv _ Hfirst)
    as (url_parts & cs & Hu & Hne & Hcs & Hp & Hcomp & Hparse & Hfile).
  rewrite leading_dirs_file, bind_Ok by done.
  rewrite Hu, bind_Ok, Hp, parent_dir_names, bind_Ok by done.
  pose proof (removelast_prefix cs) as Hparent.
  pose proof (names_prefix _ _ Hcs Hparent) as Hparent_names.
  destruct (common_paths_loop_covers rest (dirs ++ [first]) (removelast cs) acc)
    as (d' & lcp' & -> & Hd' & Hcover & Hsound); [done..| |].
  { intros url [Hdir|Hurl]%elem_of_app.
    - exists (url_path url). split; [|apply lies_under_path].
      right. apply Hacc'. by exists url.
    - apply list_elem_of_singleton in Hurl as ->.
      exists (abs_path (removelast cs)). split; [by left|].
      unfold lies_under. by rewrite Hcomp, components_abs_path. }
  rewrite bind_Ok. cbv zeta.
  set (lcp := append_new (abs_path d') lcp').
  assert (∀ p, p ∈ lcp ↔ p ∈ abs_path d' :: lcp') as Hlcp.
  { intros p. unfold lcp. by rewrite append_new_elem, elem_of_cons. }
  assert (∀ p, p ∈ lcp → ∃ url, url ∈ dirs ++ first :: rest ∧ lies_under url p)
    as Hlcp_sound.
  { intros p [Hold|(e & -> & He & Hfrom)]%Hlcp%Hsound.
    - apply Hacc' in Hold as (dir & Hdir & <-). exists dir.
      split; [|apply lies_under_path]. apply elem_of_app. by left.
    - destruct Hfrom as [Hpre|(url & Hurl & Hup)].
      + exists first. split; [apply elem_of_app; right; by left|].
        unfold lies_under. rewrite Hcomp, components_abs_path by done.
        by etrans.
      + exists url. split; [apply elem_of_app; right; by right|].
        unfold lies_under. rewrite components_abs_path by done.
        etrans; [done|apply removelast_prefix]. }
  destruct (end_slash_loop_elems (length lcp) 0 lcp)
    as (paths & -> & _ & Hturn & Hnothing); [|lia|].
  { intros p [Hold|(e & -> & _)]%Hlcp%Hsound; [|done].
    apply Hacc' in Hold as (dir & Hdir & <-). by apply Hdirs. }
  exists paths. split_and!; [done| |].
  - intros url Hurl. destruct (Hcover url) as (p & Hin%Hlcp & Hup).
    { by rewrite <- List.app_assoc. }
    destruct (Hturn p Hin) as [?|?]; [by exists p|].
    exists (p +:+ "/"). split; [done|].
    unfold lies_under. by rewrite components_end_slash.
  - intros q [Hq|(p & Hin & _ & ->)]%Hnothing; [by apply Hlcp_sound|].
    destruct (Hlcp_sound p Hin) as (url & Hurl & Hup). exists url.
    split; [done|]. unfold lies_under. by rewrite components_end_slash.
Qed.

Lemma get_common_paths_covers_witness :
  ∃ paths,
    get_common_paths (["dir://host/d/"] ++ ["file://host/a/f1"; "file://host/b/f2"])
    = Ok paths
    ∧ (∀ url, url ∈ ["dir://host/d/"] ++ ["file://host/a/f1"; "file://host/b/f2"] →
              ∃ p, p ∈ paths ∧ lies_under url p)
    ∧ (∀ p, p ∈ paths →
            ∃ url, url ∈ ["dir://host/d/"] ++ ["file://host/a/f1"; "file://host/b/f2"]
                   ∧ lies_under url p).
Proof.
  apply get_common_paths_covers.
  - intros dir ->%list_elem_of_singleton. by vm_compute.
  - repeat constructor.
    + exists (mkSplit "file" "host" "/a/f1" "" ""), ["a"; "f1"].
      split_and!; [done..|repeat constructor|done].
    + exists (mkSplit "file" "host" "/b/f2" "" ""), ["b"; "f2"].
      split_and!; [done..|repeat constructor|done].
Defined.

Section one_root.
Variable c : string.
Implicit Types (url : string) (d e files : list string).

#[local] Abbreviation names := (Forall (λ c, is_name c = true)).

(** The loop over files that all lie under the directory [c] of the root
    never stores a path: it shortens the common path to what it shares
    with each file. *)
Lemma common_paths_loop_one_root files d :
  (∀ url, url ∈ files →
          normal_file url ∧ ∃ rest, components (url_path url) = c :: rest) →
  names (c :: d) →
  ∃ d',
    common_paths_loop files (abs_path (c :: d)) [] = Ok (abs_path (c :: d'), [])
    ∧ names (c :: d')
    ∧ c :: d' `prefix_of` c :: d
    ∧ (∀ url, url ∈ files → c :: d' `prefix_of` components (url_path url))
    ∧ (∀ e, e `prefix_of` c :: d →
            (∀ url, url ∈ files → e `prefix_of` components (url_path url)) →
            e `prefix_of` c :: d').
Proof.
  revert d. induction files as [|item rest IH]; intros d Hfiles Hd.
  { exists d. split_and!; [done..| |by auto]. by intros url ?%elem_of_nil. }
  destruct (Hfiles item) as [Hitem [tail Htail]]; [by left|].
  destruct (normal_file_inv _ Hitem)
    as (url_parts & cs & Hu & Hne & Hcs & Hp & Hcomp & _).
  rewrite Htail in Hcomp. subst cs.
  simpl common_paths_loop. rewrite Hu, bind_Ok, Hp, commonpath_names, bind_Ok by done.
  simpl common_prefix. rewrite (decide_True (P := c = c)) by done.
  pose proof (common_prefix_l tail d) as Hl.
  pose proof (common_prefix_r tail d) as Hr.
  assert (names (c :: common_prefix tail d)) as Hcp.
  { apply (names_prefix _ (c :: d)); [done|by apply prefix_cons]. }
  rewrite decide_True by by apply abs_path_not_root.
  destruct (IH (common_prefix tail d)) as (d' & -> & Hd' & Hpre & Hall & Hmax);
    [|done|].
  { intros url Hurl. apply Hfiles. by right. }
  exists d'. split_and!; [done..| | |].
  - etrans; [done|]. by apply prefix_cons.
  - intros url [->|Hurl]%elem_of_cons; [|by apply Hall].
    rewrite Htail. etrans; [done|]. by apply prefix_cons.
  - intros e He Hfile. apply Hmax.
    + specialize (Hfile item (list_elem_of_here _ _)). rewrite Htail in Hfile.
      by apply (common_prefix_glb e (c :: tail) (c :: d)) in Hfile as Hglb;
        [simpl in Hglb; rewrite decide_True in Hglb|].
    + intros url Hurl. apply Hfile. by right.
Qed.
End one_root.

(** The resolver on files that all lie under the directory [c] of the
    root. *)
Lemma get_common_paths_one_root_aux (c : string) (url_list : list string) :
  url_list ≠ [] →
  (∀ url, url ∈ url_list →
          normal_file url
          ∧ ∃ rest, rest ≠ [] ∧ components (url_path url) = c :: rest) →
  ∃ e,
    get_common_paths url_list = Ok [dir_prefix (c :: e)]
    ∧ Forall (λ c, is_name c = true) (c :: e)
    ∧ (∃ url, url ∈ url_list ∧ c :: e `prefix_of` dir_of url)
    ∧ (∀ url, url ∈ url_list → c :: e `prefix_of` components (url_path url))
    ∧ (∀ e', (∀ url, url ∈ url_list → e' `prefix_of` dir_of url) →
             e' `prefix_of` c :: e).
Proof.
  intros Hne Hfiles. destruct url_list as [|first rest]; [done|]. clear Hne.
  destruct (Hfiles first) as [Hfirst (tail & Htail_ne & Htail)]; [by left|].
  destruct (normal_file_inv _ Hfirst)
    as (url_parts & cs & Hu & Hne & Hcs & Hp & Hcomp & Hparse & Hfile).
  rewrite Htail in Hcomp. subst cs.
  rewrite get_common_paths_unfold, leading_dirs_file, bind_Ok by done.
  rewrite Hu, bind_Ok, Hp, parent_dir_names, bind_Ok by done.
  assert (removelast (c :: tail) = c :: removelast tail) as Hparent.
  { by destruct tail. }
  pose proof (removelast_prefix (c :: tail)) as Hpre. rewrite Hparent in *.
  pose proof (names_prefix _ _ Hcs Hpre) as Hd.
  destruct (common_paths_loop_one_root c rest (removelast tail))
    as (d' & -> & Hd' & Hshorter & Hall & Hmax); [|done|].
  { intros url Hurl. destruct (Hfiles url) as [? (t & _ & ?)]; [by right|].
    by eauto. }
  rewrite bind_Ok. cbv zeta.
  change (append_new ?p []) with [p]. simpl length.
  rewrite (end_slash_loop_same_dir (c :: d')) by done.
  exists d'. split_and!; [done..| | |].
  - exists first. split; [by left|]. unfold dir_of. by rewrite Htail, Hparent.
  - intros url [->|Hurl]%elem_of_cons.
    + rewrite Htail. by etrans.
    + by apply Hall.
  - intros e' He'. apply Hmax.
    + specialize (He' first (list_elem_of_here _ _)).
      unfold dir_of in He'. by rewrite Htail, Hparent in He'.
    + intros url Hurl. etrans; [apply He'; by right|].
      apply removelast_prefix.
Qed.

Lemma components_dir_prefix (cs : list string) :
  cs ≠ [] → Forall (λ c, is_name c = true) cs → components (dir_prefix cs) = cs.
Proof.
  intros Hne Hcs. rewrite dir_prefix_abs_path by done.
  by rewrite components_end_slash, components_abs_path.
Qed.

(** X9.  When the files all lie under one and the same directory of the
    root, none of them in the root itself, the resolver returns exactly one
    path, with its final slash: every file lies at or under it, and every
    directory that holds all the files lies at or above it.  This is the
    case of the files of one directory, and that of the files of sibling
    directories. *)
Theorem get_common_paths_one_root (c : string) (url_list : list string) :
  url_list ≠ [] →
  (∀ url, url ∈ url_list →
          normal_file url
          ∧ ∃ rest, rest ≠ [] ∧ components (url_path url) = c :: rest) →
  ∃ e,
    get_common_paths url_list = Ok [dir_prefix (c :: e)]
    ∧ (∀ url, url ∈ url_list → lies_under url (dir_prefix (c :: e)))
    ∧ (∀ e', (∀ url, url ∈ url_list → e' `prefix_of` dir_of url) →
             e' `prefix_of` c :: e).
Proof.
  intros Hne Hfiles.
  destruct (get_common_paths_one_root_aux c url_list Hne Hfiles)
    as (e & Hpaths & Hnames & _ & Hall & Hmax).
  exists e. split_and!; [done| |done].
  intros url Hurl. unfold lies_under.
  rewrite components_dir_prefix by done. by apply Hall.
Qed.

Lemma get_common_paths_one_root_witness :
  ∃ e,
    get_common_paths ["file://host/data/x/y/f1"; "file://host/data/x/z/f2"]
    = Ok [dir_prefix ("data" :: e)]
    ∧ (∀ url, url ∈ ["file://host/data/x/y/f1"; "file://host/data/x/z/f2"] →
              lies_under url (dir_prefix ("data" :: e)))
    ∧ (∀ e', (∀ url, url ∈ ["file://host/data/x/y/f1"; "file://host/data/x/z/f2"] →
                     e' `prefix_of` dir_of url) →
             e' `prefix_of` "data" :: e).
Proof.
  apply get_common_paths_one_root; [discriminate|].
  intros url Hurl.
  apply elem_of_cons in Hurl as [->|Hurl];
    [|apply list_elem_of_singleton in Hurl as ->].
  - split; [|exists ["x"; "y"; "f1"]; by vm_compute].
    exists (mkSplit "file" "host" "/data/x/y/f1" "" ""), ["data"; "x"; "y"; "f1"].
    split_and!; [done..|repeat constructor|done].
  - split; [|exists ["x"; "z"; "f2"]; by vm_compute].
    exists (mkSplit "file" "host" "/data/x/z/f2" "" ""), ["data"; "x"; "z"; "f2"].
    split_and!; [done..|repeat constructor|done].
Defined.
(** * More on [fix_dir_url] *)

Section urlsplit_result.
Implicit Types (s t url : string) (c : ascii) (p q : ascii → bool).

Lemma string_forallb_app q s t :
  string_forallb q (s +:+ t) = string_forallb q s && string_forallb q t.
Proof.
  induction s as [|d s IH]; [by rewrite app_nil_l|].
  rewrite app_cons. simpl. by rewrite IH, andb_assoc.
Qed.

Lemma string_filter_forallb q s : string_forallb q (string_filter q s) = true.
Proof.
  induction s as [|d s IH]; [done|]. simpl.
  destruct (q d) eqn:Hd; [|done]. simpl. by rewrite Hd.
Qed.

Lemma string_filter_id q s : string_forallb q s = true → string_filter q s = s.
Proof.
  induction s as [|d s IH]; [done|]. simpl.
  intros [-> Hs]%andb_true_iff. by rewrite IH.
Qed.

Lemma break_at_eq p s : s = (break_at p s).1 +:+ (break_at p s).2.
Proof.
  induction s as [|d s IH]; [done|]. simpl.
  destruct (p d); [done|]. destruct (break_at p s) as [a b]. simpl in *.
  by rewrite app_cons, <- IH.
Qed.

Lemma break_at_forallb q p s :
  string_forallb q s = true →
  string_forallb q (break_at p s).1 = true
  ∧ string_forallb q (break_at p s).2 = true.
Proof.
  intros Hs. rewrite (break_at_eq p s), string_forallb_app in Hs.
  by apply andb_true_iff in Hs.
Qed.

(** What follows the text [break_at] returns first is empty or begins with
    a character [break_at] looks for. *)
Lemma break_at_snd p s :
  (break_at p s).2 = "" ∨ ∃ d t, (break_at p s).2 = String d t ∧ p d = true.
Proof.
  induction s as [|d s IH]; [by left|]. simpl.
  destruct (p d) eqn:Hd; [right; by exists d, s|].
  by destruct (break_at p s).
Qed.

Lemma break_at_none p s :
  string_forallb (λ c, negb (p c)) s = true → break_at p s = (s, "").
Proof.
  induction s as [|d s IH]; [done|]. simpl.
  intros [->%negb_true_iff Hs]%andb_true_iff. by rewrite (IH Hs).
Qed.

Lemma contains_forallb c s :
  contains c s = false ↔
  string_forallb (λ d, negb (bool_decide (d = c))) s = true.
Proof.
  induction s as [|d s IH]; [done|]. simpl.
  rewrite orb_false_iff, andb_true_iff, negb_true_iff. by rewrite IH.
Qed.

Lemma cut_at_none c s : contains c s = false → cut_at c s = (s, "").
Proof. intros Hc%contains_forallb. unfold cut_at. by rewrite break_at_none. Qed.

Lemma cut_at_fst c s : (cut_at c s).1 = (break_at (λ d, bool_decide (d = c)) s).1.
Proof. unfold cut_at. destruct (break_at _ s) as [a [|d b]]; done. Qed.

Lemma contains_cut_at_fst c s : contains c (cut_at c s).1 = false.
Proof.
  rewrite cut_at_fst. apply contains_forallb.
  apply (break_at_fst_forallb (λ d, bool_decide (d = c))).
Qed.

Lemma split_scheme_forallb q s :
  string_forallb q s = true → string_forallb q (split_scheme s).2 = true.
Proof.
  intros Hs. unfold split_scheme.
  destruct (break_at_forallb q is_colon s Hs) as [_ Hrest].
  destruct (break_at is_colon s) as [pre rest]. simpl in Hrest.
  destruct pre as [|a pre], rest as [|d rest]; [done..|].
  destruct (string_forallb is_scheme_char _); [|done].
  simpl in *. by apply andb_true_iff in Hrest as [_ ?].
Qed.

(** The parts of a URL as [urlsplit] computes them. *)
Lemma urlsplit_inv url url_parts :
  urlsplit url = Ok url_parts →
  ∃ rest nl rest',
    rest = (split_scheme (string_filter (λ c, negb (is_unsafe_byte c)) url)).2
    ∧ split_netloc rest = Ok (nl, rest')
    ∧ netloc url_parts = nl
    ∧ path url_parts = (cut_at "?"%char (cut_at "#"%char rest').1).1.
Proof.
  unfold urlsplit. destruct (split_scheme _) as [sch rest].
  intros ([nl rest'] & Hnl & Hparts)%bind_Ok_inv.
  exists rest, nl, rest'. split_and!; [done..| |].
  - repeat destruct (cut_at _ _). by injection Hparts as <-.
  - destruct (cut_at "#"%char rest') as [a frag]. simpl.
    destruct (cut_at "?"%char a) as [b qry]. by injection Hparts as <-.
Qed.

Lemma split_netloc_inv rest nl rest' :
  split_netloc rest = Ok (nl, rest') →
  (nl = "" ∧ rest' = rest)
  ∨ ∃ t, rest = String "/"%char (String "/"%char t)
         ∧ nl = (break_at is_netloc_delim t).1
         ∧ rest' = (break_at is_netloc_delim t).2.
Proof.
  unfold split_netloc.
  destruct rest as [|c1 [|c2 t]]; [(intros [= <- <-]; by left)..|].
  case_decide as Hc; [|intros [= <- <-]; by left].
  destruct Hc as [-> ->]. destruct (break_at is_netloc_delim t) as [a b] eqn:Ht.
  destruct (bad_brackets a); [done|]. intros [= <- <-]. right. exists t.
  by rewrite Ht.
Qed.

(** The authority and the path [urlsplit] returns hold no tab, carriage
    return or line feed, and the path holds no '?' and no '#'. *)
Lemma urlsplit_clean url url_parts :
  urlsplit url = Ok url_parts →
  string_forallb (λ c, negb (is_unsafe_byte c)) (netloc url_parts) = true
  ∧ string_forallb (λ c, negb (is_unsafe_byte c)) (path url_parts) = true
  ∧ contains "?"%char (path url_parts) = false
  ∧ contains "#"%char (path url_parts) = false.
Proof.
  intros (rest & nl & rest' & Hrest & Hnl & -> & ->)%urlsplit_inv.
  set (safe := λ c, negb (is_unsafe_byte c)) in *.
  assert (string_forallb safe rest = true) as Hsafe.
  { rewrite Hrest. apply split_scheme_forallb, string_filter_forallb. }
  assert (string_forallb safe nl = true ∧ string_forallb safe rest' = true)
    as [Hsafe_nl Hsafe_rest].
  { apply split_netloc_inv in Hnl as [[-> ->]|(t & -> & -> & ->)]; [done|].
    simpl in Hsafe. by apply break_at_forallb. }
  split_and!; [done| | |].
  - rewrite !cut_at_fst.
    by apply break_at_forallb, break_at_forallb.
  - apply contains_cut_at_fst.
  - rewrite (cut_at_fst "?"%char). apply contains_break_at_fst.
    apply contains_cut_at_fst.
Qed.
End urlsplit_result.

Lemma is_abs_inv (p : string) : is_abs p = true → ∃ t, p = String "/"%char t.
Proof.
  unfold is_abs, startswith. destruct p as [|a p]; [done|].
  change (String.prefix "/" (String a p))
    with (if Ascii.ascii_dec "/" a then String.prefix "" p else false).
  destruct (Ascii.ascii_dec "/" a) as [<-|]; [by eauto|done].
Qed.

(** X10.  [fix_dir_url] raises [ValueError] exactly on the URLs [urlsplit]
    refuses, and nothing else.  It returns a URL that is not a [dir] URL as
    it is, and for a [dir] URL a text that begins with [file://] and ends
    with a slash. *)
Theorem fix_dir_url_cases (in_url : string) :
  match fix_dir_url in_url with
  | Ok out_url =>
      parses in_url = true
      ∧ if is_dir_url in_url
        then startswith out_url "file://" = true ∧ ends_with_slash out_url = true
        else out_url = in_url
  | Raise e => e = ValueError ∧ parses in_url = false
  end.
Proof.
  unfold fix_dir_url, parses, is_dir_url.
  destruct (urlsplit in_url) as [url_parts|e] eqn:Hu.
  2:{ rewrite bind_Raise. by apply urlsplit_exn in Hu as ->. }
  rewrite bind_Ok. case_decide as Hdir.
  2:{ by rewrite bool_decide_eq_false_2. }
  rewrite bool_decide_eq_true_2 by done.
  set (tail := netloc url_parts +:+ path url_parts).
  change ("file://" +:+ ?s) with (String "f" (String "i" (String "l" (String "e"
    (String ":" (String "/" (String "/" s))))))).
  destruct (last_char _) as [c|e] eqn:Hc.
  2:{ by apply last_char_Raise in Hc as [_ ?]. }
  rewrite bind_Ok. case_decide as Hslash.
  - split; [done|]. split.
    + unfold startswith. rewrite !app_cons. simpl. by destruct (tail +:+ "/").
    + unfold ends_with_slash. by rewrite last_char_app.
  - split; [done|]. split.
    + unfold startswith. simpl. by destruct tail.
    + unfold ends_with_slash. rewrite Hc. apply bool_decide_eq_true.
      by destruct (decide (c = "/"%char)).
Qed.

(** X11.  A [dir] URL with an absolute path becomes a URL that [urlsplit]
    reads back as a [file] URL with the same authority and the same path,
    the path with a final slash; the query and the fragment of the URL are
    dropped. *)
Theorem fix_dir_url_file_url (in_url : string) (url_parts : SplitResult) :
  urlsplit in_url = Ok url_parts → scheme url_parts = "dir" →
  is_abs (path url_parts) = true →
  ∃ out_url,
    fix_dir_url in_url = Ok out_url
    ∧ urlsplit out_url
      = Ok (mkSplit "file" (netloc url_parts)
                    (with_end_slash (path url_parts)) "" "").
Proof.
  intros Hu Hdir Habs.
  destruct (urlsplit_clean _ _ Hu) as (Hsafe_nl & Hsafe_path & Hqry & Hfrag).
  destruct (urlsplit_netloc _ _ Hu) as [Hbr Hdelim].
  destruct (is_abs_inv _ Habs) as [t Hp].
  set (nl := netloc url_parts) in *. set (p := path url_parts) in *.
  assert (fix_dir_url in_url = Ok ("file://" +:+ nl +:+ with_end_slash p)) as Hfix.
  { unfold fix_dir_url. rewrite Hu, bind_Ok, decide_True by done. fold nl p.
    rewrite <- (app_assoc "file://"), last_char_app_r by (rewrite Hp; discriminate).
    unfold with_end_slash, ends_with_slash.
    destruct (last_char p) as [c|e] eqn:Hc.
    2:{ apply last_char_Raise in Hc as [_ Hc]. by rewrite Hp in Hc. }
    rewrite bind_Ok. case_decide as Hslash.
    - rewrite bool_decide_eq_false_2 by done. by rewrite !app_assoc.
    - rewrite bool_decide_eq_true_2 by (by destruct (decide (c = "/"%char))).
      by rewrite !app_assoc. }
  exists ("file://" +:+ nl +:+ with_end_slash p). split; [done|].
  set (p' := with_end_slash p).
  assert (∃ t', p' = String "/"%char t') as [t' Hp'].
  { unfold p', with_end_slash. destruct (ends_with_slash p); rewrite Hp; by eauto. }
  set (safe := λ c, negb (is_unsafe_byte c)) in *.
  assert (string_forallb safe p' = true ∧ contains "?"%char p' = false
          ∧ contains "#"%char p' = false) as (Hsafe' & Hqry' & Hfrag').
  { unfold p', with_end_slash. destruct (ends_with_slash p); [done|].
    rewrite string_forallb_app, !contains_app, Hsafe_path, Hqry, Hfrag. done. }
  unfold urlsplit. fold safe.
  rewrite !string_filter_app, (string_filter_id safe nl), (string_filter_id safe p')
    by done.
  change (string_filter safe "file://") with "file://".
  change (split_scheme ("file://" +:+ ?s)) with ("file", "//" +:+ s).
  cbv beta iota. change ("//" +:+ ?s) with (String "/"%char (String "/"%char s)).
  unfold split_netloc. rewrite decide_True by done.
  rewrite break_at_app by done. rewrite Hp'. simpl break_at. cbv beta iota.
  rewrite app_nil_r. simpl fst. simpl snd. rewrite Hbr, bind_Ok. rewrite <- Hp'.
  by rewrite (cut_at_none "#"%char), (cut_at_none "?"%char).
Qed.

Lemma fix_dir_url_file_url_witness :
  ∃ out_url,
    fix_dir_url "dir://host/data/out?x#y" = Ok out_url
    ∧ urlsplit out_url = Ok (mkSplit "file" "host" "/data/out/" "" "").
Proof.
  by apply (fix_dir_url_file_url "dir://host/data/out?x#y"
              (mkSplit "dir" "host" "/data/out" "x" "y")).
Defined.
(** * [fix_dir_url] applied twice *)

Section twice.
Implicit Types (nl t url in_url out_url : string).


(** The path of a URL with an authority is empty or absolute. *)
Lemma urlsplit_authority_path url url_parts :
  urlsplit url = Ok url_parts → netloc url_parts ≠ "" →
  path url_parts = "" ∨ is_abs (path url_parts) = true.
Proof.
  intros (rest & nl & rest' & _ & Hnl & Hn & Hp)%urlsplit_inv Hne.
  rewrite Hp. rewrite Hn in Hne. clear Hn Hp.
  apply split_netloc_inv in Hnl as [[-> _]|(t & _ & _ & ->)]; [done|].
  destruct (break_at_snd is_netloc_delim t) as [->|(d & s & -> & Hd)]; [by left|].
  unfold is_netloc_delim in Hd.
  destruct (decide (d = "/"%char)) as [->|Hslash].
  { right. unfold cut_at. simpl.
    destruct (break_at _ s) as [a [|? b]]; simpl;
      destruct (break_at _ a) as [a' [|? b']]; exact (startswith_app "/" a'). }
  left. rewrite (bool_decide_eq_false_2 (d = "/"%char)) in Hd by done.
  apply orb_true_iff in Hd as [->%bool_decide_eq_true| ->%bool_decide_eq_true].
  - unfold cut_at. simpl. by destruct (break_at _ s) as [a [|? b]].
  - by vm_compute.
Qed.
End twice.




(** The cases without a path: the authority alone gets the final slash, and
    the result is a fixed point. *)
Example fix_dir_url_no_path :
  fix_dir_url "dir://host" = Ok "file://host/"
  ∧ fix_dir_url "file://host/" = Ok "file://host/"
  ∧ fix_dir_url "dir:" = Ok "file://"
  ∧ fix_dir_url "file://" = Ok "file://".
Proof. by vm_compute. Qed.
(** * More on [add_manual_datasets] *)

Section declared.
Variable fs : filesystem.
Variable hostname : string.
Implicit Types (x item : string) (declared data_list merged : list string).

Lemma add_declared_cons item declared data_list :
  add_declared fs hostname (item :: declared) data_list =
    if negb (fs_exists fs item) then add_declared fs hostname declared data_list
    else if file_or_dir fs item
    then add_declared fs hostname declared
           (append_new (declared_url fs hostname item) data_list)
    else Raise FileNotFoundError.
Proof.
  simpl. unfold file_or_dir, declared_url.
  destruct (fs_exists fs item); [|done]. simpl.
  destruct (fs_isfile fs _); [done|]. by destruct (fs_isdir fs _).
Qed.

Lemma append_new_prefix x data_list : data_list `prefix_of` append_new x data_list.
Proof. unfold append_new. case_decide; [done|]. by eexists. Qed.

Lemma add_declared_Ok declared data_list :
  (∀ item, item ∈ declared → fs_exists fs item = true → file_or_dir fs item = true) →
  ∃ merged,
    add_declared fs hostname declared data_list = Ok merged
    ∧ data_list `prefix_of` merged
    ∧ (NoDup data_list → NoDup merged)
    ∧ ∀ x, x ∈ merged ↔
           x ∈ data_list
           ∨ ∃ item, item ∈ declared ∧ fs_exists fs item = true
                     ∧ x = declared_url fs hostname item.
Proof.
  revert data_list. induction declared as [|item declared IH]; intros data_list Hall.
  { exists data_list. split_and!; [done..|]. intros x. split; [by left|].
    by intros [?|(item & ?%elem_of_nil & _)]. }
  assert (∀ item', item' ∈ declared → fs_exists fs item' = true →
                   file_or_dir fs item' = true) as Hrest.
  { intros item' Hin. apply Hall. by right. }
  rewrite add_declared_cons. destruct (fs_exists fs item) eqn:Hexists; simpl.
  - rewrite Hall by (done || by left).
    destruct (IH (append_new (declared_url fs hostname item) data_list) Hrest)
      as (merged & -> & Hpre & Hnodup & Helem).
    exists merged. split_and!; [done| | |].
    + etrans; [apply append_new_prefix|done].
    + intros Hdata. by apply Hnodup, append_new_NoDup.
    + intros x. rewrite Helem, append_new_elem. split.
      * intros [[->|?]|(item' & Hin & ? & ?)]; [|by left|].
        -- right. exists item. split_and!; [by left|done..].
        -- right. exists item'. split_and!; [by right|done..].
      * intros [?|(item' & [->|Hin]%elem_of_cons & ? & ?)]; [by auto|by auto|].
        right. by exists item'.
  - destruct (IH data_list Hrest) as (merged & -> & Hpre & Hnodup & Helem).
    exists merged. split_and!; [done..|].
    intros x. rewrite Helem. split.
    + intros [?|(item' & Hin & ? & ?)]; [by left|].
      right. exists item'. split_and!; [by right|done..].
    + intros [?|(item' & [->|Hin]%elem_of_cons & ? & ?)]; [by left|congruence|].
      right. by exists item'.
Qed.

Lemma add_declared_Raise declared data_list :
  (∃ item, item ∈ declared ∧ fs_exists fs item = true ∧ file_or_dir fs item = false) →
  add_declared fs hostname declared data_list = Raise FileNotFoundError.
Proof.
  revert data_list. induction declared as [|item declared IH]; intros data_list.
  { by intros (item & ?%elem_of_nil & _). }
  intros (bad & Hin & Hexists & Hbad). rewrite add_declared_cons.
  apply elem_of_cons in Hin as [<-|Hin].
  { by rewrite Hexists, Hbad. }
  assert (∀ l, add_declared fs hostname declared l = Raise FileNotFoundError) as Hrest.
  { intros l. apply IH. by exists bad. }
  destruct (negb _); [done|]. by destruct (file_or_dir fs item).
Qed.

Lemma add_declared_exn declared data_list e :
  add_declared fs hostname declared data_list = Raise e →
  e = FileNotFoundError
  ∧ ∃ item, item ∈ declared ∧ fs_exists fs item = true ∧ file_or_dir fs item = false.
Proof.
  revert data_list. induction declared as [|item declared IH]; intros data_list.
  { done. }
  rewrite add_declared_cons.
  assert (∀ l, add_declared fs hostname declared l = Raise e →
    e = FileNotFoundError
    ∧ ∃ item', item' ∈ item :: declared ∧ fs_exists fs item' = true
               ∧ file_or_dir fs item' = false) as Hrest.
  { intros l (-> & item' & ? & ?)%IH. split; [done|].
    exists item'. split; [by right|done]. }
  destruct (fs_exists fs item) eqn:Hexists; simpl; [|by apply Hrest].
  destruct (file_or_dir fs item) eqn:Hkind; [by apply Hrest|].
  intros [= <-]. split; [done|]. exists item. split; [by left|done].
Qed.
End declared.

Section erasure.
Implicit Types (x : string) (l data_list : list string).

Lemma remove_matching_exn P items l e :
  remove_matching P items l = Raise e → e = ValueError.
Proof.
  revert l. induction items as [|item rest IH]; intros l; [done|]. simpl.
  intros [Hu|(url_parts & _ & Hrest)]%bind_Raise_inv; [by eapply urlsplit_exn|].
  destruct (P _); [|by eapply IH].
  apply bind_Raise_inv in Hrest as [Hrem|(l' & _ & Hrest)]; [|by eapply IH].
  by apply list_remove_Raise in Hrem as [-> _].
Qed.

Lemma topmost_dirs_exn data_list directories_list e :
  topmost_dirs data_list directories_list = Raise e → e = ValueError.
Proof.
  revert directories_list.
  induction data_list as [|item rest IH]; intros acc; [done|]. simpl.
  intros [Hu|(url_parts & _ & Hrest)]%bind_Raise_inv; [by eapply urlsplit_exn|].
  case_decide; [|done]. destruct (_ && _); by eapply IH.
Qed.

Lemma erase_files_in_dirs_exn data_list e :
  erase_files_in_dirs data_list = Raise e → e = ValueError.
Proof.
  unfold erase_files_in_dirs.
  intros [Htop|([dirs file_found] & _ & Hrest)]%bind_Raise_inv.
  { by eapply topmost_dirs_exn. }
  destruct file_found; [|done].
  rewrite erase_nested_matching in Hrest. by eapply remove_matching_exn.
Qed.

Lemma erase_files_in_dirs_sublist data_list l :
  erase_files_in_dirs data_list = Ok l → l `sublist_of` data_list.
Proof.
  unfold erase_files_in_dirs.
  intros ([dirs file_found] & _ & Hrest)%bind_Ok_inv.
  destruct file_found; [|by injection Hrest as <-].
  rewrite erase_nested_matching in Hrest. by eapply remove_matching_sublist.
Qed.

Lemma sublist_StronglySorted l (l' : list string) :
  l' `sublist_of` l → StronglySorted String.le l → StronglySorted String.le l'.
Proof.
  induction 1 as [|x l1 l2 Hsub IH|x l1 l2 Hsub IH]; [done| |].
  - intros [Hl2 Hx]%StronglySorted_inv. constructor; [by apply IH|].
    rewrite Forall_forall in Hx |- *. intros y Hy. apply Hx.
    by eapply elem_of_sublist.
  - intros [Hl2 _]%StronglySorted_inv. by apply IH.
Qed.

Lemma sublist_Sorted l (l' : list string) :
  l' `sublist_of` l → Sorted String.le l → Sorted String.le l'.
Proof.
  intros Hsub Hl. apply StronglySorted_Sorted.
  apply (sublist_StronglySorted l); [done|].
  by apply Sorted_StronglySorted; [apply _|].
Qed.
End erasure.

(** X12.  When every declared path that exists resolves to a file or to a
    directory, the first loop of the reconciler returns the list it was
    given followed by new entries: the URLs of the declared paths that
    exist, each one once.  A declared path that does not exist is
    skipped, and an entry the list holds already is not added again. *)
Theorem add_declared_merges (fs : filesystem) (hostname : string)
    (data_entities_list data_list : list string) :
  (∀ item, item ∈ data_entities_list → fs_exists fs item = true →
           file_or_dir fs item = true) →
  ∃ merged,
    add_declared fs hostname data_entities_list data_list = Ok merged
    ∧ data_list `prefix_of` merged
    ∧ (NoDup data_list → NoDup merged)
    ∧ ∀ x, x ∈ merged ↔
           x ∈ data_list
           ∨ ∃ item, item ∈ data_entities_list ∧ fs_exists fs item = true
                     ∧ x = declared_url fs hostname item.
Proof. apply add_declared_Ok. Qed.

Lemma add_declared_merges_witness :
  ∃ merged,
    add_declared link_fs "host" ["/data"; "/nowhere"; "/x"] ["file://host/data/x"]
    = Ok merged
    ∧ ["file://host/data/x"] `prefix_of` merged
    ∧ (NoDup ["file://host/data/x"] → NoDup merged)
    ∧ ∀ x, x ∈ merged ↔
           x ∈ ["file://host/data/x"]
           ∨ ∃ item, item ∈ ["/data"; "/nowhere"; "/x"]
                     ∧ fs_exists link_fs item = true
                     ∧ x = declared_url link_fs "host" item.
Proof.
  apply add_declared_merges.
  intros item Hitem. repeat (apply elem_of_cons in Hitem as [->|Hitem]; [by vm_compute|]).
  by apply elem_of_nil in Hitem.
Defined.

(** X13.  The reconciler raises [FileNotFoundError] exactly when a declared
    path exists and resolves neither to a file nor to a directory. *)
Theorem add_manual_datasets_not_found (fs : filesystem) (hostname : string)
    (data_entities_list data_list : list string) :
  add_manual_datasets fs hostname data_entities_list data_list
  = Raise FileNotFoundError
  ↔ ∃ item, item ∈ data_entities_list ∧ fs_exists fs item = true
            ∧ file_or_dir fs item = false.
Proof.
  unfold add_manual_datasets. split.
  - intros [Hdecl|(merged & _ & Hrest)]%bind_Raise_inv.
    + by apply add_declared_exn in Hdecl as [_ ?].
    + by apply erase_files_in_dirs_exn in Hrest.
  - intros Hbad. by rewrite (add_declared_Raise _ _ _ _ Hbad).
Qed.

(** X14.  The list the reconciler returns is sorted; it holds nothing but
    entries of the list it was given and URLs of declared paths that exist;
    and it has no duplicates when the list it was given has none. *)
Theorem add_manual_datasets_sorted (fs : filesystem) (hostname : string)
    (data_entities_list data_list result : list string) :
  add_manual_datasets fs hostname data_entities_list data_list = Ok result →
  Sorted String.le result
  ∧ (NoDup data_list → NoDup result)
  ∧ ∀ x, x ∈ result →
         x ∈ data_list
         ∨ ∃ item, item ∈ data_entities_list ∧ fs_exists fs item = true
                   ∧ x = declared_url fs hostname item.
Proof.
  unfold add_manual_datasets.
  intros (merged & Hmerged & Hsub%erase_files_in_dirs_sublist)%bind_Ok_inv.
  destruct (add_declared_Ok fs hostname data_entities_list data_list)
    as (merged' & Hmerged' & _ & Hnodup & Helem).
  { intros item Hin Hexists. destruct (file_or_dir fs item) eqn:Hkind; [done|].
    rewrite (add_declared_Raise fs hostname data_entities_list data_list) in Hmerged;
      [done|]. by exists item. }
  rewrite Hmerged in Hmerged'. injection Hmerged' as <-.
  split_and!.
  - apply (sublist_Sorted (py_sort merged)); [done|apply py_sort_sorted].
  - intros Hdata. apply (sublist_NoDup _ (py_sort merged)); [|done].
    rewrite py_sort_perm. by apply Hnodup.
  - intros x Hx. apply Helem, py_sort_elem. by eapply elem_of_sublist.
Qed.

Lemma add_manual_datasets_sorted_witness :
  Sorted String.le ["dir://host/data/"; "file://host/c"]
  ∧ (NoDup ["file://host/c"; "file://host/data/x"] →
     NoDup ["dir://host/data/"; "file://host/c"])
  ∧ ∀ x, x ∈ ["dir://host/data/"; "file://host/c"] →
         x ∈ ["file://host/c"; "file://host/data/x"]
         ∨ ∃ item, item ∈ ["/data"] ∧ fs_exists data_fs item = true
                   ∧ x = declared_url data_fs "host" item.
Proof.
  by apply (add_manual_datasets_sorted data_fs "host" ["/data"]
              ["file://host/c"; "file://host/data/x"]).
Defined.
(** * Sorted lists of runtime URLs, and more on [fix_in_files_at_out_dirs] *)

Section runtime_urls.
Implicit Types (x y url s t : string) (l kept : list string).

Lemma urlsplit_file_prefix s url_parts :
  urlsplit ("file://" +:+ s) = Ok url_parts → scheme url_parts = "file".
Proof.
  unfold urlsplit. rewrite string_filter_app.
  change (string_filter _ "file://") with "file://".
  change (split_scheme ("file://" +:+ ?t)) with ("file", "//" +:+ t).
  cbv beta iota. intros ([nl rest] & _ & Hparts)%bind_Ok_inv.
  repeat destruct (cut_at _ _). by injection Hparts as <-.
Qed.

Lemma runtime_url_dir x :
  runtime_url x → is_dir_url x = true → ∃ s, x = "dir://" +:+ s.
Proof.
  intros [Hparse [Hdir|(s & ->)%prefix_inv]] Hx; [by apply prefix_inv|].
  unfold parses, is_dir_url in *.
  destruct (urlsplit _) as [url_parts|] eqn:Hu; [|done].
  apply urlsplit_file_prefix in Hu. apply bool_decide_eq_true in Hx. congruence.
Qed.

Lemma runtime_url_file x :
  runtime_url x → is_dir_url x = false → ∃ s, x = "file://" +:+ s.
Proof.
  intros [Hparse [(s & ->)%prefix_inv|Hfile]] Hx; [|by apply prefix_inv].
  unfold parses, is_dir_url in *.
  destruct (urlsplit _) as [url_parts|] eqn:Hu; [|done].
  apply urlsplit_dir_prefix in Hu. apply bool_decide_eq_false in Hx. done.
Qed.

Lemma file_not_le_dir s t : ¬ String.le ("file://" +:+ s) ("dir://" +:+ t).
Proof. unfold String.le, String.leb. rewrite !app_cons. exact id. Qed.

(** In a sorted list of runtime URLs the directories come first. *)
Lemma sorted_dirs_first l :
  Sorted String.le l → (∀ x, x ∈ l → runtime_url x) → dirs_first l = true.
Proof.
  intros Hsorted%Sorted_StronglySorted; [|apply _].
  unfold dirs_first.
  induction Hsorted as [|x l Hl IH Hx]; intros Hall; [done|].
  rewrite after_dirs_cons.
  destruct (is_dir_url x) eqn:Hdir.
  { apply IH. intros y Hy. apply Hall. by right. }
  destruct (runtime_url_file x) as [s ->]; [apply Hall; by left|done|].
  simpl. rewrite Hdir. simpl. apply forallb_forall. intros y Hy%list_elem_of_In.
  apply negb_true_iff, not_true_is_false. intros Hy_dir.
  destruct (runtime_url_dir y) as [t ->]; [apply Hall; by right|done|].
  rewrite Forall_forall in Hx. by apply (file_not_le_dir s t), Hx.
Qed.

Lemma runtime_urls_parse l :
  (∀ x, x ∈ l → runtime_url x) → forallb parses l = true.
Proof.
  intros Hall. apply forallb_forall. intros x Hx%list_elem_of_In.
  by apply Hall.
Qed.

(** The list is its leading directories followed by the rest. *)
Lemma after_dirs_split l :
  ∃ kept, l = kept ++ after_dirs l ∧ ∀ x, x ∈ kept → is_dir_url x = true.
Proof.
  induction l as [|url l (kept & Hl & Hkept)].
  { exists []. split; [done|]. by intros x ?%elem_of_nil. }
  rewrite after_dirs_cons. destruct (is_dir_url url) eqn:Hurl.
  - exists (url :: kept). split; [simpl; by rewrite <- Hl|].
    intros x [->|?]%elem_of_cons; by auto.
  - exists []. split; [done|]. by intros x ?%elem_of_nil.
Qed.

Lemma in_output_dir_under outputs_list url :
  in_output_dir outputs_list url = true ↔ under_output_dir url outputs_list.
Proof.
  unfold in_output_dir, under_output_dir. rewrite existsb_exists.
  setoid_rewrite andb_true_iff. setoid_rewrite list_elem_of_In. naive_solver.
Qed.
End runtime_urls.

(** X15.  The first loop of the resolver, on a sorted list of runtime
    URLs, goes through all the directories of the list: it returns their
    paths, and no directory is left in the part of the list it hands to the
    loop over the files.  This is what the code relies on when it says that
    in the ordered list the [dir://] references come first. *)
Theorem leading_dirs_sorted (url_list : list string) :
  Sorted String.le url_list → (∀ url, url ∈ url_list → runtime_url url) →
  ∃ list_common_paths from_file,
    leading_dirs url_list [] = Ok (list_common_paths, from_file)
    ∧ (∀ url, url ∈ from_file → url ∈ url_list ∧ is_dir_url url = false)
    ∧ (∀ url, url ∈ url_list → is_dir_url url = false → url ∈ from_file)
    ∧ (∀ p, p ∈ list_common_paths ↔
            ∃ url, url ∈ url_list ∧ is_dir_url url = true ∧ url_path url = p).
Proof.
  intros Hsorted Hall. pose proof (sorted_dirs_first _ Hsorted Hall) as Hfirst.
  destruct (after_dirs_split url_list) as (kept & Hsplit & Hkept).
  unfold dirs_first in Hfirst. rewrite forallb_forall in Hfirst.
  assert (∀ url, url ∈ after_dirs url_list → is_dir_url url = false) as Hfiles.
  { intros url Hurl%list_elem_of_In%Hfirst. by apply negb_true_iff. }
  destruct (leading_dirs_dirs kept (after_dirs url_list) [] Hkept)
    as (acc & Heq & _ & Hacc).
  rewrite <- Hsplit in Heq.
  assert (leading_dirs (after_dirs url_list) acc = Ok (acc, after_dirs url_list))
    as Hrest.
  { destruct (after_dirs url_list) as [|first rest] eqn:Hafter; [done|].
    apply leading_dirs_file.
    - apply Hall. rewrite Hsplit. apply elem_of_app. right. by left.
    - apply Hfiles. by left. }
  exists acc, (after_dirs url_list). rewrite Heq, Hrest. split_and!; [done| | |].
  - intros url Hurl. split; [|by apply Hfiles].
    rewrite Hsplit. apply elem_of_app. by right.
  - intros url Hurl Hfile. rewrite Hsplit in Hurl.
    apply elem_of_app in Hurl as [Hdir%Hkept|?]; [congruence|done].
  - intros p. rewrite Hacc. split.
    + intros [[]%elem_of_nil|(url & Hurl & Hp)].
      exists url. split_and!; [|by apply Hkept|done].
      rewrite Hsplit. apply elem_of_app. by left.
    + intros (url & Hurl & Hdir & Hp). right. exists url. split; [|done].
      rewrite Hsplit in Hurl.
      apply elem_of_app in Hurl as [?|Hfile%Hfiles]; [done|congruence].
Qed.

Lemma leading_dirs_sorted_witness :
  ∃ list_common_paths from_file,
    leading_dirs ["dir://host/a/"; "dir://host/b/"; "file://host/c"] []
    = Ok (list_common_paths, from_file)
    ∧ (∀ url, url ∈ from_file →
              url ∈ ["dir://host/a/"; "dir://host/b/"; "file://host/c"]
              ∧ is_dir_url url = false)
    ∧ (∀ url, url ∈ ["dir://host/a/"; "dir://host/b/"; "file://host/c"] →
              is_dir_url url = false → url ∈ from_file)
    ∧ (∀ p, p ∈ list_common_paths ↔
            ∃ url, url ∈ ["dir://host/a/"; "dir://host/b/"; "file://host/c"]
                   ∧ is_dir_url url = true ∧ url_path url = p).
Proof.
  apply leading_dirs_sorted.
  - repeat constructor; by vm_compute.
  - intros url Hurl.
    repeat (apply elem_of_cons in Hurl as [->|Hurl]; [by vm_compute; auto|]).
    by apply elem_of_nil in Hurl.
Defined.

(** On sorted lists of runtime URLs the fix-up is a filter of the inputs. *)
Lemma fix_in_files_at_out_dirs_filter_aux (inputs_list outputs_list : list string) :
  Sorted String.le inputs_list → Sorted String.le outputs_list →
  (∀ url, url ∈ inputs_list ++ outputs_list → runtime_url url) →
  fix_in_files_at_out_dirs inputs_list outputs_list
  = Ok (List.filter (kept_input outputs_list) inputs_list, outputs_list)
  ∧ Sorted String.le (List.filter (kept_input outputs_list) inputs_list).
Proof.
  intros Hsorted_in Hsorted_out Hall.
  assert (∀ url, url ∈ inputs_list → runtime_url url) as Hall_in.
  { intros url Hurl. apply Hall, elem_of_app. by left. }
  assert (∀ url, url ∈ outputs_list → runtime_url url) as Hall_out.
  { intros url Hurl. apply Hall, elem_of_app. by right. }
  pose proof (runtime_urls_parse _ Hall_in) as Hparse_in.
  pose proof (runtime_urls_parse _ Hall_out) as Hparse_out.
  pose proof (sorted_dirs_first _ Hsorted_in Hall_in) as Hfirst_in.
  pose proof (sorted_dirs_first _ Hsorted_out Hall_out) as Hfirst_out.
  split.
  2:{ apply (sublist_Sorted inputs_list); [|done].
      clear. induction inputs_list as [|x l IH]; [done|].
      simpl. destruct (kept_input _ _); [by apply sublist_skip|by apply sublist_cons]. }
  destruct (output_dirs_elem outputs_list [] Hparse_out Hfirst_out)
    as (dirs & Hdirs & Helem).
  unfold fix_in_files_at_out_dirs.
  rewrite (fixed_inputs_remove _ _ _ Hparse_in Hdirs).
  destruct (after_dirs_split inputs_list) as (kept & Hsplit & Hkept).
  unfold dirs_first in Hfirst_in. rewrite forallb_forall in Hfirst_in.
  assert (∀ url, url ∈ after_dirs inputs_list → is_dir_url url = false) as Hfiles.
  { intros url Hurl%list_elem_of_In%Hfirst_in. by apply negb_true_iff. }
  assert (∀ url, under_any (url_path url) dirs = in_output_dir outputs_list url)
    as Hunder.
  { intros url. apply eq_true_iff_eq.
    rewrite under_any_true, in_output_dir_under. unfold under_output_dir. split.
    - intros (d & [?%elem_of_nil|(out & ? & ? & <-)]%Helem & ?); [done|].
      by exists out.
    - intros (out & ? & ? & ?). exists (url_path out). split; [|done].
      apply Helem. right. by exists out. }
  rewrite Hsplit at 2.
  rewrite (remove_matching_filter (λ p, under_any p dirs)).
  2:{ by apply after_dirs_parses. }
  2:{ intros x Hx%Hfiles _ Hdir%Hkept. congruence. }
  rewrite bind_Ok. do 2 f_equal.
  rewrite Hsplit at 2. rewrite List.filter_app. f_equal.
  - clear Hsplit. induction kept as [|x kept IH]; [done|]. simpl.
    unfold kept_input at 1. rewrite (Hkept x) by by left. simpl. f_equal.
    apply IH. intros y Hy. apply Hkept. by right.
  - apply List.filter_ext_in. intros x Hx%list_elem_of_In%Hfiles.
    unfold path_matches, kept_input. by rewrite Hx, Hunder.
Qed.

(** X16.  On sorted lists of runtime URLs the fix-up is a filter: it
    returns the outputs as they are, and the inputs without the entries
    that are not directories and whose path begins with the path of a
    directory of the outputs; the order of the inputs is kept, so they are
    still sorted. *)
Theorem fix_in_files_at_out_dirs_filter (inputs_list outputs_list : list string) :
  Sorted String.le inputs_list → Sorted String.le outputs_list →
  (∀ url, url ∈ inputs_list ++ outputs_list → runtime_url url) →
  fix_in_files_at_out_dirs inputs_list outputs_list
  = Ok (List.filter (kept_input outputs_list) inputs_list, outputs_list)
  ∧ Sorted String.le (List.filter (kept_input outputs_list) inputs_list).
Proof. apply fix_in_files_at_out_dirs_filter_aux. Qed.

Lemma fix_in_files_at_out_dirs_filter_witness :
  fix_in_files_at_out_dirs
    ["dir://host/in/"; "file://host/data/a"; "file://host/out/f"]
    ["dir://host/out/"; "file://host/res"]
  = Ok (List.filter (kept_input ["dir://host/out/"; "file://host/res"])
          ["dir://host/in/"; "file://host/data/a"; "file://host/out/f"],
        ["dir://host/out/"; "file://host/res"])
  ∧ Sorted String.le
      (List.filter (kept_input ["dir://host/out/"; "file://host/res"])
         ["dir://host/in/"; "file://host/data/a"; "file://host/out/f"]).
Proof.
  apply fix_in_files_at_out_dirs_filter.
  - repeat constructor; by vm_compute.
  - repeat constructor; by vm_compute.
  - intros url Hurl.
    repeat (apply elem_of_cons in Hurl as [->|Hurl]; [by vm_compute; auto|]).
    by apply elem_of_nil in Hurl.
Defined.

(** X17.  On sorted lists of runtime URLs the fix-up returns, and applying
    it once more to what it returned changes nothing. *)
Theorem fix_in_files_at_out_dirs_idempotent (inputs_list outputs_list : list string) :
  Sorted String.le inputs_list → Sorted String.le outputs_list →
  (∀ url, url ∈ inputs_list ++ outputs_list → runtime_url url) →
  ∃ inputs_list',
    fix_in_files_at_out_dirs inputs_list outputs_list = Ok (inputs_list', outputs_list)
    ∧ fix_in_files_at_out_dirs inputs_list' outputs_list
      = Ok (inputs_list', outputs_list).
Proof.
  intros Hsorted_in Hsorted_out Hall.
  destruct (fix_in_files_at_out_dirs_filter_aux inputs_list outputs_list)
    as [Hfix Hsorted]; [done..|].
  eexists. split; [exact Hfix|].
  set (keep := kept_input outputs_list) in *.
  destruct (fix_in_files_at_out_dirs_filter_aux (List.filter keep inputs_list)
              outputs_list) as [Hfix' _]; [done..| |].
  { intros url [[Hurl _]%list_elem_of_In%List.filter_In|Hurl]%elem_of_app;
      apply Hall, elem_of_app; [left; by apply list_elem_of_In|by right]. }
  rewrite Hfix'. do 2 f_equal. fold keep.
  clear. induction inputs_list as [|x l IH]; [done|]. simpl.
  destruct (keep x) eqn:Hx; [|done]. simpl. by rewrite Hx, IH.
Qed.

Lemma fix_in_files_at_out_dirs_idempotent_witness :
  ∃ inputs_list',
    fix_in_files_at_out_dirs
      ["dir://host/in/"; "file://host/data/a"; "file://host/out/f"]
      ["dir://host/out/"; "file://host/res"]
    = Ok (inputs_list', ["dir://host/out/"; "file://host/res"])
    ∧ fix_in_files_at_out_dirs inputs_list' ["dir://host/out/"; "file://host/res"]
      = Ok (inputs_list', ["dir://host/out/"; "file://host/res"]).
Proof.
  apply fix_in_files_at_out_dirs_idempotent.
  - repeat constructor; by vm_compute.
  - repeat constructor; by vm_compute.
  - intros url Hurl.
    repeat (apply elem_of_cons in Hurl as [->|Hurl]; [by vm_compute; auto|]).
    by apply elem_of_nil in Hurl.
Defined.
(** * The paths of the files in the crate *)

Section crate_paths.
Implicit Types (s t cwd : string) (cs d rest : list string).

#[local] Abbreviation names := (Forall (λ c, is_name c = true)).

Lemma string_drop_app s t : string_drop (String.length s) (s +:+ t) = t.
Proof. induction s as [|a s IH]; [by rewrite app_nil_l|]. by rewrite app_cons. Qed.

Lemma app_inv_head s t1 t2 : s +:+ t1 = s +:+ t2 → t1 = t2.
Proof.
  induction s as [|a s IH]; [by rewrite !app_nil_l|].
  rewrite !app_cons. intros [= ?]. by apply IH.
Qed.

(** A path below a directory is the directory, with its final slash,
    followed by the rest of the path. *)
Lemma abs_path_app cs rest :
  rest ≠ [] → abs_path (cs ++ rest) = dir_prefix cs +:+ String.concat "/" rest.
Proof.
  intros Hrest. unfold abs_path. induction cs as [|c cs IH]; [done|].
  rewrite dir_prefix_cons, <- app_comm_cons.
  rewrite concat_cons by (by destruct cs, rest).
  rewrite !app_assoc. by rewrite IH.
Qed.

Lemma path_root_dir_prefix d : names d → path_root (dir_prefix d) = "/".
Proof.
  intros Hd. destruct d as [|c d]; [done|].
  apply Forall_cons in Hd as [Hc _]. rewrite dir_prefix_cons.
  unfold path_root. change ("/" +:+ ?s) with (String "/"%char s). simpl.
  by rewrite leading_slashes_name.
Qed.

(** The last part of a directory is its name. *)
Lemma last_part_dir_prefix d :
  d ≠ [] → names d →
  last_part (dir_prefix d) = Ok (default EmptyString (last d)).
Proof.
  intros Hne Hd. unfold last_part, path_parts.
  rewrite path_root_dir_prefix, components_dir_prefix by done.
  destruct d as [|c d]; [done|]. rewrite last_cons_cons.
  destruct (last (c :: d)) eqn:Hlast; [done|]. by apply last_None in Hlast.
Qed.

Lemma crate_path_first cwd s item (rest : list string) :
  startswith s item = true →
  crate_path cwd s (item :: rest) = crate_path cwd s [item].
Proof. intros Hs. simpl. by rewrite Hs. Qed.

Lemma crate_path_skip cwd s item (rest : list string) :
  startswith s item = false →
  crate_path cwd s (item :: rest) = crate_path cwd s rest.
Proof. intros Hs. simpl. by rewrite Hs. Qed.

(** The crate path of a file below the one common path. *)
Lemma crate_path_below cwd d t :
  d ≠ [] → names d →
  crate_path cwd (dir_prefix d +:+ t) [dir_prefix d]
  = Ok ("dataset/" +:+ crate_folder cwd d +:+ t).
Proof.
  intros Hne Hd. simpl. rewrite startswith_app, string_drop_app.
  unfold crate_folder. case_decide; [by rewrite app_nil_l|].
  rewrite last_part_dir_prefix, bind_Ok by done. by rewrite !app_assoc.
Qed.
End crate_paths.

(** X18.  Let the files all lie under one and the same directory of the
    root, and let no file have a path that is a directory above another
    file of the list.  Then the resolver returns one common path, and the
    crate path computed from it for each file is [dataset/], the name of
    the common directory as a folder (no folder when the common directory
    is the working directory) and the path of the file below the common
    directory.  So two files of the list with different paths get
    different crate paths. *)
Theorem crate_path_one_root (c cwd : string) (url_list : list string) :
  url_list ≠ [] →
  (∀ url, url ∈ url_list →
          normal_file url
          ∧ ∃ rest, rest ≠ [] ∧ components (url_path url) = c :: rest) →
  (∀ url1 url2, url1 ∈ url_list → url2 ∈ url_list →
                ¬ components (url_path url1) `prefix_of` dir_of url2) →
  ∃ d paths,
    get_common_paths url_list = Ok paths
    ∧ (∀ url, url ∈ url_list →
         ∃ rest,
           rest ≠ [] ∧ components (url_path url) = d ++ rest
           ∧ crate_path cwd (url_path url) paths
             = Ok ("dataset/" +:+ crate_folder cwd d +:+ String.concat "/" rest))
    ∧ (∀ url1 url2, url1 ∈ url_list → url2 ∈ url_list →
         crate_path cwd (url_path url1) paths = crate_path cwd (url_path url2) paths →
         url_path url1 = url_path url2).
Proof.
  intros Hne Hfiles Hapart.
  destruct (get_common_paths_one_root_aux c url_list Hne Hfiles)
    as (e & Hpaths & Hnames & (url0 & Hurl0 & Hdir0) & Hall & _).
  set (d := c :: e) in *.
  assert (∀ url, url ∈ url_list →
    ∃ rest, rest ≠ [] ∧ components (url_path url) = d ++ rest
            ∧ url_path url = dir_prefix d +:+ String.concat "/" rest) as Hbelow.
  { intros url Hurl. destruct (Hall url Hurl) as [rest Hrest].
    destruct (Hfiles url Hurl) as [Hnormal _].
    destruct (normal_file_inv _ Hnormal)
      as (url_parts & cs & Hu & _ & _ & Hp & Hcomp & _).
    assert (url_path url = abs_path cs) as Hpath.
    { unfold url_path. by rewrite Hu. }
    assert (rest ≠ []) as Hrest_ne.
    { intros ->. rewrite List.app_nil_r in Hrest.
      apply (Hapart url url0 Hurl Hurl0). by rewrite Hrest. }
    exists rest. split_and!; [done..|].
    rewrite Hpath, <- Hcomp, Hrest. by apply abs_path_app. }
  exists d, [dir_prefix d]. split_and!; [done| |].
  - intros url Hurl. destruct (Hbelow url Hurl) as (rest & Hrest_ne & Hrest & Hpath).
    exists rest. split_and!; [done..|]. rewrite Hpath. by apply crate_path_below.
  - intros url1 url2 Hurl1 Hurl2.
    destruct (Hbelow url1 Hurl1) as (rest1 & _ & _ & ->).
    destruct (Hbelow url2 Hurl2) as (rest2 & _ & _ & ->).
    rewrite !crate_path_below by done.
    intros [= Heq%app_inv_head%app_inv_head]. by rewrite Heq.
Qed.

Lemma crate_path_one_root_witness :
  ∃ d paths,
    get_common_paths ["file://host/data/x/y/f1"; "file://host/data/x/z/f2"] = Ok paths
    ∧ (∀ url, url ∈ ["file://host/data/x/y/f1"; "file://host/data/x/z/f2"] →
         ∃ rest,
           rest ≠ [] ∧ components (url_path url) = d ++ rest
           ∧ crate_path "/home/user" (url_path url) paths
             = Ok ("dataset/" +:+ crate_folder "/home/user" d
                   +:+ String.concat "/" rest))
    ∧ (∀ url1 url2,
         url1 ∈ ["file://host/data/x/y/f1"; "file://host/data/x/z/f2"] →
         url2 ∈ ["file://host/data/x/y/f1"; "file://host/data/x/z/f2"] →
         crate_path "/home/user" (url_path url1) paths
         = crate_path "/home/user" (url_path url2) paths →
         url_path url1 = url_path url2).
Proof.
  apply (crate_path_one_root "data"); [discriminate| |].
  - intros url Hurl.
    apply elem_of_cons in Hurl as [->|Hurl];
      [|apply list_elem_of_singleton in Hurl as ->].
    + split; [|exists ["x"; "y"; "f1"]; by vm_compute].
      exists (mkSplit "file" "host" "/data/x/y/f1" "" ""), ["data"; "x"; "y"; "f1"].
      split_and!; [done..|repeat constructor|done].
    + split; [|exists ["x"; "z"; "f2"]; by vm_compute].
      exists (mkSplit "file" "host" "/data/x/z/f2" "" ""), ["data"; "x"; "z"; "f2"].
      split_and!; [done..|repeat constructor|done].
  - intros url1 url2 Hurl1 Hurl2.
    apply elem_of_cons in Hurl1 as [->|Hurl1];
      [|apply list_elem_of_singleton in Hurl1 as ->];
      (apply elem_of_cons in Hurl2 as [->|Hurl2];
        [|apply list_elem_of_singleton in Hurl2 as ->]);
      vm_compute; by intros [k [=]].
Defined.

(** X19.  The crate path does not tell apart two common directories with
    the same name: files with the same path below two such directories get
    one and the same crate path. *)
Theorem crate_path_collision (cwd : string) (d1 d2 : list string) (n t : string) :
  Forall (λ c, is_name c = true) (d1 ++ [n]) →
  Forall (λ c, is_name c = true) (d2 ++ [n]) →
  cwd +:+ "/" ≠ dir_prefix (d1 ++ [n]) → cwd +:+ "/" ≠ dir_prefix (d2 ++ [n]) →
  startswith (dir_prefix (d2 ++ [n]) +:+ t) (dir_prefix (d1 ++ [n])) = false →
  crate_path cwd (dir_prefix (d1 ++ [n]) +:+ t)
             [dir_prefix (d1 ++ [n]); dir_prefix (d2 ++ [n])]
  = Ok ("dataset/" +:+ n +:+ "/" +:+ t)
  ∧ crate_path cwd (dir_prefix (d2 ++ [n]) +:+ t)
               [dir_prefix (d1 ++ [n]); dir_prefix (d2 ++ [n])]
    = Ok ("dataset/" +:+ n +:+ "/" +:+ t).
Proof.
  intros Hd1 Hd2 Hcwd1 Hcwd2 Hapart.
  assert (∀ d, cwd +:+ "/" ≠ dir_prefix (d ++ [n]) →
               Forall (λ c, is_name c = true) (d ++ [n]) →
               crate_path cwd (dir_prefix (d ++ [n]) +:+ t) [dir_prefix (d ++ [n])]
               = Ok ("dataset/" +:+ n +:+ "/" +:+ t)) as Hone.
  { intros d Hcwd Hd. rewrite crate_path_below by (done || by destruct d).
    unfold crate_folder. rewrite decide_False by done.
    by rewrite last_snoc, !app_assoc. }
  split.
  - rewrite crate_path_first by apply startswith_app. by apply Hone.
  - rewrite crate_path_skip by done. by apply Hone.
Qed.

Lemma crate_path_collision_witness :
  crate_path "/home/user" (dir_prefix (["a"] ++ ["data"]) +:+ "f.txt")
             [dir_prefix (["a"] ++ ["data"]); dir_prefix (["b"] ++ ["data"])]
  = Ok ("dataset/" +:+ "data" +:+ "/" +:+ "f.txt")
  ∧ crate_path "/home/user" (dir_prefix (["b"] ++ ["data"]) +:+ "f.txt")
               [dir_prefix (["a"] ++ ["data"]); dir_prefix (["b"] ++ ["data"])]
    = Ok ("dataset/" +:+ "data" +:+ "/" +:+ "f.txt").
Proof.
  apply (crate_path_collision "/home/user" ["a"] ["b"] "data" "f.txt");
    [repeat constructor|repeat constructor|discriminate|discriminate|by vm_compute].
Defined.

(** The common paths of C4, with one final slash missing, give a crate path
    with a doubled slash. *)
Example crate_path_after_missing_slash :
  get_common_paths ["file://host/a/f1"; "file://host/b/f2"] = Ok ["/b"; "/a/"]
  ∧ crate_path "/home/user" "/b/f2" ["/b"; "/a/"] = Ok "dataset/b//f2".
Proof. by vm_compute. Qed.

(** The files of the root directory get a crate path with three slashes. *)
Example crate_path_root_directory :
  get_common_paths ["file://host/f1"] = Ok ["/"]
  ∧ crate_path "/" "/f1" ["/"] = Ok "dataset///f1".
Proof. by vm_compute. Qed.

Section source_paths.
Implicit Types (s t : string) (d : list string).

Lemma string_drop_app_slash s t :
  string_drop (String.length s + 1) (s +:+ "/" +:+ t) = t.
Proof.
  induction s as [|a s IH]; [by rewrite app_nil_l|]. by rewrite app_cons.
Qed.
End source_paths.

(** X20.  A source file found in a declared directory is put under
    [application_sources/] with the name of that directory and its path
    below it, when the directory is not directly under the root; a source
    file declared by itself is put under [application_sources/] with its
    name alone. *)
Theorem path_in_crate_sources (d : list string) (s t name : string) :
  d ≠ [] → Forall (λ c, is_name c = true) (d ++ [s]) → is_name name = true →
  path_in_crate (abs_path (d ++ [s]) +:+ "/" +:+ t) (abs_path (d ++ [s]))
  = Ok ("application_sources/" +:+ s +:+ "/" +:+ t)
  ∧ path_in_crate (abs_path (d ++ [name])) "" = Ok ("application_sources/" +:+ name).
Proof.
  intros Hne Hd Hname. apply Forall_app in Hd as [Hd [Hs _]%Forall_cons]. split.
  - unfold path_in_crate. rewrite decide_True by done.
    rewrite parent_dir_abs_path, bind_Ok by done. cbv zeta.
    rewrite abs_path_app by done.
    rewrite dir_prefix_abs_path by done. simpl String.concat.
    by rewrite !app_assoc, string_drop_app_slash.
  - unfold path_in_crate, path_name. rewrite decide_False by (by intros []).
    rewrite components_abs_path.
    + by rewrite last_snoc.
    + apply Forall_app. split; [done|]. by apply Forall_singleton.
Qed.

Lemma path_in_crate_sources_witness :
  path_in_crate (abs_path (["home"; "bsc"] ++ ["src"]) +:+ "/" +:+ "pkg/file.py")
                (abs_path (["home"; "bsc"] ++ ["src"]))
  = Ok ("application_sources/" +:+ "src" +:+ "/" +:+ "pkg/file.py")
  ∧ path_in_crate (abs_path (["home"; "bsc"] ++ ["main.py"])) ""
    = Ok ("application_sources/" +:+ "main.py").
Proof.
  apply (path_in_crate_sources ["home"; "bsc"] "src" "pkg/file.py" "main.py");
    [discriminate|repeat constructor|done].
Defined.

(** X21.  For a declared directory directly under the root the place in
    the crate loses the first character of the name of the directory: the
    parent is [/], and the code skips one character more than the parent
    is long.  And a declared directory without a component, as the root
    itself, raises [IndexError]. *)
Theorem path_in_crate_root_sources (a : ascii) (s t file_name in_sources_dir : string) :
  is_name (String a s) = true →
  in_sources_dir ≠ "" → components in_sources_dir = [] →
  path_in_crate (abs_path [String a s] +:+ "/" +:+ t) (abs_path [String a s])
  = Ok ("application_sources/" +:+ s +:+ "/" +:+ t)
  ∧ path_in_crate file_name in_sources_dir = Raise IndexError.
Proof.
  intros Hname Hdir Hnone. split.
  - unfold path_in_crate. rewrite decide_True by done.
    change [String a s] with ([] ++ [String a s]).
    rewrite (parent_dir_abs_path [] (String a s)), bind_Ok by done.
    reflexivity.
  - unfold path_in_crate, parent_dir. rewrite decide_True by done.
    by rewrite Hnone.
Qed.

Lemma path_in_crate_root_sources_witness :
  path_in_crate (abs_path [String "s" "rc"] +:+ "/" +:+ "pkg/file.py")
                (abs_path [String "s" "rc"])
  = Ok ("application_sources/" +:+ "rc" +:+ "/" +:+ "pkg/file.py")
  ∧ path_in_crate "/x.py" "/" = Raise IndexError.
Proof.
  by apply (path_in_crate_root_sources "s" "rc" "pkg/file.py" "/x.py" "/").
Defined.
(** * Every file has a place in the crate *)

Section matches.
Implicit Types (url item p cwd : string) (e cs files paths : list string).

#[local] Abbreviation names := (Forall (λ c, is_name c = true)).

(** The paths the resolver returns for a list of files: each is a
    directory at or above the directory of a file, with or without a final
    slash, and every file lies at or under one of them. *)
Lemma get_common_paths_files_shape files :
  Forall normal_file files →
  ∃ paths,
    get_common_paths files = Ok paths
    ∧ (∀ item, item ∈ paths →
         ∃ e, names e ∧ (item = abs_path e ∨ item = abs_path e +:+ "/")
              ∧ ∃ url, url ∈ files ∧ e `prefix_of` dir_of url)
    ∧ (∀ url, url ∈ files →
         ∃ e, names e ∧ e `prefix_of` components (url_path url)
              ∧ (∃ url0, url0 ∈ files ∧ e `prefix_of` dir_of url0)
              ∧ (abs_path e ∈ paths ∨ (e ≠ [] ∧ abs_path e +:+ "/" ∈ paths))).
Proof.
  intros Hfiles. rewrite get_common_paths_unfold.
  destruct files as [|first rest].
  { exists []. split_and!; [done|by intros ? ?%elem_of_nil..]. }
  apply Forall_cons in Hfiles as [Hfirst Hrest].
  destruct (normal_file_inv _ Hfirst)
    as (url_parts & cs & Hu & Hne & Hcs & Hp & Hcomp & Hparse & Hfile).
  rewrite leading_dirs_file, bind_Ok by done.
  rewrite Hu, bind_Ok, Hp, parent_dir_names, bind_Ok by done.
  pose proof (removelast_prefix cs) as Hparent.
  pose proof (names_prefix _ _ Hcs Hparent) as Hparent_names.
  destruct (common_paths_loop_covers rest [first] (removelast cs) [])
    as (d' & lcp' & -> & Hd' & Hcover & Hsound); [done..| |].
  { intros url ->%list_elem_of_singleton.
    exists (abs_path (removelast cs)). split; [by left|].
    unfold lies_under. by rewrite Hcomp, components_abs_path. }
  rewrite bind_Ok. cbv zeta.
  set (lcp := append_new (abs_path d') lcp').
  assert (∀ p, p ∈ lcp ↔ p ∈ abs_path d' :: lcp') as Hlcp.
  { intros p. unfold lcp. by rewrite append_new_elem, elem_of_cons. }
  assert (∀ p, p ∈ lcp →
    ∃ e, p = abs_path e ∧ names e
         ∧ ∃ url, url ∈ first :: rest ∧ e `prefix_of` dir_of url) as Hshape.
  { intros p [[]%elem_of_nil|(e & -> & He & Hfrom)]%Hlcp%Hsound.
    exists e. split_and!; [done..|]. destruct Hfrom as [Hpre|(url & Hurl & Hup)].
    - exists first. split; [by left|]. unfold dir_of. by rewrite Hcomp.
    - exists url. split; [by right|done]. }
  destruct (end_slash_loop_elems (length lcp) 0 lcp)
    as (paths & -> & Hkeep & Hturn & Hnothing); [|lia|].
  { intros p (e & -> & _)%Hshape. done. }
  exists paths. split_and!; [done| |].
  - intros item [Hitem|(p & Hin & _ & ->)]%Hnothing.
    + destruct (Hshape item Hitem) as (e & -> & He & Hurl). exists e. by auto.
    + destruct (Hshape p Hin) as (e & -> & He & Hurl). exists e. by auto.
  - intros url Hurl. destruct (Hcover url) as (p & Hin%Hlcp & Hup).
    { by apply elem_of_cons in Hurl as [->|?]; [left|right]. }
    destruct (Hshape p Hin) as (e & -> & He & Hurl0).
    exists e. unfold lies_under in Hup. rewrite components_abs_path in Hup by done.
    split_and!; [done..|].
    destruct e as [|c e].
    + left. by apply Hkeep.
    + destruct (Hturn _ Hin) as [?|?]; [by left|right]. by split.
Qed.

(** A path that begins with a slash has a last part. *)
Lemma last_part_abs (t : string) :
  ∃ part, last_part (String "/"%char t) = Ok part.
Proof.
  unfold last_part, path_parts, path_root. simpl leading_slashes.
  destruct (leading_slashes t) as [|[|n]];
    (destruct (last (_ :: components _)) as [part|] eqn:Hlast;
      [by eexists|by apply last_None in Hlast]).
Qed.

(** The loop of the crate path finds a place under [dataset/] as soon as a
    common path matches, when the common paths are absolute. *)
Lemma crate_path_match cwd p paths :
  (∀ item, item ∈ paths → ∃ t, item = String "/"%char t) →
  (∃ item, item ∈ paths ∧ startswith p item = true) →
  ∃ t, crate_path cwd p paths = Ok ("dataset/" +:+ t).
Proof.
  induction paths as [|item rest IH]; intros Habs (found & Hin & Hfound).
  { by apply elem_of_nil in Hin. }
  simpl. destruct (startswith p item) eqn:Hitem.
  - case_decide; [by eexists|].
    destruct (Habs item) as [t ->]; [by left|].
    destruct (last_part_abs t) as [part ->]. rewrite bind_Ok. by eexists.
  - apply IH.
    + intros item' Hitem'. apply Habs. by right.
    + exists found. split; [|done].
      apply elem_of_cons in Hin as [->|?]; [congruence|done].
Qed.

Lemma startswith_app_app (s t u : string) : startswith ((s +:+ t) +:+ u) s = true.
Proof. rewrite app_assoc. apply startswith_app. Qed.
End matches.

(** X25.  For files with normal absolute paths, none of which is a
    directory above another file of the list, the resolver returns common
    paths among which every file has a match, as the loop of the crate path
    expects: the path of the file begins with one of them, and the file
    gets a crate path under [dataset/]. *)
Theorem crate_path_has_match (cwd : string) (url_list : list string) :
  Forall normal_file url_list →
  (∀ url1 url2, url1 ∈ url_list → url2 ∈ url_list →
                ¬ components (url_path url1) `prefix_of` dir_of url2) →
  ∃ paths,
    get_common_paths url_list = Ok paths
    ∧ ∀ url, url ∈ url_list →
        (∃ item, item ∈ paths ∧ startswith (url_path url) item = true)
        ∧ ∃ t, crate_path cwd (url_path url) paths = Ok ("dataset/" +:+ t).
Proof.
  intros Hfiles Hapart.
  destruct (get_common_paths_files_shape url_list Hfiles)
    as (paths & Hpaths & Hshape & Hcover).
  exists paths. split; [done|]. intros url Hurl.
  assert (∃ item, item ∈ paths ∧ startswith (url_path url) item = true) as Hmatch.
  { destruct (Hcover url Hurl) as (e & He & [rest Hrest] & (url0 & Hurl0 & Hup) & Hin).
    assert (rest ≠ []) as Hrest_ne.
    { intros ->. rewrite List.app_nil_r in Hrest.
      apply (Hapart url url0 Hurl Hurl0). by rewrite Hrest. }
    rewrite Forall_forall in Hfiles.
    destruct (normal_file_inv _ (Hfiles url Hurl))
      as (url_parts & cs & Hu & _ & _ & Hp & Hcomp & _).
    assert (url_path url = dir_prefix e +:+ String.concat "/" rest) as ->.
    { unfold url_path. rewrite Hu, Hp, <- Hcomp, Hrest. by apply abs_path_app. }
    destruct Hin as [Hin|[Hne Hin]].
    - exists (abs_path e). split; [done|].
      destruct (decide (e = [])) as [->|Hne]; [apply startswith_app|].
      rewrite dir_prefix_abs_path by done. apply startswith_app_app.
    - exists (abs_path e +:+ "/"). split; [done|].
      rewrite dir_prefix_abs_path by done. apply startswith_app. }
  split; [done|]. apply crate_path_match; [|done].
  intros item (e & _ & [->| ->] & _)%Hshape; by eexists.
Qed.

Lemma crate_path_has_match_witness :
  ∃ paths,
    get_common_paths ["file://host/a/f1"; "file://host/b/f2"] = Ok paths
    ∧ ∀ url, url ∈ ["file://host/a/f1"; "file://host/b/f2"] →
        (∃ item, item ∈ paths ∧ startswith (url_path url) item = true)
        ∧ ∃ t, crate_path "/home/user" (url_path url) paths = Ok ("dataset/" +:+ t).
Proof.
  apply crate_path_has_match.
  - repeat constructor.
    + exists (mkSplit "file" "host" "/a/f1" "" ""), ["a"; "f1"].
      split_and!; [done..|repeat constructor|done].
    + exists (mkSplit "file" "host" "/b/f2" "" ""), ["b"; "f2"].
      split_and!; [done..|repeat constructor|done].
  - intros url1 url2 Hurl1 Hurl2.
    apply elem_of_cons in Hurl1 as [->|Hurl1];
      [|apply list_elem_of_singleton in Hurl1 as ->];
      (apply elem_of_cons in Hurl2 as [->|Hurl2];
        [|apply list_elem_of_singleton in Hurl2 as ->]);
      vm_compute; by intros [k [=]].
Defined.
(** * From the access log to the fixed lists *)

Section dir_urls.
Implicit Types (s t hostname x : string) (l : list string).

#[local] Abbreviation safe := (λ c : ascii, negb (is_unsafe_byte c)).

(** [urlsplit] on a URL that begins with [dir://]. *)
Lemma urlsplit_dir_url s :
  urlsplit ("dir://" +:+ s) =
    let '(nl, rest) := break_at is_netloc_delim (string_filter safe s) in
    if bad_brackets nl then Raise ValueError
    else
      let '(url, frag) := cut_at "#"%char rest in
      let '(url, qry) := cut_at "?"%char url in
      Ok (mkSplit "dir" nl url qry frag).
Proof.
  unfold urlsplit. rewrite string_filter_app.
  change (string_filter _ "dir://") with "dir://".
  change (split_scheme ("dir://" +:+ ?t)) with ("dir", "//" +:+ t).
  cbv beta iota. change ("//" +:+ ?t) with (String "/"%char (String "/"%char t)).
  unfold split_netloc. rewrite decide_True by done.
  destruct (break_at is_netloc_delim _) as [nl rest].
  by destruct (bad_brackets nl).
Qed.

(** The path of such a URL is empty or absolute. *)
Lemma dir_url_path s url_parts :
  urlsplit ("dir://" +:+ s) = Ok url_parts →
  path url_parts = "" ∨ ∃ t, path url_parts = String "/"%char t.
Proof.
  rewrite urlsplit_dir_url.
  pose proof (break_at_snd is_netloc_delim (string_filter safe s)) as Hsnd.
  destruct (break_at is_netloc_delim _) as [nl rest]. simpl in Hsnd.
  destruct (bad_brackets nl); [done|].
  destruct Hsnd as [->|(d & t & -> & Hd)].
  { intros [= <-]. by left. }
  unfold is_netloc_delim in Hd.
  apply orb_true_iff in Hd as [Hd|Hd%bool_decide_eq_true].
  apply orb_true_iff in Hd as [Hd%bool_decide_eq_true|Hd%bool_decide_eq_true].
  - subst d. unfold cut_at at 1. simpl break_at.
    destruct (break_at _ t) as [a b]. 
    assert (∃ a', (let '(a0, b0) := (String "/"%char a, b) in
                   match b0 with "" => (a0, "") | String _ b' => (a0, b') end)
                  = (String "/"%char a, a')) as [a' ->].
    { destruct b; by eexists. }
    unfold cut_at. simpl break_at. destruct (break_at _ a) as [a1 b1].
    destruct b1; intros [= <-]; right; by eexists.
  - subst d. unfold cut_at at 1. simpl break_at.
    destruct (break_at _ t) as [a b].
    assert (∃ a', (let '(a0, b0) := (String "?"%char a, b) in
                   match b0 with "" => (a0, "") | String _ b' => (a0, b') end)
                  = (String "?"%char a, a')) as [a' ->].
    { destruct b; by eexists. }
    unfold cut_at. simpl break_at. intros [= <-]. by left.
  - subst d. unfold cut_at at 1. simpl break_at.
    intros [= <-]. by left.
Qed.

Lemma break_at_app_delim (p : ascii → bool) s (d : ascii) t :
  p d = true → (break_at p (s +:+ String d t)).1 = (break_at p s).1.
Proof.
  intros Hd. induction s as [|a s IH].
  { rewrite app_nil_l. simpl. by rewrite Hd. }
  rewrite app_cons. simpl. destruct (p a); [done|].
  destruct (break_at p (s +:+ _)) as [a1 b1], (break_at p s) as [a2 b2].
  simpl in *. by rewrite IH.
Qed.

(** The URL the directory loop builds parses, on a host without square
    brackets, when the path is empty or absolute. *)
Lemma appended_dir_parses hostname t :
  plain_hostname hostname →
  string_forallb safe t = true →
  t = "" ∨ (∃ u, t = String "/"%char u) →
  parses ("dir://" +:+ hostname +:+ t +:+ "/") = true.
Proof.
  intros [Hopen Hclose] Hsafe Ht. unfold parses. rewrite urlsplit_dir_url.
  assert (∃ u, string_filter safe (hostname +:+ t +:+ "/")
               = string_filter safe hostname +:+ String "/"%char u) as [u ->].
  { rewrite !string_filter_app, (string_filter_id safe t) by done.
    destruct Ht as [->|[u ->]]; by eexists. }
  pose proof (break_at_app_delim is_netloc_delim (string_filter safe hostname)
                "/"%char u eq_refl) as Hfst.
  destruct (break_at is_netloc_delim (_ +:+ _)) as [nl rest]. simpl in Hfst.
  assert (bad_brackets nl = false) as ->.
  { unfold bad_brackets. rewrite Hfst.
    by rewrite !contains_break_at_fst by by rewrite contains_filter. }
  by repeat destruct (cut_at _ _).
Qed.

Lemma startswith_dir s : startswith ("dir://" +:+ s) "dir://" = true.
Proof. apply startswith_app. Qed.

(** The directory loop, on runtime URLs and a host without square brackets,
    ends without an exception and leaves runtime URLs. *)
Lemma fix_dir_refs_loop_runtime hostname bound k l :
  plain_hostname hostname → (∀ x, x ∈ l → runtime_url x) →
  length l ≤ bound + k →
  ∃ l', fix_dir_refs_loop hostname bound k l = Ok l' ∧ ∀ x, x ∈ l' → runtime_url x.
Proof.
  intros Hhost. revert k l. induction bound as [|bound IH]; intros k l Hl Hlen; simpl.
  { rewrite (proj2 (lookup_ge_None l k)) by lia. by exists l. }
  destruct (l !! k) as [item|] eqn:Hk; [|by exists l].
  pose proof (list_elem_of_lookup_2 _ _ _ Hk) as Hitem.
  destruct (Hl item Hitem) as [Hparse Hshape].
  destruct (urlsplit_parses _ Hparse) as [url_parts Hu].
  rewrite Hu, bind_Ok. case_decide as Hdir; [|by exists l].
  destruct (runtime_url_dir item) as [s ->]; [by apply Hl| |].
  { unfold is_dir_url. rewrite Hu. by apply bool_decide_eq_true. }
  set (new := "dir://" +:+ hostname +:+ path url_parts +:+ "/").
  assert (runtime_url new) as Hnew.
  { split; [|left; apply startswith_dir].
    apply appended_dir_parses; [done| |by eapply dir_url_path].
    by apply urlsplit_clean in Hu as (_ & ? & _). }
  destruct (list_remove_elem ("dir://" +:+ s) (l ++ [new])) as [removed Hrem].
  { apply elem_of_app. by left. }
  rewrite Hrem, bind_Ok. apply IH.
  - intros x Hx. apply list_remove_sublist in Hrem.
    apply (λ H, elem_of_sublist _ _ _ H Hrem) in Hx.
    apply elem_of_app in Hx as [?|Hx]; [by apply Hl|].
    by apply list_elem_of_singleton in Hx as ->.
  - apply list_remove_length in Hrem. rewrite length_app in Hrem.
    simpl in Hrem. lia.
Qed.

Lemma fix_dir_refs_runtime hostname l :
  plain_hostname hostname → (∀ x, x ∈ l → runtime_url x) →
  ∃ l', fix_dir_refs hostname l = Ok l' ∧ Sorted String.le l'
        ∧ ∀ x, x ∈ l' → runtime_url x.
Proof.
  intros Hhost Hl. unfold fix_dir_refs.
  destruct (fix_dir_refs_loop_runtime hostname (length l) 0 l)
    as (fixed & -> & Hfixed); [done..|lia|].
  exists (py_sort fixed). split_and!; [done|apply py_sort_sorted|].
  intros x Hx. apply Hfixed. by apply (proj1 (py_sort_elem _ _)).
Qed.
End dir_urls.

(** X22.  On a host without square brackets in its name, and a log whose
    records hold runtime URLs only, the classifier and the fix-up that
    follows it return without an exception: both lists are sorted lists
    of runtime URLs, the outputs are those of the classifier, and the
    inputs are those of the classifier without the files that lie under a
    directory of the outputs. *)
Theorem process_then_fix (hostname : string) (dp_log : list string) :
  plain_hostname hostname →
  (∀ uri, uri ∈ (classify dp_log).1 ∪ (classify dp_log).2 → runtime_url uri) →
  ∃ l_ins l_outs,
    process_accessed_files hostname dp_log = Ok (l_ins, l_outs)
    ∧ fix_in_files_at_out_dirs l_ins l_outs
      = Ok (List.filter (kept_input l_outs) l_ins, l_outs)
    ∧ Sorted String.le (List.filter (kept_input l_outs) l_ins)
    ∧ Sorted String.le l_outs
    ∧ ∀ url, url ∈ List.filter (kept_input l_outs) l_ins ++ l_outs → runtime_url url.
Proof.
  intros Hhost Hlog. unfold process_accessed_files.
  destruct (classify dp_log) as [inputs outputs]. simpl in Hlog.
  destruct (fix_dir_refs_runtime hostname (py_sort (elements inputs)))
    as (l_ins & -> & Hsorted_in & Hin); [done| |].
  { intros x Hx%py_sort_elem%elem_of_elements. apply Hlog. set_solver. }
  destruct (fix_dir_refs_runtime hostname (py_sort (elements outputs)))
    as (l_outs & -> & Hsorted_out & Hout); [done| |].
  { intros x Hx%py_sort_elem%elem_of_elements. apply Hlog. set_solver. }
  rewrite !bind_Ok. exists l_ins, l_outs.
  destruct (fix_in_files_at_out_dirs_filter_aux l_ins l_outs) as [Hfix Hsorted];
    [done..| |].
  { intros url [?|?]%elem_of_app; by auto. }
  split_and!; [done..|].
  intros url [[Hurl _]%list_elem_of_In%List.filter_In|?]%elem_of_app; [|by auto].
  by apply Hin, list_elem_of_In.
Qed.

Lemma process_then_fix_witness :
  ∃ l_ins l_outs,
    process_accessed_files "host"
      ["dir://host/out OUT"; "file://host/out/f IN"; "file://host/a IN"]
    = Ok (l_ins, l_outs)
    ∧ fix_in_files_at_out_dirs l_ins l_outs
      = Ok (List.filter (kept_input l_outs) l_ins, l_outs)
    ∧ Sorted String.le (List.filter (kept_input l_outs) l_ins)
    ∧ Sorted String.le l_outs
    ∧ ∀ url, url ∈ List.filter (kept_input l_outs) l_ins ++ l_outs → runtime_url url.
Proof.
  apply (process_then_fix "host"
           ["dir://host/out OUT"; "file://host/out/f IN"; "file://host/a IN"]).
  - by vm_compute.
  - intros x Hx%elem_of_elements.
    remember (elements _) as l eqn:Hl in Hx. vm_compute in Hl. subst l.
    repeat (apply elem_of_cons in Hx as [->|Hx]; [by vm_compute; auto|]).
    by apply elem_of_nil in Hx.
Defined.

(** The run of the witness: the input file under the output directory is
    removed. *)
Example process_then_fix_run :
  process_accessed_files "host"
    ["dir://host/out OUT"; "file://host/out/f IN"; "file://host/a IN"]
  = Ok (["file://host/a"; "file://host/out/f"], ["dir://host/out/"])
  ∧ fix_in_files_at_out_dirs ["file://host/a"; "file://host/out/f"] ["dir://host/out/"]
    = Ok (["file://host/a"], ["dir://host/out/"]).
Proof. by vm_compute. Qed.
(** * [root_entity] *)

Section authors.
Implicit Types (author : yaml_map) (authors_info : list yaml_map)
  (compss_crate : crate) (author_list org_list : list string) (key : string).

Lemma key_bind_Found {A B} (a : A) (f : A → key_res B) : Found a ≫= f = f a.
Proof. reflexivity. Qed.

Lemma key_bind_Found_inv {A B} (m : key_res A) (f : A → key_res B) b :
  m ≫= f = Found b → ∃ a, m = Found a ∧ f a = Found b.
Proof. destruct m as [a|key]; [by exists a|done]. Qed.

Lemma get_key_Found author key v :
  get_key author key = Found v ↔ author !! key = Some v.
Proof. unfold get_key. destruct (author !! key); naive_solver. Qed.

(** One turn of the loop, when it raises nothing. *)
Lemma add_author_Found compss_crate author_list org_list author st :
  add_author (compss_crate, author_list, org_list) author = Found st →
  ∃ orcid,
    author !! "orcid" = Some orcid ∧ complete_author author
    ∧ st.1.2 = append_new orcid author_list
    ∧ st.2 = match author !! "ror" with
             | Some ror => append_new ror org_list
             | None => org_list
             end
    ∧ root_properties st.1.1 = root_properties compss_crate.
Proof.
  unfold add_author.
  intros (orcid & Horcid%get_key_Found & Hrest)%key_bind_Found_inv.
  apply key_bind_Found_inv in Hrest as (name & Hname%get_key_Found & Hrest).
  apply key_bind_Found_inv in Hrest as ([[c1 ol1] aff] & Hror & Hrest).
  exists orcid. split; [done|].
  assert (complete_author author ∧ root_properties c1 = root_properties compss_crate
          ∧ ol1 = match author !! "ror" with
                  | Some ror => append_new ror org_list
                  | None => org_list
                  end) as (Hcomplete & Hroot & Hol).
  { unfold complete_author. rewrite Horcid, Hname.
    destruct (author !! "ror") as [ror|].
    - apply key_bind_Found_inv in Hror
        as (org & Horg%get_key_Found & [= <- <- <-]).
      rewrite Horg. by eauto 10.
    - injection Hror as <- <- <-.
      repeat split; try done; by eexists. }
  split; [done|].
  destruct (author !! "e-mail"); injection Hrest as <-; by simpl.
Qed.

(** One turn of the loop raises [KeyError] exactly for an author that is
    not complete. *)
Lemma add_author_KeyError compss_crate author_list org_list author key :
  add_author (compss_crate, author_list, org_list) author = KeyError key →
  ¬ complete_author author ∧ key ∈ ["orcid"; "name"; "organisation_name"].
Proof.
  unfold add_author, complete_author, get_key.
  destruct (author !! "orcid") as [orcid|].
  2:{ intros [= <-]. split; [by intros [[? [=]] _]|set_solver]. }
  rewrite key_bind_Found. destruct (author !! "name") as [name|].
  2:{ intros [= <-]. split; [by intros (_ & [? [=]] & _)|set_solver]. }
  rewrite key_bind_Found. destruct (author !! "ror") as [ror|].
  - destruct (author !! "organisation_name") as [org|].
    + rewrite !key_bind_Found. by destruct (author !! "e-mail").
    + intros [= <-]. split; [|set_solver].
      intros (_ & _ & Horg). destruct Horg as [? [=]]. by eexists.
  - rewrite key_bind_Found. by destruct (author !! "e-mail").
Qed.

(** The loop, when it raises nothing: the two lists stay without
    duplicates and take the ORCIDs and the RORs of the authors; the
    properties of the root data set are not touched. *)
Lemma add_authors_Found authors_info compss_crate author_list org_list st :
  add_authors authors_info (compss_crate, author_list, org_list) = Found st →
  Forall complete_author authors_info
  ∧ (NoDup author_list → NoDup st.1.2)
  ∧ (NoDup org_list → NoDup st.2)
  ∧ (∀ orcid, orcid ∈ st.1.2 ↔
       orcid ∈ author_list
       ∨ ∃ author, author ∈ authors_info ∧ author !! "orcid" = Some orcid)
  ∧ (∀ ror, ror ∈ st.2 ↔
       ror ∈ org_list
       ∨ ∃ author, author ∈ authors_info ∧ author !! "ror" = Some ror)
  ∧ root_properties st.1.1 = root_properties compss_crate.
Proof.
  revert compss_crate author_list org_list.
  induction authors_info as [|author rest IH]; intros c al ol.
  { intros [= <-]. simpl. split_and!; [done..| | |done].
    - intros orcid. split; [by left|]. by intros [?|(? & ?%elem_of_nil & _)].
    - intros ror. split; [by left|]. by intros [?|(? & ?%elem_of_nil & _)]. }
  change (add_authors (author :: rest) (c, al, ol))
    with (add_author (c, al, ol) author ≫= add_authors rest).
  intros ([[c1 al1] ol1] & Hstep & Hrest)%key_bind_Found_inv.
  apply add_author_Found in Hstep as (orcid & Horcid & Hcomplete & Hal & Hol & Hroot).
  simpl in Hal, Hol, Hroot. subst al1.
  destruct (IH _ _ _ Hrest) as (Hall & Hnodup_al & Hnodup_ol & Helem_al & Helem_ol & Hroot').
  split_and!.
  - by constructor.
  - intros Hal. by apply Hnodup_al, append_new_NoDup.
  - intros Hnd. apply Hnodup_ol. rewrite Hol.
    destruct (author !! "ror"); [by apply append_new_NoDup|done].
  - intros o. rewrite Helem_al, append_new_elem. split.
    + intros [[->|?]|(a & Ha & ?)]; [|by left|].
      * right. exists author. split; [by left|done].
      * right. exists a. split; [by right|done].
    + intros [?|(a & [->|Ha]%elem_of_cons & Ho)]; [by auto| |].
      * left. left. congruence.
      * right. by exists a.
  - intros r. rewrite Helem_ol, Hol. split.
    + intros [Hr|(a & Ha & ?)].
      * destruct (author !! "ror") as [ror|] eqn:Hror; [|by left].
        apply append_new_elem in Hr as [->|?]; [|by left].
        right. exists author. split; [by left|done].
      * right. exists a. split; [by right|done].
    + intros [?|(a & [->|Ha]%elem_of_cons & Hr)].
      * left. destruct (author !! "ror"); [|done]. apply append_new_elem. by right.
      * left. rewrite Hr. apply append_new_elem. by left.
      * right. by exists a.
  - by rewrite Hroot'.
Qed.

Lemma add_authors_KeyError authors_info compss_crate author_list org_list key :
  add_authors authors_info (compss_crate, author_list, org_list) = KeyError key →
  ¬ Forall complete_author authors_info
  ∧ key ∈ ["orcid"; "name"; "organisation_name"].
Proof.
  revert compss_crate author_list org_list.
  induction authors_info as [|author rest IH]; intros c al ol; [done|].
  change (add_authors (author :: rest) (c, al, ol))
    with (add_author (c, al, ol) author ≫= add_authors rest).
  destruct (add_author (c, al, ol) author) as [[[c1 al1] ol1]|key'] eqn:Hstep.
  - rewrite key_bind_Found. intros [Hrest Hkey]%IH. split; [|done].
    by intros [_ ?]%Forall_cons.
  - intros [= <-]. apply add_author_KeyError in Hstep as [Hbad Hkey].
    split; [|done]. by intros [? _]%Forall_cons.
Qed.
End authors.

(** X23.  On a YAML file whose sections are mappings with string values,
    the files of [yaml_content], [root_entity] returns exactly when the file
    has the section [COMPSs Workflow Information] with a [name], and every
    author has [orcid] and [name], and [organisation_name] when it has
    [ror]; otherwise it raises [KeyError] for one of these keys.  A file
    with a value that is not a string, or with an author that is not a
    mapping, on which the function can raise [TypeError], is not among
    them. *)
Theorem root_entity_key_errors (compss_crate : crate) (yaml : yaml_content) :
  match root_entity compss_crate yaml with
  | Found _ => complete_yaml yaml
  | KeyError key =>
      ¬ complete_yaml yaml
      ∧ key ∈ ["COMPSs Workflow Information"; "name"; "orcid"; "organisation_name"]
  end.
Proof.
  unfold root_entity, complete_yaml. fold (authors_of yaml).
  destruct (yaml_workflow yaml) as [wf|].
  2:{ split; [by intros [(? & [=] & _) _]|set_solver]. }
  rewrite key_bind_Found. unfold get_key at 1.
  destruct (wf !! "name") as [name|] eqn:Hname.
  2:{ split; [|set_solver]. intros [(wf' & [= <-] & Hn) _].
      rewrite Hname in Hn. by destruct Hn. }
  rewrite key_bind_Found. cbv zeta.
  destruct (add_authors _ _) as [[[c1 al] ol]|key] eqn:Hloop.
  - apply add_authors_Found in Hloop as (Hall & _).
    split; [|done]. exists wf. by rewrite Hname.
  - apply add_authors_KeyError in Hloop as [Hbad Hkey].
    split; [by intros [_ ?]|set_solver].
Qed.

(** X24.  When [root_entity] returns, the list of authors it returns holds
    the ORCIDs of the authors, each one once, and it is the creator of the
    crate when it is not empty; the publisher of the crate is the list of
    the RORs of the authors, each one once, when an author has one, and
    the list of authors otherwise; without authors, creator and publisher
    are left as they were.  The name of the crate is the [name] of the
    workflow section, which is returned as it is. *)
Theorem root_entity_creator_publisher (compss_crate compss_crate' : crate)
    (yaml : yaml_content) (compss_wf_info : yaml_map)
    (crate_author_list : list string) :
  root_entity compss_crate yaml
  = Found (compss_crate', (compss_wf_info, crate_author_list)) →
  yaml_workflow yaml = Some compss_wf_info
  ∧ crate_name compss_crate' = compss_wf_info !! "name"
  ∧ NoDup crate_author_list
  ∧ (∀ orcid, orcid ∈ crate_author_list ↔
       ∃ author, author ∈ authors_of yaml ∧ author !! "orcid" = Some orcid)
  ∧ (authors_of yaml ≠ [] → crate_creator compss_crate' = Some crate_author_list)
  ∧ (authors_of yaml = [] →
       crate_creator compss_crate' = crate_creator compss_crate
       ∧ crate_publisher compss_crate' = crate_publisher compss_crate)
  ∧ ∃ crate_org_list,
      NoDup crate_org_list
      ∧ (∀ ror, ror ∈ crate_org_list ↔
           ∃ author, author ∈ authors_of yaml ∧ author !! "ror" = Some ror)
      ∧ (crate_org_list ≠ [] → crate_publisher compss_crate' = Some crate_org_list)
      ∧ (crate_org_list = [] → authors_of yaml ≠ [] →
           crate_publisher compss_crate' = Some crate_author_list).
Proof.
  unfold root_entity. fold (authors_of yaml).
  destruct (yaml_workflow yaml) as [wf|]; [|done]. rewrite key_bind_Found.
  intros (name & Hname%get_key_Found & Hrest)%key_bind_Found_inv. cbv zeta in Hrest.
  apply key_bind_Found_inv in Hrest as ([[c1 al] ol] & Hloop & Hrest).
  apply add_authors_Found in Hloop
    as (Hall & Hnodup_al & Hnodup_ol & Helem_al & Helem_ol & Hroot).
  simpl in *. injection Hroot as Hn Hd Hl Hc Hp.
  injection Hrest as <- <- <-. simpl.
  assert (∀ orcid, orcid ∈ al ↔
    ∃ author, author ∈ authors_of yaml ∧ author !! "orcid" = Some orcid) as Hal.
  { intros o. rewrite Helem_al. split; [|by auto]. by intros [?%elem_of_nil|?]. }
  assert (∀ ror, ror ∈ ol ↔
    ∃ author, author ∈ authors_of yaml ∧ author !! "ror" = Some ror) as Hol.
  { intros r. rewrite Helem_ol. split; [|by auto]. by intros [?%elem_of_nil|?]. }
  assert (authors_of yaml ≠ [] → al ≠ []) as Hsome.
  { destruct (authors_of yaml) as [|author rest]; [done|]. intros _ ->.
    apply Forall_cons in Hall as [([orcid Horcid] & _) _].
    apply (not_elem_of_nil orcid), Hal. exists author. split; [by left|done]. }
  assert (authors_of yaml = [] → al = [] ∧ ol = []) as Hnone.
  { intros Hnil. rewrite Hnil in Hal, Hol. split.
    - destruct al as [|o al]; [done|]. exfalso.
      destruct (proj1 (Hal o)) as (? & ?%elem_of_nil & _); [by left|done].
    - destruct ol as [|r ol]; [done|]. exfalso.
      destruct (proj1 (Hol r)) as (? & ?%elem_of_nil & _); [by left|done]. }
  split_and!; [done|by rewrite Hn, Hname|by apply Hnodup_al; constructor|done| | |].
  - intros Hne%Hsome. by destruct al.
  - intros [-> ->]%Hnone. by rewrite Hc, Hp.
  - exists ol. split_and!; [by apply Hnodup_ol; constructor|done| |].
    + intros Hne. by destruct ol.
    + intros -> Hne%Hsome. by destruct al.
Qed.

Lemma root_entity_creator_publisher_witness :
  yaml_workflow app_yaml = Some app_info
  ∧ crate_name app_crate = app_info !! "name"
  ∧ NoDup ["https://orcid.org/1"; "https://orcid.org/2"]
  ∧ (∀ orcid, orcid ∈ ["https://orcid.org/1"; "https://orcid.org/2"] ↔
       ∃ author, author ∈ authors_of app_yaml ∧ author !! "orcid" = Some orcid)
  ∧ (authors_of app_yaml ≠ [] →
       crate_creator app_crate = Some ["https://orcid.org/1"; "https://orcid.org/2"])
  ∧ (authors_of app_yaml = [] →
       crate_creator app_crate = crate_creator new_crate
       ∧ crate_publisher app_crate = crate_publisher new_crate)
  ∧ ∃ crate_org_list,
      NoDup crate_org_list
      ∧ (∀ ror, ror ∈ crate_org_list ↔
           ∃ author, author ∈ authors_of app_yaml ∧ author !! "ror" = Some ror)
      ∧ (crate_org_list ≠ [] → crate_publisher app_crate = Some crate_org_list)
      ∧ (crate_org_list = [] → authors_of app_yaml ≠ [] →
           crate_publisher app_crate
           = Some ["https://orcid.org/1"; "https://orcid.org/2"]).
Proof.
  apply (root_entity_creator_publisher new_crate). by vm_compute.
Defined.

(** The run of the witness: an author listed twice is added to the crate
    twice, and is once in the list of authors. *)
Example root_entity_run :
  root_entity new_crate app_yaml
  = Found (app_crate, (app_info, ["https://orcid.org/1"; "https://orcid.org/2"])).
Proof. by vm_compute. Qed.

(** An author with a [ror] and no [organisation_name]. *)
Example root_entity_no_organisation_name :
  root_entity new_crate
    (mkYaml (Some app_info)
            (Some (AuthorsOne {[ "name" := "Eve"; "orcid" := "https://orcid.org/3";
                                 "ror" := "https://ror.org/3" ]})))
  = KeyError "organisation_name".
Proof. by vm_compute. Qed.
